(** * A blocking task queue and its dispatch driver

    Shallow embedding of [blocking_q.c] (the queue) and of the scheduler and
    [main] of the dispatch program, followed by the properties of the queue
    contract that the code keeps or breaks.

    The C code is single-threaded inside each function, so every function is
    embedded as a state transformer over a small memory model, run by one
    calling thread.  A call that suspends its thread (a wait on the condition
    variable, a lock that is not free) ends the run with [Blocked]: no other
    thread runs inside this semantics. *)

From Stdlib Require Import ZArith Lia String.
From stdpp Require Import base gmap list.

Local Open Scope Z_scope.

(** ** Memory model *)

Module Mem.

(** Addresses are 64-bit; [NULL] is address 0. *)
Abbreviation loc := Z.
Definition NULL : loc := 0.
Definition ADDR_MAX : Z := 2 ^ 64.

(** Threads are numbered. *)
Definition tid := nat.

(** [size_t] arithmetic wraps modulo 2^64. *)
Definition SIZE_MOD : Z := 2 ^ 64.
Definition wrap (z : Z) : Z := z mod SIZE_MOD.

(** [int] is 32 bits; signed overflow is undefined behaviour. *)
Definition INT_MAX : Z := 2 ^ 31 - 1.

(** A default pthread mutex: not yet initialised, free, or held by a thread. *)
Inductive mutex := MUninit | MFree | MHeld (owner : tid).

(** A condition variable: only whether it was initialised matters here. *)
Inductive condvar := CUninit | CReady.

(** Modelled from the spec: the declaration of [task] (main.h or
    blocking_q.h) is not among the sources.  A task record has a kind, a
    character in the code, and two timestamps; the field names are the ones
    the code uses ([end] is a keyword here). *)
Record task := Task { type : Z; start : Z; end_ : Z }.

(** Modelled from the spec: the declaration of [blocking_q_node]
    (blocking_q.h) is not among the sources.  A node holds the task handle
    and the link to the next node. *)
Record blocking_q_node := Node { data : loc; next : loc }.

(** Modelled from the spec: the declaration of [blocking_q] (blocking_q.h)
    is not among the sources.  A queue has a count of elements, taken to be
    a [size_t], the head pointer, one lock and one condition variable. *)
Record blocking_q := Queue
  { sz : Z; first : loc; lock : mutex; cond : condvar }.

(** Modelled from the spec: the declaration of [processor] (main.h) is not
    among the sources.  A processor has its private queue and three
    duration counters. *)
Record processor := Processor
  { tasks : loc; real_t : Z; work_t : Z; wait_t : Z }.

(** Modelled from the spec: the declaration of [sched_data] (main.h) is not
    among the sources.  The scheduler gets its inbound queue and the array
    of processors. *)
Record sched_data := SchedData
  { sched_q : loc; processors : list processor }.

(** What a run leaves behind for an observer.  [EvSz] and [EvLink] record
    every access to a queue's count and every write to its linkage, with
    whether the accessing thread held the queue's lock at that moment. *)
Inductive event :=
| EvSz (t : tid) (q : loc) (held : bool)
| EvLink (t : tid) (q : loc) (held : bool)
| EvSignal (q : loc)
| EvCreate (k : nat)
| EvPrintf (msg : string).

(** The store: one typed heap per kind of object, a bump allocator shared by
    all of them, the number of allocations that can still succeed, the log
    of events, and what memory that was never written holds: [junk p i] is
    word [i] of the object that [malloc] returns at address [p]. *)
Record mem := MemOf
  { qs : gmap Z blocking_q;
    nodes : gmap Z blocking_q_node;
    recs : gmap Z task;
    bufs : gmap Z (list loc);
    brk : Z;
    avail : nat;
    log : list event;
    junk : loc → nat → Z }.

Definition set_qs (f : gmap Z blocking_q → gmap Z blocking_q) (m : mem) : mem :=
  MemOf (f (qs m)) (nodes m) (recs m) (bufs m) (brk m) (avail m) (log m)
    (junk m).
Definition set_nodes (f : gmap Z blocking_q_node → gmap Z blocking_q_node)
    (m : mem) : mem :=
  MemOf (qs m) (f (nodes m)) (recs m) (bufs m) (brk m) (avail m) (log m)
    (junk m).
Definition set_recs (f : gmap Z task → gmap Z task) (m : mem) : mem :=
  MemOf (qs m) (nodes m) (f (recs m)) (bufs m) (brk m) (avail m) (log m)
    (junk m).
Definition set_bufs (f : gmap Z (list loc) → gmap Z (list loc)) (m : mem) : mem :=
  MemOf (qs m) (nodes m) (recs m) (f (bufs m)) (brk m) (avail m) (log m)
    (junk m).
Definition emit (e : event) (m : mem) : mem :=
  MemOf (qs m) (nodes m) (recs m) (bufs m) (brk m) (avail m) (log m ++ [e])
    (junk m).

(** Undefined behaviour the code can run into. *)
Inductive fault :=
| NullDeref
| WildPointer
| OutOfBounds
| IntOverflow
| BadMutex
| BadCond.

(** Why a thread is suspended. *)
Inductive waiting := OnMutex (q : loc) | OnCond (q : loc).

(** The result of running a piece of code from a store. *)
Inductive outcome (A : Type) :=
| Done (a : A) (m : mem)
| Fault (f : fault) (m : mem)
| Blocked (w : waiting) (m : mem)
| Diverge.
Arguments Done {A} a m.
Arguments Fault {A} f m.
Arguments Blocked {A} w m.
Arguments Diverge {A}.

Definition M (A : Type) : Type := mem → outcome A.

Definition ret {A} (a : A) : M A := fun m => Done a m.

Definition bind {A B} (c : M A) (k : A → M B) : M B :=
  fun m =>
    match c m with
    | Done a m' => k a m'
    | Fault f m' => Fault f m'
    | Blocked w m' => Blocked w m'
    | Diverge => Diverge
    end.

Definition crash {A} (f : fault) : M A := fun m => Fault f m.
Definition suspend {A} (w : waiting) : M A := fun m => Blocked w m.
Definition modify (f : mem → mem) : M unit := fun m => Done tt (f m).
Definition gets {A} (f : mem → A) : M A := fun m => Done (f m) m.

End Mem.
Export Mem.

Declare Scope run_scope.
Delimit Scope run_scope with run.
Notation "x <- c ;; k" := (bind c (fun x => k))
  (at level 100, c at next level, right associativity) : run_scope.
Notation "c ;; k" := (bind c (fun _ => k))
  (at level 100, right associativity) : run_scope.
Local Open Scope run_scope.

(** [while_ fuel c body a]: the C loop [while (c) body] over the local
    variables [a]; [fuel] bounds the number of iterations. *)
Fixpoint while_ {A} (fuel : nat) (c : A → M bool) (body : A → M A) (a : A)
    : M A :=
  match fuel with
  | O => fun _ => Diverge
  | S fuel' =>
      b <- c a ;;
      if b : bool then a' <- body a ;; while_ fuel' c body a' else ret a
  end.

(** ** The C library, as far as the program uses it *)

Module Libc.

Definition printf (msg : string) : M unit := modify (emit (EvPrintf msg)).

(** [malloc]: the next address, or [NULL] when memory or the address space
    is exhausted. *)
Definition malloc : M loc :=
  fun m =>
    if ((0 <? avail m)%nat && (brk m <? ADDR_MAX))%bool
    then Done (brk m)
           (MemOf (qs m) (nodes m) (recs m) (bufs m) (brk m + 1)
              (Nat.pred (avail m)) (log m) (junk m))
    else Done NULL m.

(** A fresh object holds indeterminate contents: each of its words is what
    the store's [junk] has at that place, and the primitives inside a fresh
    queue object are not initialised. *)
Definition fresh_node (m : mem) (p : loc) : blocking_q_node :=
  Node (junk m p 0) (junk m p 1).
Definition fresh_task (m : mem) (p : loc) : task :=
  Task (junk m p 0) (junk m p 1) (junk m p 2).
Definition fresh_q (m : mem) (p : loc) : blocking_q :=
  Queue (junk m p 0) (junk m p 1) MUninit CUninit.
Definition fresh_buf (m : mem) (p : loc) (slots : nat) : list loc :=
  List.map (junk m p) (seq 0 slots).

Definition malloc_node : M loc :=
  p <- malloc ;;
  if p =? NULL then ret NULL
  else modify (fun m => set_nodes <[p := fresh_node m p]> m) ;; ret p.

Definition malloc_task : M loc :=
  p <- malloc ;;
  if p =? NULL then ret NULL
  else modify (fun m => set_recs <[p := fresh_task m p]> m) ;; ret p.

Definition malloc_q : M loc :=
  p <- malloc ;;
  if p =? NULL then ret NULL
  else modify (fun m => set_qs <[p := fresh_q m p]> m) ;; ret p.

(** [malloc(sizeof(task_ptr) * n)]: the byte count wraps like any [size_t]. *)
Definition malloc_buf (n : Z) : M loc :=
  p <- malloc ;;
  if p =? NULL then ret NULL
  else
    modify
      (fun m =>
         set_bufs <[p := fresh_buf m p (Z.to_nat (wrap (8 * n) / 8))]> m) ;;
    ret p.

Definition free_task (p : loc) : M unit :=
  if p =? NULL then ret tt
  else
    r <- gets (fun m => recs m !! p) ;;
    match r with
    | Some _ => modify (set_recs (delete p))
    | None => crash WildPointer
    end.

(** Loads and stores through a pointer. *)
Definition load {A} (h : mem → gmap Z A) (p : loc) : M A :=
  if p =? NULL then crash NullDeref
  else
    r <- gets (fun m => h m !! p) ;;
    match r with
    | Some a => ret a
    | None => crash WildPointer
    end.

Definition load_q : loc → M blocking_q := load qs.
Definition load_node : loc → M blocking_q_node := load nodes.
Definition load_task : loc → M task := load recs.

Definition store_q (q : loc) (f : blocking_q → blocking_q) : M unit :=
  v <- load_q q ;; modify (set_qs <[q := f v]>).

Definition store_node (p : loc) (f : blocking_q_node → blocking_q_node)
    : M unit :=
  v <- load_node p ;; modify (set_nodes <[p := f v]>).

Definition store_task (p : loc) (f : task → task) : M unit :=
  v <- load_task p ;; modify (set_recs <[p := f v]>).

(** [data[i] = x] *)
Definition store_buf (p : loc) (i : Z) (x : loc) : M unit :=
  b <- load bufs p ;;
  if (0 <=? i) && (i <? Z.of_nat (length b))
  then modify (set_bufs <[p := <[Z.to_nat i := x]> b]>)
  else crash OutOfBounds.

(** [counter++] on an [int]. *)
Definition incr_int (c : Z) : M Z :=
  if c <? INT_MAX then ret (c + 1) else crash IntOverflow.

End Libc.
Export Libc.

(** ** POSIX threads *)

Module Pthread.

(** What the system answers to the calls whose result the program tests. *)
Record env := Env
  { mutex_init_ret : Z;
    cond_init_ret : Z;
    create_ret : nat → Z }.

Definition holds (t : tid) (l : mutex) : bool :=
  match l with
  | MHeld o => Nat.eqb o t
  | _ => false
  end.

Definition set_lock (l : mutex) (v : blocking_q) : blocking_q :=
  Queue (sz v) (first v) l (cond v).
Definition set_cond (c : condvar) (v : blocking_q) : blocking_q :=
  Queue (sz v) (first v) (lock v) c.

Definition pthread_mutex_init (e : env) (q : loc) : M Z :=
  if mutex_init_ret e =? 0
  then store_q q (set_lock MFree) ;; ret 0
  else load_q q ;; ret (mutex_init_ret e).

Definition pthread_cond_init (e : env) (q : loc) : M Z :=
  if cond_init_ret e =? 0
  then store_q q (set_cond CReady) ;; ret 0
  else load_q q ;; ret (cond_init_ret e).

(** Locking a free mutex takes it.  A mutex held by anyone, the caller
    included, suspends the caller; an uninitialised one is undefined. *)
Definition pthread_mutex_lock (t : tid) (q : loc) : M Z :=
  v <- load_q q ;;
  match lock v with
  | MUninit => crash BadMutex
  | MFree => store_q q (set_lock (MHeld t)) ;; ret 0
  | MHeld _ => suspend (OnMutex q)
  end.

(** Waiting needs an initialised condition variable and the mutex held by
    the caller; it releases the mutex and suspends the caller. *)
Definition pthread_cond_wait (t : tid) (q : loc) : M Z :=
  v <- load_q q ;;
  match cond v with
  | CUninit => crash BadCond
  | CReady =>
      if holds t (lock v)
      then store_q q (set_lock MFree) ;; suspend (OnCond q)
      else crash BadMutex
  end.

Definition pthread_cond_signal (q : loc) : M Z :=
  v <- load_q q ;;
  match cond v with
  | CUninit => crash BadCond
  | CReady => modify (emit (EvSignal q)) ;; ret 0
  end.

(** [pthread_create]: the [k]-th thread of the program. *)
Definition pthread_create (e : env) (k : nat) : M Z :=
  modify (emit (EvCreate k)) ;; ret (create_ret e k).

End Pthread.
Export Pthread.

(** ** The blocking queue (blocking_q.c) *)

Module BlockingQ.

Definition set_sz (z : Z) (v : blocking_q) : blocking_q :=
  Queue z (first v) (lock v) (cond v).
Definition set_first (p : loc) (v : blocking_q) : blocking_q :=
  Queue (sz v) p (lock v) (cond v).
Definition set_data (p : loc) (n : blocking_q_node) : blocking_q_node :=
  Node p (next n).
Definition set_next (p : loc) (n : blocking_q_node) : blocking_q_node :=
  Node (data n) p.

(** [q->sz] as an rvalue and as an lvalue: each access is logged with
    whether thread [t] holds the lock of [q]. *)
Definition read_sz (t : tid) (q : loc) : M Z :=
  v <- load_q q ;;
  modify (emit (EvSz t q (holds t (lock v)))) ;;
  ret (sz v).

Definition write_sz (t : tid) (q : loc) (z : Z) : M unit :=
  v <- load_q q ;;
  modify (emit (EvSz t q (holds t (lock v)))) ;;
  store_q q (set_sz z).

Definition read_first (q : loc) : M loc :=
  v <- load_q q ;; ret (first v).

(** Writes to the linkage of [q]: its head pointer and the [next] field of
    one of its nodes. *)
Definition write_first (t : tid) (q : loc) (p : loc) : M unit :=
  v <- load_q q ;;
  modify (emit (EvLink t q (holds t (lock v)))) ;;
  store_q q (set_first p).

Definition write_next (t : tid) (q : loc) (n : loc) (p : loc) : M unit :=
  v <- load_q q ;;
  store_node n (set_next p) ;;
  modify (emit (EvLink t q (holds t (lock v)))).

(** [__blocking_q_take] *)
Definition __blocking_q_take (t : tid) (q : loc) : M loc :=
  first <- read_first q ;;
  n <- load_node first ;;
  let data := data n in
  write_first t q (next n) ;;
  s <- read_sz t q ;;
  write_sz t q (wrap (s - 1)) ;;
  ret data.

(** [blocking_q_init] *)
Definition blocking_q_init (e : env) (t : tid) (q : loc) : M bool :=
  write_sz t q 0 ;;
  write_first t q NULL ;;
  err <- pthread_mutex_init e q ;;
  (if negb (err =? 0) then printf "ERROR" else ret tt) ;;
  err <- pthread_cond_init e q ;;
  (if negb (err =? 0) then printf "ERROR" else ret tt) ;;
  pthread_mutex_lock t q ;;
  ret false.

(** [while (curr->next != NULL) curr = curr->next;] *)
Definition last_node (fuel : nat) (curr : loc) : M loc :=
  while_ fuel
    (fun curr => n <- load_node curr ;; ret (negb (next n =? NULL)))
    (fun curr => n <- load_node curr ;; ret (next n))
    curr.

(** [blocking_q_put] *)
Definition blocking_q_put (fuel : nat) (t : tid) (q : loc) (data : loc)
    : M bool :=
  new_node <- malloc_node ;;
  if new_node =? NULL then ret false
  else
    store_node new_node (set_data data) ;;
    store_node new_node (set_next NULL) ;;
    curr <- read_first q ;;
    curr <- last_node fuel curr ;;
    write_next t q curr new_node ;;
    s <- read_sz t q ;;
    write_sz t q (wrap (s + 1)) ;;
    s <- read_sz t q ;;
    (if s =? 1 then pthread_cond_signal q ;; ret tt else ret tt) ;;
    ret true.

(** [blocking_q_get] *)
Definition blocking_q_get (fuel : nat) (t : tid) (q : loc) : M loc :=
  while_ fuel
    (fun _ => s <- read_sz t q ;; ret (s =? 0))
    (fun _ => pthread_cond_wait t q ;; ret tt)
    tt ;;
  element <- __blocking_q_take t q ;;
  s <- read_sz t q ;;
  (if s =? 0 then pthread_mutex_lock t q ;; ret tt else ret tt) ;;
  ret element.

(** [while (q->sz > 0) data[counter++] = __blocking_q_take(q);] *)
Definition take_all (fuel : nat) (t : tid) (q : loc) (data : loc)
    (counter : Z) : M Z :=
  while_ fuel
    (fun _ => s <- read_sz t q ;; ret (0 <? s))
    (fun counter =>
       x <- __blocking_q_take t q ;;
       store_buf data counter x ;;
       incr_int counter)
    counter.

(** [blocking_q_drain].  The function has no [return] after its loop: the
    result is [None] when control reaches the closing brace. *)
Definition blocking_q_drain (fuel : nat) (t : tid) (q : loc) (data : loc)
    (sz : Z) : M (option Z) :=
  s <- read_sz t q ;;
  if s =? 0 then ret (Some 0)
  else
    let counter := 0 in
    data <- malloc_buf sz ;;
    take_all fuel t q data counter ;;
    pthread_mutex_lock t q ;;
    ret None.

(** [blocking_q_drain_at_least]; [rounds] bounds the jumps back to [loop:]. *)
Fixpoint drain_rounds (rounds fuel : nat) (t : tid) (q : loc) (data : loc)
    (min : Z) (counter : Z) : M Z :=
  match rounds with
  | O => fun _ => Diverge
  | S rounds' =>
      counter <- take_all fuel t q data counter ;;
      pthread_mutex_lock t q ;;
      if wrap counter <? min
      then
        while_ fuel
          (fun _ => s <- read_sz t q ;; ret (s <? wrap (min - wrap counter)))
          (fun _ => pthread_cond_wait t q ;; ret tt)
          tt ;;
        drain_rounds rounds' fuel t q data min counter
      else ret (wrap counter)
  end.

Definition blocking_q_drain_at_least (fuel : nat) (t : tid) (q : loc)
    (data : loc) (sz : Z) (min : Z) : M Z :=
  let counter := 0 in
  drain_rounds fuel fuel t q data min counter.

(** [blocking_q_peek]: the parameter [c] is overwritten twice and nothing is
    returned after the test. *)
Definition blocking_q_peek (t : tid) (q : loc) (c : loc) : M (option bool) :=
  s <- read_sz t q ;;
  if s =? 0 then ret (Some false)
  else
    c <- malloc_buf 1 ;;
    c <- read_first q ;;
    ret None.

End BlockingQ.
Export BlockingQ.

(** ** The scheduler and the driver *)

Module Dispatch.

Definition PROCESSOR_COUNT : nat := 4.
Definition POISON_PILL : Z := 75.
Definition EXIT_SUCCESS : Z := 0.
Definition EXIT_FAILURE : Z := 1.

Definition set_type (k : Z) (r : task) : task := Task k (start r) (end_ r).

(** [for (int i = 0; i < n; ++i) body], where the body may [return]. *)
Fixpoint for_ {R} (idx : list nat) (body : nat → M (option R)) : M (option R) :=
  match idx with
  | [] => ret None
  | i :: idx' =>
      r <- body i ;;
      match r with
      | Some v => ret (Some v)
      | None => for_ idx' body
      end
  end.

(** [processor_init] *)
Definition processor_init (id : nat) : M bool :=
  printf "TODO" ;;
  ret true.

(** One turn of the scheduler's loop, giving the new value of [run].  The
    routing block of the loop is empty, so a task that is not the sentinel
    is dequeued and left alone. *)
Definition scheduler_turn (fuel : nat) (t : tid) (q : loc) (run : bool)
    : M bool :=
  tk <- blocking_q_get fuel t q ;;
  r <- load_task tk ;;
  printf "Received t %c\n" ;;
  r <- load_task tk ;;
  if POISON_PILL =? type r then ret false else ret run.

(** The body of the loop that stops the processors. *)
Definition kill_processor (fuel : nat) (t : tid) (data : sched_data)
    (poison : loc) (i : nat) : M (option unit) :=
  match processors data !! i with
  | Some proc => blocking_q_put fuel t (tasks proc) poison ;; ret None
  | None => crash OutOfBounds
  end.

(** [scheduler] up to its last statement but one: the loop, then the
    construction of the sentinel and its broadcast.  The result is the
    local variable [poison]. *)
Definition scheduler_body (fuel : nat) (t : tid) (data : sched_data) : M loc :=
  let q := sched_q data in
  while_ fuel (fun run => ret run) (scheduler_turn fuel t q) true ;;
  poison <- malloc_task ;;
  store_task poison (set_type POISON_PILL) ;;
  for_ (seq 0 PROCESSOR_COUNT) (kill_processor fuel t data poison) ;;
  ret poison.

(** [scheduler]: the body above, then [free(poison)]. *)
Definition scheduler (fuel : nat) (t : tid) (data : sched_data) : M unit :=
  poison <- scheduler_body fuel t data ;;
  free_task poison ;;
  ret tt.

(** How far [main] got: it returned an exit code, or every thread is
    started and control is at the loop that feeds the scheduler queue. *)
Inductive progress := Exit (code : Z) | Started (sched_q : loc).

Section Driver.

(** [main] is linked against an implementation of the queue and of the
    processor. *)
Variable q_init : env → tid → loc → M bool.
Variable p_init : nat → M bool.

(** The body of the loop that starts the processors. *)
Definition start_processor (e : env) (i : nat) : M (option Z) :=
  ok <- p_init i ;;
  if negb ok then ret (Some EXIT_FAILURE)
  else
    r <- pthread_create e (S i) ;;
    if negb (0 =? r) then ret (Some EXIT_FAILURE)
    else ret None.

(** [main], up to the point where all threads run (the part that decides
    whether the process starts at all). *)
Definition main_with (e : env) (t : tid) (argc : Z) : M progress :=
  if argc <? 2
  then printf "Missing / Wrong arguments.\n" ;; ret (Exit EXIT_FAILURE)
  else
    sched_q <- malloc_q ;;
    failed <- (if sched_q =? NULL then ret true
               else ok <- q_init e t sched_q ;; ret (negb ok)) ;;
    if failed : bool then ret (Exit EXIT_FAILURE)
    else
      r <- pthread_create e 0 ;;
      if negb (0 =? r) then ret (Exit EXIT_FAILURE)
      else
        r <- for_ (seq 0 PROCESSOR_COUNT) (start_processor e) ;;
        match r with
        | Some code => ret (Exit code)
        | None => ret (Started sched_q)
        end.

End Driver.

Definition main : env → tid → Z → M progress :=
  main_with blocking_q_init processor_init.

End Dispatch.
Export Dispatch.

(** ** Tearing down *)

Module Teardown.

(** [free] of a queue node. *)
Definition free_node (p : loc) : M unit :=
  if p =? NULL then ret tt
  else
    r <- gets (fun m => nodes m !! p) ;;
    match r with
    | Some _ => modify (set_nodes (delete p))
    | None => crash WildPointer
    end.

(** Destroying a free mutex makes it uninitialised again.  On a mutex that
    is held, which POSIX leaves open, the library the program runs on
    refuses: it answers [EBUSY] and leaves the mutex as it is.  Destroying
    a mutex that was never initialised is undefined. *)
Definition EBUSY : Z := 16.

Definition pthread_mutex_destroy (q : loc) : M Z :=
  v <- load_q q ;;
  match lock v with
  | MFree => store_q q (set_lock MUninit) ;; ret 0
  | MHeld _ => ret EBUSY
  | MUninit => crash BadMutex
  end.

Definition pthread_cond_destroy (q : loc) : M Z :=
  v <- load_q q ;;
  match cond v with
  | CReady => store_q q (set_cond CUninit) ;; ret 0
  | CUninit => crash BadCond
  end.

(** [while (curr != NULL) { next = curr->next; free(curr); curr = next; }] *)
Definition free_nodes (fuel : nat) (curr : loc) : M loc :=
  while_ fuel
    (fun curr => ret (negb (curr =? NULL)))
    (fun curr =>
       n <- load_node curr ;;
       let next := next n in
       free_node curr ;;
       ret next)
    curr.

(** [blocking_q_destroy] *)
Definition blocking_q_destroy (fuel : nat) (q : loc) : M unit :=
  curr <- read_first q ;;
  free_nodes fuel curr ;;
  pthread_mutex_destroy q ;;
  pthread_cond_destroy q ;;
  ret tt.

(** [processor_destroy] *)
Definition processor_destroy : M unit :=
  printf "TODO".

(** [processor_run] *)
Definition processor_run : M loc :=
  printf "TODO" ;;
  ret NULL.

End Teardown.
Export Teardown.

(** ** Feeding the scheduler queue *)

Module Feeding.

(** [sleep] lets time pass; time is not part of the store. *)
Definition sleep (seconds : Z) : M unit := ret tt.

(** The value of a character.  A byte above 127 is a negative [char] on
    most targets; either way it matches no [case] of the loop below. *)
Definition char_code (c : Ascii.ascii) : Z :=
  Z.of_nat (Ascii.nat_of_ascii c).

(** The characters of a C string: those [strlen] counts, before the first
    NUL. *)
Fixpoint c_chars (s : string) : list Z :=
  match s with
  | EmptyString => []
  | String c s' =>
      if char_code c =? 0 then [] else char_code c :: c_chars s'
  end.

(** [case 'A': case 'B': case 'C': case 'D':] and [case '0': ... case '9':] *)
Definition is_task_letter (c : Z) : bool := (65 <=? c) && (c <=? 68).
Definition is_digit (c : Z) : bool := (48 <=? c) && (c <=? 57).

Definition set_start (z : Z) (r : task) : task := Task (type r) z (end_ r).
Definition set_end (z : Z) (r : task) : task := Task (type r) (start r) z.

(** The body of the loop over the characters of [argv[1]]. *)
Definition feed_char (fuel : nat) (t : tid) (sched_q : loc) (task_type : Z)
    : M unit :=
  if is_task_letter task_type then
    tk <- malloc_task ;;
    store_task tk (set_type task_type) ;;
    store_task tk (set_end 0) ;;
    store_task tk (set_start 0) ;;
    blocking_q_put fuel t sched_q tk ;;
    ret tt
  else if is_digit task_type then sleep (task_type - 48)
  else ret tt.

Fixpoint feed (fuel : nat) (t : tid) (sched_q : loc) (chars : list Z)
    : M unit :=
  match chars with
  | [] => ret tt
  | c :: chars' => feed_char fuel t sched_q c ;; feed fuel t sched_q chars'
  end.

(** [main] from the feeding loop to the put of the sentinel, the last
    statement before it waits for the scheduler thread.  The result is the
    local variable [poison_pill_task]. *)
Definition main_feed (fuel : nat) (t : tid) (sched_q : loc) (arg : string)
    : M loc :=
  feed fuel t sched_q (c_chars arg) ;;
  poison_pill_task <- malloc_task ;;
  store_task poison_pill_task (set_type POISON_PILL) ;;
  blocking_q_put fuel t sched_q poison_pill_task ;;
  ret poison_pill_task.

End Feeding.
Export Feeding.

(** * What the properties are stated with *)

(** ** Outcomes of a run *)

(** The memory of an outcome, when the run reached a state. *)
Definition mem_of {A} (o : outcome A) : option mem :=
  match o with
  | Done _ m | Fault _ m | Blocked _ m => Some m
  | Diverge => None
  end.

(** A property of the store a run stops in, whether it returned or its
    thread is suspended. *)
Definition after {A} (o : outcome A) (P : mem → Prop) : Prop :=
  match o with
  | Done _ m | Blocked _ m => P m
  | Fault _ _ | Diverge => True
  end.

(** A property of the store a run stops in: where it returned, where it is
    suspended, and where it ran into undefined behaviour. *)
Definition wherever {A} (o : outcome A) (P : mem → Prop) : Prop :=
  match o with
  | Done _ m | Fault _ m | Blocked _ m => P m
  | Diverge => True
  end.

(** What a run returned, the fault it ran into, what it is suspended on. *)
Definition returned {A} (o : outcome A) : option A :=
  match o with Done a _ => Some a | _ => None end.

Definition faulted {A} (o : outcome A) : option fault :=
  match o with Fault f _ => Some f | _ => None end.

Definition blocked {A} (o : outcome A) : option waiting :=
  match o with Blocked w _ => Some w | _ => None end.

(** The queue object at [q], the buffer at [b] and the log in the store
    where the run stopped. *)
Definition queue_of {A} (q : loc) (o : outcome A) : option blocking_q :=
  match mem_of o with Some m => qs m !! q | None => None end.

Definition buffer_of {A} (b : loc) (o : outcome A) : option (list loc) :=
  match mem_of o with Some m => bufs m !! b | None => None end.

Definition log_of {A} (o : outcome A) : list event :=
  match mem_of o with Some m => log m | None => [] end.

(** ** Allocation *)

(** The next [malloc] succeeds. *)
Definition can_alloc (m : mem) : Prop :=
  (0 < avail m)%nat ∧ 0 < brk m < ADDR_MAX.

(** The allocator after one allocation. *)
Definition bump (m : mem) : mem :=
  MemOf (qs m) (nodes m) (recs m) (bufs m) (brk m + 1) (Nat.pred (avail m))
    (log m) (junk m).

(** ** The linked list behind a queue *)

(** [chain h p cs]: following [next] from [p] in the node heap [h] visits
    the cells [cs], each an address with the task handle stored there, and
    ends at [NULL]. *)
Fixpoint chain (h : gmap Z blocking_q_node) (p : loc) (cs : list (loc * loc))
    : Prop :=
  match cs with
  | [] => p = NULL
  | c :: cs' =>
      p = c.1 ∧ c.1 ≠ NULL ∧
      ∃ nx, h !! c.1 = Some (Node c.2 nx) ∧ chain h nx cs'
  end.

(** [is_queue m q cs]: the queue at [q] holds exactly the cells [cs], and
    its count is their number. *)
Definition is_queue (m : mem) (q : loc) (cs : list (loc * loc)) : Prop :=
  q ≠ NULL ∧
  ∃ v, qs m !! q = Some v ∧ chain (nodes m) (first v) cs ∧
       sz v = Z.of_nat (length cs).

(** Every node lives at an address the allocator has handed out. *)
Definition heap_ok (m : mem) : Prop :=
  0 < brk m ≤ ADDR_MAX ∧ ∀ l n, nodes m !! l = Some n → 0 < l < brk m.

(** The count of the queue at [q] is the number of cells reachable from its
    head pointer. *)
Definition size_inv (q : loc) (m : mem) : Prop :=
  heap_ok m ∧ ∃ cs, is_queue m q cs.

(** Code that keeps the invariant of [q] wherever it stops: where it
    returns, where it suspends, and also where it runs into undefined
    behaviour. *)
Definition preserves {A} (q : loc) (c : M A) : Prop :=
  ∀ m, size_inv q m → wherever (c m) (size_inv q).

(** The store a successful [__blocking_q_take] leaves: the head pointer
    moves to [nx], the count drops by one. *)
Definition take_mem (t : tid) (q : loc) (v : blocking_q) (nx : loc) (m : mem)
    : mem :=
  MemOf (<[q := Queue (wrap (sz v - 1)) nx (lock v) (cond v)]> (qs m))
    (nodes m) (recs m) (bufs m) (brk m) (avail m)
    (log m ++ [EvLink t q (holds t (lock v)); EvSz t q (holds t (lock v));
               EvSz t q (holds t (lock v))])
    (junk m).

(** The store a successful [blocking_q_put] leaves: a new node at the
    allocator's next address, linked behind the last cell [c]. *)
Definition put_mem (t : tid) (q : loc) (data : loc) (v : blocking_q)
    (c : loc * loc) (m : mem) : mem :=
  MemOf (<[q := Queue (wrap (sz v + 1)) (first v) (lock v) (cond v)]> (qs m))
    (<[c.1 := Node c.2 (brk m)]> (<[brk m := Node data NULL]> (nodes m)))
    (recs m) (bufs m) (brk m + 1) (Nat.pred (avail m))
    (log m ++ [EvLink t q (holds t (lock v)); EvSz t q (holds t (lock v));
               EvSz t q (holds t (lock v)); EvSz t q (holds t (lock v))])
    (junk m).

(** The first [n] handles found by following [next] from [p]. *)
Fixpoint handles (n : nat) (h : gmap Z blocking_q_node) (p : loc) : list loc :=
  match n with
  | O => []
  | S n' =>
      if p =? NULL then []
      else
        match h !! p with
        | Some c => data c :: handles n' h (next c)
        | None => []
        end
  end.

(** The handles of the queue at [q], oldest first, as many as its count
    says. *)
Definition contents (m : mem) (q : loc) : list loc :=
  match qs m !! q with
  | Some v => handles (Z.to_nat (sz v)) (nodes m) (first v)
  | None => []
  end.

(** ** Several queues side by side *)

(** [same_but q m m']: from [m] to [m'] only the queue object at [q] and
    the log may have changed. *)
Definition same_but (q : loc) (m m' : mem) : Prop :=
  nodes m' = nodes m ∧ recs m' = recs m ∧ brk m' = brk m ∧
  avail m' = avail m ∧ ∀ q', q' ≠ q → qs m' !! q' = qs m !! q'.

(** The node addresses used by a family of queues, each given as its
    address and its cells. *)
Definition footprint (Q : list (loc * list (loc * loc))) : list loc :=
  Q ≫= (λ x, x.2.*1).

(** The queues of [Q] are all well formed in [m], at distinct addresses,
    and share no node. *)
Definition queues_ok (m : mem) (Q : list (loc * list (loc * loc))) : Prop :=
  Forall (λ x, is_queue m x.1 x.2) Q ∧ NoDup Q.*1 ∧ NoDup (footprint Q).

(** The family [todo] once the handle [poison] has been appended to each of
    its queues, in nodes allocated from address [b] on. *)
Fixpoint sent (b : Z) (poison : loc) (todo : list (loc * list (loc * loc)))
    : list (loc * list (loc * loc)) :=
  match todo with
  | [] => []
  | x :: todo' => (x.1, x.2 ++ [(b, poison)]) :: sent (b + 1) poison todo'
  end.

(** The cell holds the handle of a live task whose kind satisfies [K]. *)
Definition live_task (m : mem) (K : Z → Prop) (c : loc * loc) : Prop :=
  c.2 ≠ NULL ∧ ∃ r, recs m !! c.2 = Some r ∧ K (type r).

(** What the broadcast needs: the scheduler queue holds ordinary tasks
    [pre], then a sentinel [k], then [post]; each processor has its own
    queue, which is not empty; there is memory for one record and one node
    per processor; the fuel covers the loops. *)
Record sched_ready (fuel : nat) (m : mem) (d : sched_data)
    (pre : list (loc * loc)) (k : loc * loc) (post : list (loc * loc))
    (Q : list (loc * list (loc * loc))) : Prop := SchedReady
  { ready_heap : heap_ok m;
    ready_memory :
      (PROCESSOR_COUNT < avail m)%nat ∧
      brk m + Z.of_nat PROCESSOR_COUNT < ADDR_MAX;
    ready_processors :
      tasks <$> processors d = Q.*1 ∧ length Q = PROCESSOR_COUNT;
    ready_queues : queues_ok m ((sched_q d, pre ++ k :: post) :: Q);
    ready_tasks : Forall (live_task m (λ ty, ty ≠ POISON_PILL)) pre;
    ready_sentinel : live_task m (λ ty, ty = POISON_PILL) k;
    ready_lock :
      post ≠ [] ∨ ∃ v, qs m !! sched_q d = Some v ∧ lock v = MFree;
    ready_nonempty : Forall (λ x, x.2 ≠ [] ∧ (length x.2 ≤ fuel)%nat) Q;
    ready_fuel : (length pre + 2 ≤ fuel)%nat }.

(** ** Sequences of calls *)

(** The scenario of the FIFO property: one thread creates a queue, puts
    [a], [b], [c] and gets three times. *)
Definition fifo_scenario (fuel : nat) (e : env) (t : tid) (q : loc)
    (a b c : loc) : M (loc * loc * loc) :=
  blocking_q_init e t q ;;
  blocking_q_put fuel t q a ;;
  blocking_q_put fuel t q b ;;
  blocking_q_put fuel t q c ;;
  x <- blocking_q_get fuel t q ;;
  y <- blocking_q_get fuel t q ;;
  z <- blocking_q_get fuel t q ;;
  ret (x, y, z).

(** A call of one of the four operations, by thread [t]. *)
Inductive call :=
| CallPut (t : tid) (data : loc)
| CallGet (t : tid)
| CallDrain (t : tid) (buf : loc) (n : Z)
| CallDrainAtLeast (t : tid) (buf : loc) (n : Z) (min : Z).

Definition run_call (fuel : nat) (q : loc) (c : call) : M unit :=
  match c with
  | CallPut t d => blocking_q_put fuel t q d ;; ret tt
  | CallGet t => blocking_q_get fuel t q ;; ret tt
  | CallDrain t buf n => blocking_q_drain fuel t q buf n ;; ret tt
  | CallDrainAtLeast t buf n min =>
      blocking_q_drain_at_least fuel t q buf n min ;; ret tt
  end.

Fixpoint run_calls (fuel : nat) (q : loc) (cs : list call) : M unit :=
  match cs with
  | [] => ret tt
  | c :: cs' => run_call fuel q c ;; run_calls fuel q cs'
  end.

(** ** Lock discipline and start-up *)

(** Every logged access to a count or to the linkage was made with the lock
    held by the accessing thread. *)
Definition lock_discipline (evs : list event) : bool :=
  forallb
    (fun ev =>
       match ev with
       | EvSz _ _ held | EvLink _ _ held => held
       | _ => true
       end)
    evs.

Definition is_create (ev : event) : bool :=
  match ev with EvCreate _ => true | _ => false end.

(** The number of threads a run has created. *)
Definition threads_created (evs : list event) : nat :=
  length (List.filter is_create evs).

(** The ways the start of the program can fail: the queue cannot be
    allocated or initialised, the scheduler thread cannot be created, or,
    after [i] processors were started, processor [i] cannot be initialised
    or its thread cannot be created. *)
Inductive startup_failure (q_init : env → tid → loc → M bool)
    (p_init : nat → M bool) (e : env) (t : tid) (m : mem) : Prop :=
| queue_alloc_fails m1 :
    malloc_q m = Done NULL m1 →
    startup_failure q_init p_init e t m
| queue_init_fails q m1 m2 :
    malloc_q m = Done q m1 → q ≠ NULL →
    q_init e t q m1 = Done false m2 →
    startup_failure q_init p_init e t m
| scheduler_thread_fails q m1 m2 :
    malloc_q m = Done q m1 → q ≠ NULL →
    q_init e t q m1 = Done true m2 →
    create_ret e 0 ≠ 0 →
    startup_failure q_init p_init e t m
| processor_fails q m1 m2 i m3 m4 :
    malloc_q m = Done q m1 → q ≠ NULL →
    q_init e t q m1 = Done true m2 →
    create_ret e 0 = 0 →
    (i < PROCESSOR_COUNT)%nat →
    for_ (seq 0 i) (start_processor p_init e) (emit (EvCreate 0) m2)
      = Done None m3 →
    p_init i m3 = Done false m4 ∨
    (p_init i m3 = Done true m4 ∧ create_ret e (S i) ≠ 0) →
    startup_failure q_init p_init e t m.

(** ** Concrete stores *)

(** Memory that was never written holds zeros in the stores below. *)
Definition zeros : loc → nat → Z := fun _ _ => 0.

(** Every system call succeeds. *)
Definition env_ok : env := Env 0 0 (fun _ => 0).

(** The third processor thread cannot be created. *)
Definition env_third_fails : env :=
  Env 0 0 (fun k => if Nat.eqb k 3 then 11 else 0).

(** One queue object at address 1, allocated and not yet initialised. *)
Definition fresh_mem : mem :=
  MemOf {[ 1 := Queue 0 NULL MUninit CUninit ]} ∅ ∅ ∅ 2 16%nat [] zeros.

(** The same store once thread 0 has run [blocking_q_init] on the queue. *)
Definition initialised_mem : mem :=
  MemOf {[ 1 := Queue 0 NULL (MHeld 0%nat) CReady ]} ∅ ∅ ∅ 2 16%nat
    [EvSz 0%nat 1 false; EvLink 0%nat 1 false] zeros.

(** A queue at address 1 that holds the handles 50, 60, 70 in the nodes at
    2, 3, 4, with its lock in state [l], and a caller's buffer of [slots]
    entries at address 5. *)
Definition three_mem (l : mutex) (slots : nat) : mem :=
  MemOf {[ 1 := Queue 3 2 l CReady ]}
    {[ 2 := Node 50 3; 3 := Node 60 4; 4 := Node 70 NULL ]}
    ∅ {[ 5 := replicate slots NULL ]} 6 16%nat [] zeros.

(** The scheduler queue at 1 holds an ordinary task and the sentinel; the
    four processors have the queues at 2, 3, 4, 5, each with one task. *)
Definition sched_mem : mem :=
  MemOf
    {[ 1 := Queue 2 10 MFree CReady; 2 := Queue 1 12 MFree CReady;
       3 := Queue 1 13 MFree CReady; 4 := Queue 1 14 MFree CReady;
       5 := Queue 1 15 MFree CReady ]}
    {[ 10 := Node 30 11; 11 := Node 31 NULL; 12 := Node 32 NULL;
       13 := Node 33 NULL; 14 := Node 34 NULL; 15 := Node 35 NULL ]}
    {[ 30 := Task 65 0 0; 31 := Task POISON_PILL 0 0; 32 := Task 66 0 0;
       33 := Task 66 0 0; 34 := Task 66 0 0; 35 := Task 66 0 0 ]}
    ∅ 40 16%nat [] zeros.

(** The same scheduler queue, with the queues of the four processors as
    [blocking_q_init] leaves a queue: empty, the lock held by the thread
    that initialised them. *)
Definition idle_mem : mem :=
  MemOf
    {[ 1 := Queue 2 10 MFree CReady;
       2 := Queue 0 NULL (MHeld 0%nat) CReady;
       3 := Queue 0 NULL (MHeld 0%nat) CReady;
       4 := Queue 0 NULL (MHeld 0%nat) CReady;
       5 := Queue 0 NULL (MHeld 0%nat) CReady ]}
    {[ 10 := Node 30 11; 11 := Node 31 NULL ]}
    {[ 30 := Task 65 0 0; 31 := Task POISON_PILL 0 0 ]}
    ∅ 40 16%nat [] zeros.

(** The scheduler's argument for these stores. *)
Definition sched_dat : sched_data :=
  SchedData 1
    [Processor 2 0 0 0; Processor 3 0 0 0; Processor 4 0 0 0;
     Processor 5 0 0 0].

(** ** Properties of every stop of a run *)


(** Code that keeps [I] wherever it stops. *)
Definition keeps {A} (I : mem → Prop) (c : M A) : Prop :=
  ∀ m, I m → wherever (c m) I.

(** The ways the code changes the store, as conditions on a property [I]:
    an event is logged, an allocation is made, a node is written, a buffer
    is written, a queue object is replaced by one related by [R]. *)
Definition on_emit (I : mem → Prop) : Prop :=
  ∀ e m, I m → I (emit e m).

Definition on_bump (I : mem → Prop) : Prop :=
  ∀ m, I m → I (bump m).

Definition on_node_write (I : mem → Prop) : Prop :=
  ∀ p n m, I m → I (set_nodes <[p := n]> m).

Definition on_buf_write (p : loc) (I : mem → Prop) : Prop :=
  ∀ b m, I m → I (set_bufs <[p := b]> m).

Definition on_queue_write (R : blocking_q → blocking_q → Prop)
    (I : mem → Prop) : Prop :=
  ∀ q v v' m, qs m !! q = Some v → R v v' → I m → I (set_qs <[q := v']> m).

(** Only the count and the head pointer differ. *)
Definition same_primitives (v v' : blocking_q) : Prop :=
  lock v' = lock v ∧ cond v' = cond v.

(** Any change of the queue object. *)
Definition any_change (v v' : blocking_q) : Prop := True.

(** ** Successive calls *)

(** [n] calls of [blocking_q_get], with the handles they return. *)
Fixpoint get_n (fuel : nat) (t : tid) (q : loc) (n : nat) : M (list loc) :=
  match n with
  | O => ret []
  | S n' =>
      x <- blocking_q_get fuel t q ;;
      xs <- get_n fuel t q n' ;;
      ret (x :: xs)
  end.

(** One call of [blocking_q_put] for each handle of [xs], in order; the
    result tells whether all of them returned [true]. *)
Fixpoint put_list (fuel : nat) (t : tid) (q : loc) (xs : list loc) : M bool :=
  match xs with
  | [] => ret true
  | x :: xs' =>
      ok <- blocking_q_put fuel t q x ;;
      oks <- put_list fuel t q xs' ;;
      ret (ok && oks)
  end.

(** [same_but_buf q data m m']: from [m] to [m'] only the count and head
    pointer of the queue at [q], the buffer at [data] and the log may have
    changed. *)
Definition same_but_buf (q data : loc) (m m' : mem) : Prop :=
  same_but q m m' ∧
  (∀ b, b ≠ data → bufs m' !! b = bufs m !! b) ∧
  (∀ v, qs m !! q = Some v →
        ∃ v', qs m' !! q = Some v' ∧ same_primitives v v').

(** The task letters of an argument string, in order. *)
Definition task_letters (arg : string) : list Z :=
  List.filter is_task_letter (c_chars arg).

(** The log of a run of [main] that started everything: the scheduler
    thread, then for each processor the output of [processor_init] and the
    processor's thread. *)
Definition startup_log : list event :=
  [EvCreate 0; EvPrintf "TODO"; EvCreate 1; EvPrintf "TODO"; EvCreate 2;
   EvPrintf "TODO"; EvCreate 3; EvPrintf "TODO"; EvCreate 4].

(** * Properties *)

Arguments wrap : simpl never.
Arguments ADDR_MAX : simpl never.
Arguments INT_MAX : simpl never.
Arguments last_node : simpl never.

(** ** Running code symbolically *)

Lemma load_Some {A} (h : mem → gmap Z A) p m a :
  p ≠ NULL → h m !! p = Some a → load h p m = Done a m.
Proof.
  intros Hp Hl. unfold load. destruct (Z.eqb_spec p NULL) as [|_]; [done|].
  unfold bind, gets. by rewrite Hl.
Qed.

Lemma bind_Done_inv {A B} (c : M A) (k : A → M B) m b m' :
  bind c k m = Done b m' → ∃ a m1, c m = Done a m1 ∧ k a m1 = Done b m'.
Proof. unfold bind. destruct (c m); try discriminate. eauto. Qed.

Ltac find_lookup :=
  cbn;
  first [ eassumption
        | apply lookup_insert_eq
        | rewrite lookup_insert_ne by (first [assumption | congruence | lia]);
          find_lookup ].

Ltac run_load :=
  match goal with
  | |- context [load ?h ?p ?m] =>
      let H := fresh "Hload" in
      eassert (H : load h p m = Done _ m)
        by (apply load_Some;
            [ first [assumption | congruence | lia] | find_lookup ]);
      rewrite H; clear H; cbn
  end.

Ltac run_open :=
  cbv beta delta
    [load_q load_node load_task store_q store_node store_task store_buf
     read_sz write_sz read_first write_first write_next
     pthread_mutex_init pthread_cond_init pthread_mutex_lock
     pthread_cond_wait pthread_cond_signal pthread_create printf
     bind ret modify gets crash suspend];
  cbn.

Ltac mem_norm :=
  cbv beta delta
    [set_qs set_nodes set_recs set_bufs emit set_lock set_cond set_sz
     set_first set_data set_next];
  cbn.

(** ** [blocking_q_init] *)

Lemma initialised_mem_is_init :
  blocking_q_init env_ok 0%nat 1 fresh_mem = Done false initialised_mem.
Proof. vm_compute. reflexivity. Qed.

Lemma write_sz_eq t q z m v :
  q ≠ NULL → qs m !! q = Some v →
  write_sz t q z m =
    Done tt (set_qs <[q := set_sz z v]> (emit (EvSz t q (holds t (lock v))) m)).
Proof. intros Hq Hv. unfold write_sz. run_open. by repeat run_load. Qed.

Lemma write_first_eq t q p m v :
  q ≠ NULL → qs m !! q = Some v →
  write_first t q p m =
    Done tt
      (set_qs <[q := set_first p v]> (emit (EvLink t q (holds t (lock v))) m)).
Proof. intros Hq Hv. unfold write_first. run_open. by repeat run_load. Qed.

Lemma pthread_mutex_init_eq e q m v :
  q ≠ NULL → qs m !! q = Some v →
  pthread_mutex_init e q m =
    Done (mutex_init_ret e)
      (if mutex_init_ret e =? 0 then set_qs <[q := set_lock MFree v]> m
       else m).
Proof.
  intros Hq Hv. unfold pthread_mutex_init.
  destruct (Z.eqb_spec (mutex_init_ret e) 0) as [->|_];
    run_open; by repeat run_load.
Qed.

Lemma pthread_cond_init_eq e q m v :
  q ≠ NULL → qs m !! q = Some v →
  pthread_cond_init e q m =
    Done (cond_init_ret e)
      (if cond_init_ret e =? 0 then set_qs <[q := set_cond CReady v]> m
       else m).
Proof.
  intros Hq Hv. unfold pthread_cond_init.
  destruct (Z.eqb_spec (cond_init_ret e) 0) as [->|_];
    run_open; by repeat run_load.
Qed.

Lemma pthread_mutex_lock_eq t q m v :
  q ≠ NULL → qs m !! q = Some v →
  pthread_mutex_lock t q m =
    match lock v with
    | MUninit => Fault BadMutex m
    | MFree => Done 0 (set_qs <[q := set_lock (MHeld t) v]> m)
    | MHeld _ => Blocked (OnMutex q) m
    end.
Proof.
  intros Hq Hv. unfold pthread_mutex_lock. run_open. run_load.
  destruct (lock v); cbn; try reflexivity. by run_load.
Qed.

Lemma blocking_q_init_outcome e t q m v :
  q ≠ NULL → qs m !! q = Some v →
  let held := holds t (lock v) in
  let evs :=
    [EvSz t q held; EvLink t q held] ++
    (if mutex_init_ret e =? 0 then [] else [EvPrintf "ERROR"]) ++
    (if cond_init_ret e =? 0 then [] else [EvPrintf "ERROR"]) in
  let l := if mutex_init_ret e =? 0 then MFree else lock v in
  let c := if cond_init_ret e =? 0 then CReady else cond v in
  let m1 l' :=
    MemOf (<[q := Queue 0 NULL l' c]> (qs m)) (nodes m) (recs m) (bufs m)
      (brk m) (avail m) (log m ++ evs) (junk m) in
  blocking_q_init e t q m =
    match l with
    | MFree => Done false (m1 (MHeld t))
    | MHeld o => Blocked (OnMutex q) (m1 (MHeld o))
    | MUninit => Fault BadMutex (m1 MUninit)
    end.
Proof.
  intros Hq Hv. destruct v as [s f l c]. cbn [lock cond].
  unfold blocking_q_init.
  unfold bind at 1. erewrite write_sz_eq by done.
  unfold bind at 1. erewrite write_first_eq by find_lookup.
  unfold bind at 1. erewrite pthread_mutex_init_eq by find_lookup.
  mem_norm. rewrite insert_insert_eq.
  destruct (Z.eqb_spec (mutex_init_ret e) 0) as [Em|Em].
  - unfold bind at 1, ret at 1. cbn [negb].
    unfold bind at 1. erewrite pthread_cond_init_eq by find_lookup.
    mem_norm. rewrite !insert_insert_eq.
    destruct (Z.eqb_spec (cond_init_ret e) 0) as [Ec|Ec].
    + unfold bind at 1, ret at 1. cbn [negb].
      unfold bind at 1. erewrite pthread_mutex_lock_eq by find_lookup.
      mem_norm. rewrite !insert_insert_eq, <- !app_assoc. reflexivity.
    + unfold bind at 1, printf, modify. cbn [negb].
      unfold bind at 1. erewrite pthread_mutex_lock_eq by find_lookup.
      mem_norm. rewrite ?insert_insert_eq, <- !app_assoc. reflexivity.
  - unfold bind at 1, printf, modify. cbn [negb].
    unfold bind at 1. erewrite pthread_cond_init_eq by find_lookup.
    mem_norm. rewrite ?insert_insert_eq.
    destruct (Z.eqb_spec (cond_init_ret e) 0) as [Ec|Ec].
    + unfold bind at 1, ret at 1. cbn [negb].
      unfold bind at 1. erewrite pthread_mutex_lock_eq by find_lookup.
      mem_norm. rewrite ?insert_insert_eq, <- !app_assoc.
      by destruct l.
    + unfold bind at 1, modify. cbn [negb].
      unfold bind at 1. erewrite pthread_mutex_lock_eq by find_lookup.
      mem_norm. rewrite ?insert_insert_eq, <- !app_assoc.
      by destruct l.
Qed.

Lemma blocking_q_init_created e t q m v :
  q ≠ NULL → qs m !! q = Some v →
  mutex_init_ret e = 0 → cond_init_ret e = 0 →
  blocking_q_init e t q m =
    Done false
      (MemOf (<[q := Queue 0 NULL (MHeld t) CReady]> (qs m)) (nodes m) (recs m)
         (bufs m) (brk m) (avail m)
         (log m ++ [EvSz t q (holds t (lock v)); EvLink t q (holds t (lock v))])
         (junk m)).
Proof.
  intros Hq Hv Hm Hc.
  rewrite (blocking_q_init_outcome e t q m v Hq Hv). cbv zeta.
  rewrite Hm, Hc. cbn [Z.eqb]. by rewrite !app_nil_r.
Qed.

Lemma blocking_q_init_never_true e t q m m' :
  blocking_q_init e t q m ≠ Done true m'.
Proof.
  unfold blocking_q_init. intros H.
  repeat (apply bind_Done_inv in H as (? & ? & _ & H)).
  discriminate H.
Qed.

(** C7, as the code has it: when the mutex and the condition variable are
    created, [blocking_q_init] leaves the queue empty with count zero and
    its lock taken, and returns [false], the error indication. *)
Theorem blocking_q_init_reports_failure e t q m v :
  q ≠ NULL → qs m !! q = Some v →
  mutex_init_ret e = 0 → cond_init_ret e = 0 →
  ∃ m', blocking_q_init e t q m = Done false m' ∧
        qs m' !! q = Some (Queue 0 NULL (MHeld t) CReady).
Proof.
  intros Hq Hv Hm Hc. eexists. split.
  - by apply (blocking_q_init_created e t q m v).
  - cbn. apply lookup_insert_eq.
Qed.

Lemma blocking_q_init_reports_failure_witness :
  ∃ m', blocking_q_init env_ok 0%nat 1 fresh_mem = Done false m' ∧
        qs m' !! 1 = Some (Queue 0 NULL (MHeld 0%nat) CReady).
Proof.
  apply (blocking_q_init_reports_failure env_ok 0%nat 1 fresh_mem
           (Queue 0 NULL MUninit CUninit)).
  - discriminate.
  - vm_compute. reflexivity.
  - reflexivity.
  - reflexivity.
Defined.

(** ** Allocation *)

Lemma malloc_ok m : can_alloc m → malloc m = Done (brk m) (bump m).
Proof.
  intros [Ha [H0 Hb]]. unfold malloc.
  destruct (Nat.ltb_spec 0 (avail m)); [|lia].
  destruct (Z.ltb_spec (brk m) ADDR_MAX); [|lia]. reflexivity.
Qed.

Lemma malloc_fail m : ¬ can_alloc m → 0 < brk m → malloc m = Done NULL m.
Proof.
  intros Hn H0. unfold malloc, can_alloc in *.
  destruct (Nat.ltb_spec 0 (avail m)); [|reflexivity].
  destruct (Z.ltb_spec (brk m) ADDR_MAX); [|reflexivity].
  exfalso. apply Hn. lia.
Qed.

Lemma malloc_node_ok m :
  can_alloc m →
  malloc_node m =
    Done (brk m) (set_nodes <[brk m := fresh_node m (brk m)]> (bump m)).
Proof.
  intros Hc. unfold malloc_node, bind. rewrite (malloc_ok m Hc).
  destruct (Z.eqb_spec (brk m) NULL) as [E|_]; [|reflexivity].
  destruct Hc as [_ [H0 _]]. unfold NULL in E. lia.
Qed.

Lemma malloc_node_fail m :
  ¬ can_alloc m → 0 < brk m → malloc_node m = Done NULL m.
Proof.
  intros Hn H0. unfold malloc_node, bind. by rewrite (malloc_fail m Hn H0).
Qed.

Lemma malloc_task_ok m :
  can_alloc m →
  malloc_task m =
    Done (brk m) (set_recs <[brk m := fresh_task m (brk m)]> (bump m)).
Proof.
  intros Hc. unfold malloc_task, bind. rewrite (malloc_ok m Hc).
  destruct (Z.eqb_spec (brk m) NULL) as [E|_]; [|reflexivity].
  destruct Hc as [_ [H0 _]]. unfold NULL in E. lia.
Qed.

(** ** [blocking_q_put] on an empty queue *)

Lemma put_empty_faults fuel t q data m v :
  q ≠ NULL → qs m !! q = Some v → first v = NULL → can_alloc m →
  blocking_q_put (S fuel) t q data m =
    Fault NullDeref (set_nodes <[brk m := Node data NULL]> (bump m)).
Proof.
  intros Hq Hv Hf Hc.
  assert (brk m ≠ NULL) by (destruct Hc as [_ [? _]]; unfold NULL; lia).
  unfold blocking_q_put. unfold bind at 1. rewrite (malloc_node_ok m Hc).
  destruct (Z.eqb_spec (brk m) NULL) as [|_]; [done|].
  unfold last_node. run_open. repeat run_load. rewrite Hf. cbn. mem_norm.
  rewrite !insert_insert_eq. reflexivity.
Qed.

(** C1, as the code has it: on a queue whose head pointer is [NULL], the
    empty queue, [blocking_q_put] reads [curr->next] through that null
    pointer; nothing is appended and the count is not incremented. *)
Theorem blocking_q_put_on_empty_queue fuel t q data m v :
  q ≠ NULL → qs m !! q = Some v → first v = NULL → can_alloc m →
  ∃ m', blocking_q_put (S fuel) t q data m = Fault NullDeref m' ∧
        qs m' !! q = Some v.
Proof.
  intros Hq Hv Hf Hc. eexists. split.
  - by apply (put_empty_faults fuel t q data m v).
  - exact Hv.
Qed.

Lemma blocking_q_put_on_empty_queue_witness :
  ∃ m', blocking_q_put 1 0%nat 1 7 initialised_mem = Fault NullDeref m' ∧
        qs m' !! 1 = Some (Queue 0 NULL (MHeld 0%nat) CReady).
Proof.
  apply (blocking_q_put_on_empty_queue 0 0%nat 1 7 initialised_mem).
  - discriminate.
  - vm_compute. reflexivity.
  - reflexivity.
  - unfold can_alloc. vm_compute. repeat split; lia.
Defined.

(** C3, as the code has it: on a queue that was just created, the first
    [put] of the sequence dereferences the null head pointer, so no [get]
    returns [a], [b] or [c]. *)
Theorem fifo_scenario_faults_at_first_put fuel e t q a b c m v :
  q ≠ NULL → qs m !! q = Some v →
  mutex_init_ret e = 0 → cond_init_ret e = 0 → can_alloc m →
  ∃ m', fifo_scenario (S fuel) e t q a b c m = Fault NullDeref m' ∧
        qs m' !! q = Some (Queue 0 NULL (MHeld t) CReady).
Proof.
  intros Hq Hv Hm Hc Ha. unfold fifo_scenario.
  unfold bind at 1. rewrite (blocking_q_init_created e t q m v Hq Hv Hm Hc).
  unfold bind at 1.
  erewrite (put_empty_faults fuel t q a _ (Queue 0 NULL (MHeld t) CReady));
    [ | done | cbn; apply lookup_insert_eq | reflexivity | exact Ha ].
  eexists. split; [reflexivity|]. cbn. apply lookup_insert_eq.
Qed.

Lemma fifo_scenario_faults_at_first_put_witness :
  ∃ m', fifo_scenario 4 env_ok 0%nat 1 10 20 30 fresh_mem = Fault NullDeref m' ∧
        qs m' !! 1 = Some (Queue 0 NULL (MHeld 0%nat) CReady).
Proof.
  apply (fifo_scenario_faults_at_first_put 3 env_ok 0%nat 1 10 20 30 fresh_mem
           (Queue 0 NULL MUninit CUninit)).
  - discriminate.
  - vm_compute. reflexivity.
  - reflexivity.
  - reflexivity.
  - unfold can_alloc. vm_compute. repeat split; lia.
Defined.

(** ** The linked list behind a queue *)

Section Chains.

Context (h : gmap Z blocking_q_node).

Lemma chain_functional p cs1 cs2 : chain h p cs1 → chain h p cs2 → cs1 = cs2.
Proof.
  revert p cs2. induction cs1 as [|[l d] cs1 IH]; intros p [|[l2 d2] cs2]; simpl.
  - done.
  - intros -> (E & Hn & _). congruence.
  - intros (E & Hn & _) ->. congruence.
  - intros (-> & _ & nx & Hl & Hc) (E & _ & nx2 & Hl2 & Hc2). subst l2.
    rewrite Hl in Hl2. injection Hl2 as -> ->.
    f_equal. eapply IH; eauto.
Qed.

Lemma chain_suffix p a c b : chain h p (a ++ c :: b) → chain h c.1 (c :: b).
Proof.
  revert p. induction a as [|x a IH]; intros p; simpl.
  - intros (-> & Hn & Hx). repeat split; assumption.
  - intros (_ & _ & nx & _ & Hc). exact (IH nx Hc).
Qed.

Lemma chain_NoDup p cs : chain h p cs → NoDup cs.*1.
Proof.
  revert p. induction cs as [|[l d] cs IH]; intros p; simpl.
  - intros _. constructor.
  - intros (-> & Hn & nx & Hl & Hc). constructor; [|eauto].
    intros Hin. apply list_elem_of_fmap in Hin as ([l2 d2] & E & Hin).
    simpl in E. subst l2.
    apply list_elem_of_split in Hin as (a & b & ->).
    pose proof (chain_suffix _ _ _ _ Hc) as Hs.
    assert (Hall : chain h l ((l, d) :: a ++ (l, d2) :: b)).
    { simpl. eauto 6. }
    pose proof (chain_functional l ((l, d2) :: b) _ Hs Hall) as E.
    apply (f_equal length) in E. simpl in E. rewrite length_app in E.
    simpl in E. lia.
Qed.

Lemma chain_lookup p cs l : chain h p cs → l ∈ cs.*1 → is_Some (h !! l).
Proof.
  revert p. induction cs as [|[l2 d] cs IH]; intros p; simpl.
  - intros _ Hin. by apply elem_of_nil in Hin.
  - intros (-> & _ & nx & Hl & Hc) Hin.
    apply elem_of_cons in Hin as [->|Hin]; eauto.
Qed.

Lemma chain_frame (h' : gmap Z blocking_q_node) p cs :
  chain h p cs → (∀ l, l ∈ cs.*1 → h' !! l = h !! l) → chain h' p cs.
Proof.
  revert p. induction cs as [|[l d] cs IH]; intros p; simpl; [done|].
  intros (-> & Hn & nx & Hl & Hc) Hsame. repeat split; [done|].
  exists nx. split.
  - rewrite Hsame; [done | apply elem_of_cons; auto].
  - apply IH; [done|]. intros l2 Hin. apply Hsame, elem_of_cons. auto.
Qed.

Lemma chain_last p cs c : chain h p (cs ++ [c]) → h !! c.1 = Some (Node c.2 NULL).
Proof.
  intros Hc. apply chain_suffix in Hc. simpl in Hc.
  destruct Hc as (_ & _ & nx & Hl & ->). exact Hl.
Qed.

End Chains.

(** At most [n] distinct addresses lie in the range from 1 to [n]. *)
Lemma distinct_below (n : nat) (l : list Z) :
  NoDup l → (∀ x, x ∈ l → 0 < x ≤ Z.of_nat n) → (length l ≤ n)%nat.
Proof.
  revert l. induction n as [|n IH]; intros l Hnd Hb.
  - destruct l as [|x l]; [done|].
    specialize (Hb x). rewrite elem_of_cons in Hb. lia.
  - destruct (decide (Z.of_nat (S n) ∈ l)) as [Hin|Hout].
    + apply elem_of_Permutation in Hin as (l' & Hp).
      rewrite Hp in Hnd. apply NoDup_cons in Hnd as [Hni Hnd'].
      rewrite Hp. simpl. apply le_n_S. apply IH; [done|].
      intros x Hx. assert (x ≠ Z.of_nat (S n)) by (intros ->; done).
      assert (0 < x ≤ Z.of_nat (S n))
        by (apply Hb; rewrite Hp; apply elem_of_cons; auto).
      lia.
    + apply Nat.le_le_succ_r. apply IH; [done|].
      intros x Hx. assert (x ≠ Z.of_nat (S n)) by (intros ->; done).
      specialize (Hb x Hx). lia.
Qed.

Lemma chain_bound (h : gmap Z blocking_q_node) p cs B :
  chain h p cs → 0 < B → (∀ l n, h !! l = Some n → 0 < l < B) →
  Z.of_nat (length cs) < B.
Proof.
  intros Hc HB Hb.
  assert (Hd : (length cs.*1 ≤ Z.to_nat (B - 1))%nat).
  { apply distinct_below; [exact (chain_NoDup h p cs Hc)|].
    intros x Hx. destruct (chain_lookup h p cs x Hc Hx) as [n Hn].
    specialize (Hb x n Hn). lia. }
  rewrite length_fmap in Hd. lia.
Qed.

Lemma chain_snoc (h : gmap Z blocking_q_node) p cs c new x :
  chain h p (cs ++ [c]) → h !! new = None → new ≠ NULL →
  chain (<[c.1 := Node c.2 new]> (<[new := Node x NULL]> h)) p
    (cs ++ [c; (new, x)]).
Proof.
  intros Hc Hnew Hnn.
  assert (Hfresh : new ∉ (cs ++ [c]).*1).
  { intros Hin. destruct (chain_lookup h p _ new Hc Hin) as [n Hn]. congruence. }
  pose proof (chain_NoDup h p _ Hc) as Hnd.
  rewrite fmap_app in Hnd, Hfresh. simpl in Hnd, Hfresh.
  apply NoDup_app in Hnd as (_ & Hdisj & _).
  assert (Hlast : c.1 ∉ cs.*1).
  { intros Hin. apply (Hdisj _ Hin). apply list_elem_of_singleton. done. }
  assert (Hne : new ≠ c.1).
  { intros ->. apply Hfresh, elem_of_app. right. by apply list_elem_of_singleton. }
  assert (Hpre : new ∉ cs.*1).
  { intros Hin. apply Hfresh, elem_of_app. by left. }
  clear Hfresh Hdisj. revert p Hc Hlast Hpre.
  induction cs as [|y cs IH]; intros p Hc Hlast Hpre; simpl in *.
  - destruct Hc as (-> & Hn & nx & Hl & ->). repeat split; [done|].
    exists new. split; [apply lookup_insert_eq|].
    repeat split; [done|]. exists NULL. split; [|done].
    rewrite lookup_insert_ne by done. apply lookup_insert_eq.
  - destruct Hc as (-> & Hn & nx & Hl & Hc).
    apply not_elem_of_cons in Hlast as [Hy Hlast].
    apply not_elem_of_cons in Hpre as [Hy2 Hpre].
    repeat split; [done|]. exists nx. split.
    + rewrite !lookup_insert_ne by done. exact Hl.
    + apply IH; assumption.
Qed.

(** ** The loops of [blocking_q_put] and of the drains *)

Lemma chain_head_not_null (h : gmap Z blocking_q_node) p cs c :
  chain h p (cs ++ [c]) → p ≠ NULL.
Proof. destruct cs; simpl; intros (-> & Hn & _); exact Hn. Qed.

Lemma last_node_chain cs c fuel m p :
  chain (nodes m) p (cs ++ [c]) →
  ((length cs < fuel)%nat → last_node fuel p m = Done c.1 m) ∧
  ((fuel ≤ length cs)%nat → last_node fuel p m = Diverge).
Proof.
  revert fuel p. induction cs as [|y cs IH]; intros fuel p Hc.
  - simpl in Hc. destruct Hc as (-> & Hn & nx & Hl & ->).
    split; intros Hf; simpl in Hf.
    + destruct fuel as [|fuel]; [lia|].
      unfold last_node. simpl. run_open. run_load. reflexivity.
    + destruct fuel as [|fuel]; [reflexivity|lia].
  - simpl in Hc. destruct Hc as (-> & Hn & nx & Hl & Hc).
    pose proof (chain_head_not_null _ _ _ _ Hc) as Hnx.
    destruct fuel as [|fuel].
    { split; intros Hf; simpl in Hf; [lia|reflexivity]. }
    destruct (IH fuel nx Hc) as [IH1 IH2].
    assert (Hstep : last_node (S fuel) y.1 m = last_node fuel nx m).
    { unfold last_node. simpl. run_open. run_load.
      destruct (Z.eqb_spec nx NULL) as [|_]; [done|]. cbn.
      run_load. reflexivity. }
    rewrite Hstep. split; intros Hf; simpl in Hf; [apply IH1|apply IH2]; lia.
Qed.

Lemma take_step t q m v l d nx :
  q ≠ NULL → qs m !! q = Some v → first v = l → l ≠ NULL →
  nodes m !! l = Some (Node d nx) →
  __blocking_q_take t q m = Done d (take_mem t q v nx m).
Proof.
  intros Hq Hv Hf Hl Hn. unfold __blocking_q_take. run_open.
  run_load. rewrite Hf. repeat run_load. mem_norm. unfold take_mem.
  rewrite !insert_insert_eq, <- !app_assoc. reflexivity.
Qed.

Lemma put_step fuel t q data m v cs c :
  q ≠ NULL → qs m !! q = Some v → chain (nodes m) (first v) (cs ++ [c]) →
  can_alloc m → nodes m !! brk m = None → (length cs < fuel)%nat →
  wrap (sz v + 1) ≠ 1 →
  blocking_q_put fuel t q data m = Done true (put_mem t q data v c m).
Proof.
  intros Hq Hv Hc Ha Hfresh Hfuel Hw.
  assert (Hb : brk m ≠ NULL) by (destruct Ha as [_ [? _]]; unfold NULL; lia).
  pose proof (chain_last _ _ _ _ Hc) as Hlast.
  assert (Hne : brk m ≠ c.1).
  { intros E. rewrite E, Hlast in Hfresh. discriminate. }
  assert (Hcn : c.1 ≠ NULL).
  { apply chain_suffix in Hc. simpl in Hc. tauto. }
  unfold blocking_q_put. unfold bind at 1. rewrite (malloc_node_ok m Ha).
  destruct (Z.eqb_spec (brk m) NULL) as [|_]; [done|].
  run_open. repeat run_load. mem_norm. rewrite !insert_insert_eq.
  match goal with
  | |- context [last_node fuel (first v) ?m1] =>
      assert (Hwalk : last_node fuel (first v) m1 = Done c.1 m1)
  end.
  { apply last_node_chain with (cs := cs); [|exact Hfuel]. cbn.
    apply (chain_frame (nodes m)); [exact Hc|].
    intros l Hin. apply lookup_insert_ne. intros <-.
    destruct (chain_lookup _ _ _ _ Hc Hin) as [n Hn]. congruence. }
  rewrite Hwalk. cbn. repeat run_load.
  destruct (Z.eqb_spec (wrap (sz v + 1)) 1) as [|_]; [done|]. cbn. mem_norm.
  unfold put_mem. rewrite <- !app_assoc. reflexivity.
Qed.

Lemma wrap_small z : 0 ≤ z < SIZE_MOD → wrap z = z.
Proof. intros H. unfold wrap. by apply Z.mod_small. Qed.

Lemma heap_ok_fresh m : heap_ok m → nodes m !! brk m = None.
Proof.
  intros [_ Hn]. destruct (nodes m !! brk m) as [n|] eqn:E; [|done].
  specialize (Hn _ _ E). lia.
Qed.

Lemma is_queue_bound m q cs :
  heap_ok m → is_queue m q cs → Z.of_nat (length cs) < brk m.
Proof.
  intros [Hb Hn] (_ & v & _ & Hc & _).
  apply (chain_bound (nodes m) (first v) cs); [done|lia|done].
Qed.

Lemma take_mem_is_queue t q m v c cs nx :
  heap_ok m → q ≠ NULL → qs m !! q = Some v →
  chain (nodes m) (first v) (c :: cs) → nodes m !! c.1 = Some (Node c.2 nx) →
  sz v = Z.of_nat (length (c :: cs)) →
  heap_ok (take_mem t q v nx m) ∧ is_queue (take_mem t q v nx m) q cs.
Proof.
  intros Hh Hq Hv Hc Hn Hs.
  assert (Z.of_nat (length (c :: cs)) < brk m).
  { apply (is_queue_bound m q); [done|]. split; [done|]. exists v. auto. }
  split; [exact Hh|].
  split; [done|]. eexists. split; [cbn; apply lookup_insert_eq|]. cbn.
  destruct Hc as (_ & _ & nx2 & Hn2 & Hc). rewrite Hn in Hn2.
  injection Hn2 as <-. split; [done|].
  destruct Hh as [Hb _]. unfold ADDR_MAX in Hb.
  rewrite Hs. simpl length in *.
  replace (Z.of_nat (S (length cs)) - 1) with (Z.of_nat (length cs)) by lia.
  apply wrap_small. unfold SIZE_MOD. lia.
Qed.

Lemma put_mem_is_queue t q data m v cs c :
  heap_ok m → can_alloc m → q ≠ NULL → qs m !! q = Some v →
  chain (nodes m) (first v) (cs ++ [c]) →
  sz v = Z.of_nat (length (cs ++ [c])) →
  heap_ok (put_mem t q data v c m) ∧
  is_queue (put_mem t q data v c m) q (cs ++ [c; (brk m, data)]) ∧
  wrap (sz v + 1) = sz v + 1.
Proof.
  intros Hh Ha Hq Hv Hc Hs.
  assert (Hlen : Z.of_nat (length (cs ++ [c])) < brk m).
  { apply (is_queue_bound m q); [done|]. split; [done|]. exists v. auto. }
  destruct Ha as (_ & Hb0 & Hb1). unfold ADDR_MAX in Hb1.
  assert (Hw : wrap (sz v + 1) = sz v + 1).
  { apply wrap_small. unfold SIZE_MOD. lia. }
  pose proof (chain_last _ _ _ _ Hc) as Hlast.
  destruct Hh as [Hb Hn]. pose proof (Hn _ _ Hlast) as Hc1.
  split; [|split; [|exact Hw]].
  - split; [cbn; unfold ADDR_MAX; lia|]. cbn. intros l n Hl.
    destruct (decide (l = c.1)) as [->|Hne1]; [lia|].
    rewrite lookup_insert_ne in Hl by done.
    destruct (decide (l = brk m)) as [->|Hne2]; [lia|].
    rewrite lookup_insert_ne in Hl by done.
    specialize (Hn _ _ Hl). lia.
  - split; [done|]. eexists. split; [cbn; apply lookup_insert_eq|]. cbn.
    split.
    + apply chain_snoc; [done| |unfold NULL; lia].
      apply heap_ok_fresh. by split.
    + rewrite Hw, Hs, !length_app. simpl. lia.
Qed.

(** ** The size invariant *)

Lemma wherever_after {A} (o : outcome A) (P : mem → Prop) :
  wherever o P → after o P.
Proof. by destruct o. Qed.

Section Invariance.

Variable q : loc.

Lemma preserves_ret {A} (a : A) : preserves q (ret a).
Proof. intros m H. exact H. Qed.

Lemma preserves_crash {A} f : preserves q (@crash A f).
Proof. intros m H. exact H. Qed.

Lemma preserves_bind {A B} (c : M A) (k : A → M B) :
  preserves q c → (∀ a, preserves q (k a)) → preserves q (bind c k).
Proof.
  intros Hc Hk m Hm. specialize (Hc m Hm). unfold bind.
  destruct (c m) as [a m1|f m1|w m1|]; simpl in *; auto.
  apply Hk, Hc.
Qed.

Lemma preserves_while {A} fuel (c : A → M bool) (body : A → M A) a :
  (∀ a, preserves q (c a)) → (∀ a, preserves q (body a)) →
  preserves q (while_ fuel c body a).
Proof.
  intros Hc Hb. revert a. induction fuel as [|fuel IH]; intros a; simpl.
  - intros m _. exact I.
  - apply preserves_bind; [apply Hc|]. intros [|]; [|apply preserves_ret].
    apply preserves_bind; [apply Hb|]. exact IH.
Qed.

Lemma preserves_modify (f : mem → mem) :
  (∀ m, size_inv q m → size_inv q (f m)) → preserves q (modify f).
Proof. intros Hf m Hm. simpl. auto. Qed.

(** The invariant only looks at the nodes, at the allocator and at the count
    and head pointer of [q]. *)
Lemma size_inv_frame m m' v v' :
  size_inv q m →
  qs m !! q = Some v → qs m' !! q = Some v' →
  sz v' = sz v → first v' = first v →
  nodes m' = nodes m → brk m ≤ brk m' ≤ ADDR_MAX →
  size_inv q m'.
Proof.
  intros [[Hb Hn] (cs & Hq & v0 & Hv0 & Hc & Hs)] Hv Hv' Hsz Hf Hnodes Hbrk.
  rewrite Hv in Hv0. injection Hv0 as <-.
  split.
  - split; [lia|]. intros l n. rewrite Hnodes. intros Hl.
    specialize (Hn l n Hl). lia.
  - exists cs. split; [done|]. exists v'. rewrite Hnodes, Hf, Hsz. auto.
Qed.

Lemma size_inv_emit e m : size_inv q m → size_inv q (emit e m).
Proof.
  intros H. destruct H as [Hh (cs & Hq & v & Hv & Hc & Hs)] eqn:E.
  eapply (size_inv_frame m _ v v); eauto. cbn. destruct Hh. lia.
Qed.

Lemma size_inv_set_lock l m v :
  size_inv q m → qs m !! q = Some v →
  size_inv q (set_qs <[q := set_lock l v]> m).
Proof.
  intros H Hv. eapply (size_inv_frame m _ v (set_lock l v)); eauto.
  - cbn. apply lookup_insert_eq.
  - cbn. destruct H as [[? _] _]. lia.
Qed.

Lemma load_Done_inv {A} (h : mem → gmap Z A) p m a m' :
  load h p m = Done a m' → m' = m ∧ p ≠ NULL ∧ h m !! p = Some a.
Proof.
  unfold load. destruct (Z.eqb_spec p NULL) as [|Hp]; [discriminate|].
  unfold bind, gets. destruct (h m !! p) eqn:E; [|discriminate].
  intros [= -> ->]. auto.
Qed.

Lemma preserves_load {A} (h : mem → gmap Z A) p : preserves q (load h p).
Proof.
  intros m Hm. unfold load. destruct (p =? NULL); [exact Hm|].
  unfold bind, gets. by destruct (h m !! p).
Qed.

Lemma preserves_read_sz t : preserves q (read_sz t q).
Proof.
  unfold read_sz. apply preserves_bind; [apply preserves_load|]. intros v.
  apply preserves_bind; [|intros; apply preserves_ret].
  apply preserves_modify. intros m. apply size_inv_emit.
Qed.

Lemma preserves_mutex_lock t : preserves q (pthread_mutex_lock t q).
Proof.
  intros m Hm. pose proof (preserves_load qs q m Hm) as Hl.
  unfold pthread_mutex_lock, bind at 1. fold (load_q q m) in Hl.
  destruct (load_q q m) as [v m1|f m1|w m1|] eqn:E; simpl in *; auto.
  apply load_Done_inv in E as (-> & Hq & Hv).
  destruct (lock v); simpl; auto.
  run_open. run_load. by apply size_inv_set_lock.
Qed.

Lemma preserves_cond_wait t : preserves q (pthread_cond_wait t q).
Proof.
  intros m Hm. pose proof (preserves_load qs q m Hm) as Hl.
  unfold pthread_cond_wait, bind at 1. fold (load_q q m) in Hl.
  destruct (load_q q m) as [v m1|f m1|w m1|] eqn:E; simpl in *; auto.
  apply load_Done_inv in E as (-> & Hq & Hv).
  destruct (cond v); simpl; auto.
  destruct (holds t (lock v)); simpl; auto.
  run_open. run_load. by apply size_inv_set_lock.
Qed.

Lemma preserves_cond_signal : preserves q (pthread_cond_signal q).
Proof.
  unfold pthread_cond_signal. apply preserves_bind; [apply preserves_load|].
  intros v. destruct (cond v); [apply preserves_crash|].
  apply preserves_bind; [|intros; apply preserves_ret].
  apply preserves_modify. intros m. apply size_inv_emit.
Qed.

Lemma size_inv_set_bufs f m : size_inv q m → size_inv q (set_bufs f m).
Proof.
  intros H. destruct H as [Hh (cs & Hq & v & Hv & Hc & Hs)] eqn:E.
  eapply (size_inv_frame m _ v v); eauto. cbn. destruct Hh. lia.
Qed.

Lemma preserves_store_buf p i x : preserves q (store_buf p i x).
Proof.
  unfold store_buf. apply preserves_bind; [apply preserves_load|]. intros b.
  destruct (_ && _); [|apply preserves_crash].
  apply preserves_modify. intros m. apply size_inv_set_bufs.
Qed.

Lemma preserves_incr_int c : preserves q (incr_int c).
Proof.
  unfold incr_int. destruct (c <? INT_MAX);
    [apply preserves_ret|apply preserves_crash].
Qed.

Lemma preserves_malloc : preserves q malloc.
Proof.
  intros m Hm. unfold malloc.
  destruct (Nat.ltb_spec 0 (avail m)); simpl; [|exact Hm].
  destruct (Z.ltb_spec (brk m) ADDR_MAX); simpl; [|exact Hm].
  destruct Hm as [Hh (cs & Hq & v & Hv & Hc & Hs)] eqn:E.
  eapply (size_inv_frame m _ v v); eauto. cbn. destruct Hh. lia.
Qed.

Lemma preserves_malloc_buf n : preserves q (malloc_buf n).
Proof.
  unfold malloc_buf. apply preserves_bind; [apply preserves_malloc|].
  intros p. destruct (p =? NULL); [apply preserves_ret|].
  apply preserves_bind; [|intros; apply preserves_ret].
  apply preserves_modify. intros m. apply size_inv_set_bufs.
Qed.

Lemma preserves_read_first : preserves q (read_first q).
Proof.
  unfold read_first. apply preserves_bind; [apply preserves_load|].
  intros v. apply preserves_ret.
Qed.

End Invariance.

Section QueueOperations.

Variable q : loc.

(** A node written at the allocator's next address is outside every
    queue. *)
Lemma size_inv_new_node n m :
  size_inv q m → can_alloc m →
  size_inv q (set_nodes <[brk m := n]> (bump m)).
Proof.
  intros [Hh (cs & Hq & v & Hv & Hc & Hs)] Ha.
  pose proof (heap_ok_fresh m Hh) as Hfresh.
  destruct Hh as [Hb Hn]. destruct Ha as (_ & _ & Hlt). split.
  - split; [cbn; lia|]. intros l n' Hl. cbn in Hl |- *.
    destruct (decide (l = brk m)) as [->|Hne]; [lia|].
    rewrite lookup_insert_ne in Hl by done. specialize (Hn _ _ Hl). lia.
  - exists cs. split; [done|]. exists v. split; [exact Hv|]. split; [|done].
    cbn. apply (chain_frame (nodes m)); [exact Hc|].
    intros l Hin. apply lookup_insert_ne. intros <-.
    destruct (chain_lookup _ _ _ _ Hc Hin) as [n' Hn']. congruence.
Qed.

Lemma preserves_take t : preserves q (__blocking_q_take t q).
Proof.
  intros m Hinv. pose proof Hinv as [Hh (cs & Hq & v & Hv & Hc & Hs)].
  destruct cs as [|c cs].
  - simpl in Hc. unfold __blocking_q_take. run_open. run_load.
    rewrite Hc. exact Hinv.
  - pose proof Hc as (Hf & Hn & nx & Hl & _).
    rewrite (take_step t q m v c.1 c.2 nx) by done. simpl.
    destruct (take_mem_is_queue t q m v c cs nx) as [H1 H2]; try done.
    split; [done|]. by exists cs.
Qed.

Lemma preserves_put fuel t data : preserves q (blocking_q_put fuel t q data).
Proof.
  intros m Hinv. pose proof Hinv as [Hh (cs & Hq & v & Hv & Hc & Hs)].
  destruct (decide ((0 < avail m)%nat ∧ 0 < brk m < ADDR_MAX)) as [Ha|Hna].
  - assert (Hb : brk m ≠ NULL) by (unfold NULL; lia).
    destruct cs as [|c cs _] using rev_ind.
    + simpl in Hc. destruct fuel as [|fuel].
      * unfold blocking_q_put, bind at 1.
        rewrite (malloc_node_ok m Ha).
        destruct (Z.eqb_spec (brk m) NULL) as [|_]; [done|].
        run_open. repeat run_load. exact I.
      * rewrite (put_empty_faults fuel t q data m v); try done.
        by apply size_inv_new_node.
    + destruct (decide (length cs < fuel)%nat) as [Hf|Hf].
      * destruct (put_mem_is_queue t q data m v cs c) as (H1 & H2 & Hw);
          try done.
        rewrite (put_step fuel t q data m v cs c); try done.
        -- simpl. split; [done|]. eauto.
        -- by apply heap_ok_fresh.
        -- rewrite Hw, Hs, length_app. simpl. lia.
      * unfold blocking_q_put, bind at 1. rewrite (malloc_node_ok m Ha).
        destruct (Z.eqb_spec (brk m) NULL) as [|_]; [done|].
        run_open. repeat run_load. mem_norm. rewrite !insert_insert_eq.
        match goal with
        | |- context [last_node fuel (first v) ?m1] =>
            assert (Hwalk : last_node fuel (first v) m1 = Diverge)
        end.
        { apply last_node_chain with (cs := cs) (c := c); [|lia]. cbn.
          apply (chain_frame (nodes m)); [exact Hc|].
          intros l Hin. apply lookup_insert_ne. intros <-.
          destruct (chain_lookup _ _ _ _ Hc Hin) as [n Hn].
          rewrite (heap_ok_fresh m Hh) in Hn. discriminate. }
        rewrite Hwalk. exact I.
  - unfold blocking_q_put, bind at 1.
    rewrite (malloc_node_fail m Hna) by (destruct Hh; lia). exact Hinv.
Qed.

Lemma preserves_take_all fuel t data counter :
  preserves q (take_all fuel t q data counter).
Proof.
  unfold take_all. apply preserves_while.
  - intros _. apply preserves_bind; [apply preserves_read_sz|].
    intros; apply preserves_ret.
  - intros c. apply preserves_bind; [apply preserves_take|]. intros x.
    apply preserves_bind; [apply preserves_store_buf|]. intros _.
    apply preserves_incr_int.
Qed.

Lemma preserves_wait_while fuel t (c : unit → M bool) :
  (∀ a, preserves q (c a)) →
  preserves q
    (while_ fuel c (fun _ => pthread_cond_wait t q ;; ret tt) tt).
Proof.
  intros Hc. apply preserves_while; [exact Hc|]. intros _.
  apply preserves_bind; [apply preserves_cond_wait|].
  intros; apply preserves_ret.
Qed.

Lemma preserves_get fuel t : preserves q (blocking_q_get fuel t q).
Proof.
  unfold blocking_q_get. apply preserves_bind.
  { apply preserves_wait_while. intros _.
    apply preserves_bind; [apply preserves_read_sz|].
    intros; apply preserves_ret. }
  intros _. apply preserves_bind; [apply preserves_take|]. intros x.
  apply preserves_bind; [apply preserves_read_sz|]. intros s.
  apply preserves_bind; [|intros; apply preserves_ret].
  destruct (s =? 0); [|apply preserves_ret].
  apply preserves_bind; [apply preserves_mutex_lock|].
  intros; apply preserves_ret.
Qed.

Lemma preserves_drain fuel t data n :
  preserves q (blocking_q_drain fuel t q data n).
Proof.
  unfold blocking_q_drain.
  apply preserves_bind; [apply preserves_read_sz|]. intros s.
  destruct (s =? 0); [apply preserves_ret|].
  apply preserves_bind; [apply preserves_malloc_buf|]. intros b.
  apply preserves_bind; [apply preserves_take_all|]. intros _.
  apply preserves_bind; [apply preserves_mutex_lock|].
  intros; apply preserves_ret.
Qed.

Lemma preserves_drain_rounds rounds fuel t data min counter :
  preserves q (drain_rounds rounds fuel t q data min counter).
Proof.
  revert counter. induction rounds as [|rounds IH]; intros counter; simpl.
  - intros m _. exact I.
  - apply preserves_bind; [apply preserves_take_all|]. intros c.
    apply preserves_bind; [apply preserves_mutex_lock|]. intros _.
    destruct (wrap c <? min); [|apply preserves_ret].
    apply preserves_bind; [|intros; apply IH].
    apply preserves_wait_while. intros _.
    apply preserves_bind; [apply preserves_read_sz|].
    intros; apply preserves_ret.
Qed.

Lemma preserves_drain_at_least fuel t data n min :
  preserves q (blocking_q_drain_at_least fuel t q data n min).
Proof. apply preserves_drain_rounds. Qed.

Lemma preserves_peek t c : preserves q (blocking_q_peek t q c).
Proof.
  unfold blocking_q_peek.
  apply preserves_bind; [apply preserves_read_sz|]. intros s.
  destruct (s =? 0); [apply preserves_ret|].
  apply preserves_bind; [apply preserves_malloc_buf|]. intros _.
  apply preserves_bind; [apply preserves_read_first|].
  intros; apply preserves_ret.
Qed.

Lemma preserves_init_tail e t :
  preserves q
    (err <- pthread_mutex_init e q ;;
     (if negb (err =? 0) then printf "ERROR" else ret tt) ;;
     err <- pthread_cond_init e q ;;
     (if negb (err =? 0) then printf "ERROR" else ret tt) ;;
     pthread_mutex_lock t q ;;
     ret false).
Proof.
  assert (Hp : ∀ err : Z,
             preserves q (if negb (err =? 0) then printf "ERROR" else ret tt)).
  { intros err. destruct (negb _); [|apply preserves_ret].
    apply preserves_modify. intros m. apply size_inv_emit. }
  assert (Hs : ∀ f, (∀ v, sz (f v) = sz v ∧ first (f v) = first v) →
               preserves q (store_q q f)).
  { intros f Hf m Hm. pose proof (preserves_load q qs q m Hm) as Hl.
    unfold store_q, bind at 1. fold (load_q q m) in Hl.
    destruct (load_q q m) as [v m1|f0 m1|w m1|] eqn:E; simpl in *; auto.
    apply load_Done_inv in E as (-> & Hq & Hv). destruct (Hf v).
    eapply (size_inv_frame q m _ v (f v)); eauto.
    - cbn. apply lookup_insert_eq.
    - cbn. destruct Hm as [[? _] _]. lia. }
  apply preserves_bind.
  { unfold pthread_mutex_init. destruct (_ =? 0).
    - apply preserves_bind; [by apply Hs|]. intros; apply preserves_ret.
    - apply preserves_bind; [apply preserves_load|].
      intros; apply preserves_ret. }
  intros err. apply preserves_bind; [apply Hp|]. intros _.
  apply preserves_bind.
  { unfold pthread_cond_init. destruct (_ =? 0).
    - apply preserves_bind; [by apply Hs|]. intros; apply preserves_ret.
    - apply preserves_bind; [apply preserves_load|].
      intros; apply preserves_ret. }
  intros err2. apply preserves_bind; [apply Hp|]. intros _.
  apply preserves_bind; [apply preserves_mutex_lock|].
  intros; apply preserves_ret.
Qed.

(** [blocking_q_init] establishes the invariant, whatever the queue object
    held before. *)
Lemma blocking_q_init_size_inv e t m :
  heap_ok m → after (blocking_q_init e t q m) (size_inv q).
Proof.
  intros Hh. destruct (decide (q = NULL)) as [->|Hq].
  { exact I. }
  destruct (qs m !! q) as [v|] eqn:Hv.
  - unfold blocking_q_init.
    assert (E1 : write_sz t q 0 m =
                 Done tt (set_qs <[q := set_sz 0 v]>
                            (emit (EvSz t q (holds t (lock v))) m))).
    { run_open. repeat run_load. reflexivity. }
    unfold bind at 1. rewrite E1. cbv beta iota. unfold bind at 1.
    match goal with
    | |- context [write_first t q NULL ?m1] =>
        assert (E2 : write_first t q NULL m1 =
                     Done tt (set_qs <[q := set_first NULL (set_sz 0 v)]>
                                (emit (EvLink t q (holds t (lock v))) m1)))
    end.
    { run_open. repeat run_load. reflexivity. }
    rewrite E2. cbv beta iota.
    apply wherever_after, preserves_init_tail.
    split; [exact Hh|]. exists []. split; [done|].
    eexists. split; [cbn; apply lookup_insert_eq|]. by cbn.
  - unfold blocking_q_init, write_sz, load_q, load.
    destruct (Z.eqb_spec q NULL) as [|_]; [done|].
    unfold bind, gets. rewrite Hv. exact I.
Qed.

End QueueOperations.

(** ** Sequences of queue operations *)

(** Every operation keeps the invariant, from any queue that satisfies it. *)
Lemma run_calls_size_inv fuel q cs : preserves q (run_calls fuel q cs).
Proof.
  induction cs as [|c cs IH]; simpl; [apply preserves_ret|].
  apply preserves_bind; [|intros _; exact IH].
  destruct c; simpl; (apply preserves_bind; [|intros; apply preserves_ret]).
  - apply preserves_put.
  - apply preserves_get.
  - apply preserves_drain.
  - apply preserves_drain_at_least.
Qed.

(** C4: the count of a queue is the number of cells reachable from its
    head pointer.  [blocking_q_init] establishes this, and any finite
    sequence of put, get, drain and drain_at_least calls keeps it, from
    the queue that [blocking_q_init] leaves and from any other queue that
    satisfies it, empty or not: it holds in the store where the run
    returns, where it suspends, and also where it runs into undefined
    behaviour. *)
Theorem count_matches_reachable_cells e t q calls fuel m :
  heap_ok m →
  after ((blocking_q_init e t q ;; run_calls fuel q calls) m) (size_inv q) ∧
  (size_inv q m → wherever (run_calls fuel q calls m) (size_inv q)).
Proof.
  intros Hh. split; [|apply run_calls_size_inv].
  pose proof (blocking_q_init_size_inv q e t m Hh) as Hi.
  unfold bind.
  destruct (blocking_q_init e t q m) as [b m1|f m1|w m1|]; simpl in *; auto.
  by apply wherever_after, run_calls_size_inv.
Qed.

(** ** Observations of a run *)

Example three_mem_is_queue l slots :
  is_queue (three_mem l slots) 1 [(2, 50); (3, 60); (4, 70)].
Proof.
  split; [done|]. eexists. split; [reflexivity|]. split; [|reflexivity].
  simpl. repeat (split; [done|]). exists 3. split; [reflexivity|].
  repeat (split; [done|]). exists 4. split; [reflexivity|].
  repeat (split; [done|]). exists NULL. split; reflexivity.
Qed.

Lemma count_matches_reachable_cells_witness :
  heap_ok (three_mem MFree 3) ∧ size_inv 1 (three_mem MFree 3) ∧
  after ((blocking_q_init env_ok 0%nat 1 ;;
          run_calls 8 1 [CallPut 0%nat 80; CallGet 0%nat;
                         CallDrainAtLeast 0%nat 5 3 1])
           (three_mem MFree 3))
    (size_inv 1) ∧
  wherever (run_calls 8 1 [CallPut 0%nat 80; CallGet 0%nat;
                           CallDrainAtLeast 0%nat 5 3 1]
              (three_mem MFree 3))
    (size_inv 1).
Proof.
  assert (Hh : heap_ok (three_mem MFree 3)).
  { split; [unfold ADDR_MAX; cbn; lia|].
    apply (@bool_decide_unpack
             (map_Forall (λ l _, 0 < l < brk (three_mem MFree 3))
                (nodes (three_mem MFree 3))) _).
    vm_compute. exact I. }
  assert (Hs : size_inv 1 (three_mem MFree 3)).
  { split; [exact Hh|]. eexists. apply three_mem_is_queue. }
  split; [exact Hh|]. split; [exact Hs|].
  destruct (count_matches_reachable_cells env_ok 0%nat 1
              [CallPut 0%nat 80; CallGet 0%nat; CallDrainAtLeast 0%nat 5 3 1]
              8 (three_mem MFree 3) Hh) as [Hinit Hrun].
  split; [exact Hinit|exact (Hrun Hs)].
Defined.

(** On a queue that is not empty, put appends and get removes the oldest. *)
Example put_then_get_three :
  returned ((blocking_q_put 8 0%nat 1 80 ;;
             a <- blocking_q_get 8 0%nat 1 ;;
             b <- blocking_q_get 8 0%nat 1 ;;
             c <- blocking_q_get 8 0%nat 1 ;;
             d <- blocking_q_get 8 0%nat 1 ;;
             ret [a; b; c; d]) (three_mem MFree 0)) = Some [50; 60; 70; 80].
Proof. vm_compute. reflexivity. Qed.

(** C5, as the code has it: [blocking_q_drain] stores what it removes in a
    buffer of its own, takes the lock and reaches its closing brace without
    a [return].  With three elements queued and room for three, the
    caller's buffer is untouched and no count is returned; with room for
    two, all three elements are removed and the third store is out of
    bounds.  Only the empty queue gives the documented result, 0. *)
Theorem blocking_q_drain_ignores_buffer_and_limit :
  let enough := blocking_q_drain 8 0%nat 1 5 3 (three_mem MFree 3) in
  let short := blocking_q_drain 8 0%nat 1 5 2 (three_mem MFree 3) in
  let empty := blocking_q_drain 8 0%nat 1 5 3 initialised_mem in
  (returned enough = Some None ∧
   buffer_of 5 enough = Some [NULL; NULL; NULL] ∧
   queue_of 1 enough = Some (Queue 0 NULL (MHeld 0%nat) CReady)) ∧
  (faulted short = Some OutOfBounds ∧
   buffer_of 5 short = Some [NULL; NULL; NULL] ∧
   queue_of 1 short = Some (Queue 0 NULL MFree CReady)) ∧
  returned empty = Some (Some 0).
Proof. vm_compute. repeat split; reflexivity. Qed.

(** C6, as the code has it: [blocking_q_drain_at_least] never looks at its
    capacity argument.  With three elements queued, capacity 2 and minimum
    1, it removes and reports three elements when the buffer happens to
    have a third slot, and writes out of bounds when the buffer has the two
    slots announced.  On a queue whose lock is held, as [blocking_q_init]
    leaves it, the call suspends on the lock after it emptied the queue. *)
Theorem blocking_q_drain_at_least_exceeds_capacity :
  let roomy := blocking_q_drain_at_least 8 0%nat 1 5 2 1 (three_mem MFree 3) in
  let exact := blocking_q_drain_at_least 8 0%nat 1 5 2 1 (three_mem MFree 2) in
  let held :=
    blocking_q_drain_at_least 8 0%nat 1 5 2 1 (three_mem (MHeld 0%nat) 3) in
  (returned roomy = Some 3 ∧
   buffer_of 5 roomy = Some [50; 60; 70] ∧
   queue_of 1 roomy = Some (Queue 0 NULL (MHeld 0%nat) CReady)) ∧
  (faulted exact = Some OutOfBounds ∧
   queue_of 1 exact = Some (Queue 0 NULL MFree CReady)) ∧
  (blocked held = Some (OnMutex 1) ∧
   queue_of 1 held = Some (Queue 0 NULL (MHeld 0%nat) CReady)).
Proof. vm_compute. repeat split; reflexivity. Qed.

(** ** Lock discipline *)

(** C8, as the code has it: no operation takes the lock before it touches
    the queue.  On a queue created by thread 0, a call by thread 1 of any of
    put, get, drain, drain_at_least and peek reads or writes the count, and
    relinks the list, without holding the lock. *)
Theorem operations_access_count_without_lock :
  let m := three_mem (MHeld 0%nat) 3 in
  lock_discipline (log_of (blocking_q_put 8 1%nat 1 80 m)) = false ∧
  lock_discipline (log_of (blocking_q_get 8 1%nat 1 m)) = false ∧
  lock_discipline (log_of (blocking_q_drain 8 1%nat 1 5 3 m)) = false ∧
  lock_discipline (log_of (blocking_q_drain_at_least 8 1%nat 1 5 3 1 m)) = false ∧
  lock_discipline (log_of (blocking_q_peek 1%nat 1 0 m)) = false ∧
  log_of (blocking_q_get 8 1%nat 1 m) =
    [EvSz 1%nat 1 false; EvLink 1%nat 1 false; EvSz 1%nat 1 false;
     EvSz 1%nat 1 false; EvSz 1%nat 1 false].
Proof. vm_compute. repeat split; reflexivity. Qed.

(** ** The driver *)

Lemma for_app {R} (l1 l2 : list nat) (body : nat → M (option R)) m :
  for_ (l1 ++ l2) body m =
    match for_ l1 body m with
    | Done None m1 => for_ l2 body m1
    | o => o
    end.
Proof.
  revert m. induction l1 as [|i l1 IH]; intros m; simpl; [reflexivity|].
  unfold bind. destruct (body i m) as [[v|] m1|f m1|w m1|]; try reflexivity.
  apply IH.
Qed.

Lemma pthread_create_eq e k m :
  pthread_create e k m = Done (create_ret e k) (emit (EvCreate k) m).
Proof. reflexivity. Qed.

Ltac step_with H := unfold bind at 1; rewrite H; cbv beta iota.

Section Startup.

Variable q_init : env → tid → loc → M bool.
Variable p_init : nat → M bool.

Lemma startup_failure_exits e t argc m :
  2 ≤ argc → startup_failure q_init p_init e t m →
  ∃ m', main_with q_init p_init e t argc m = Done (Exit EXIT_FAILURE) m'.
Proof.
  intros Hargc Hfail. unfold main_with.
  destruct (Z.ltb_spec argc 2) as [|_]; [lia|].
  destruct Hfail as [m1 Hm | q m1 m2 Hm Hq Hi | q m1 m2 Hm Hq Hi Hc
                    | q m1 m2 i m3 m4 Hm Hq Hi Hc Hlt Hpre Hp].
  - step_with Hm. cbn. eauto.
  - step_with Hm. destruct (Z.eqb_spec q NULL) as [|_]; [done|].
    unfold bind at 1. step_with Hi. cbn. eauto.
  - step_with Hm. destruct (Z.eqb_spec q NULL) as [|_]; [done|].
    unfold bind at 1. step_with Hi. unfold ret at 1. cbn [negb].
    step_with pthread_create_eq.
    destruct (Z.eqb_spec 0 (create_ret e 0)) as [E|_]; [congruence|].
    cbn. eauto.
  - step_with Hm. destruct (Z.eqb_spec q NULL) as [|_]; [done|].
    unfold bind at 1. step_with Hi. unfold ret at 1. cbn [negb].
    step_with pthread_create_eq. rewrite Hc. cbn [Z.eqb negb].
    assert (Hseq : seq 0 PROCESSOR_COUNT =
                   seq 0 i ++ i :: seq (S i) (PROCESSOR_COUNT - S i)).
    { replace PROCESSOR_COUNT with (i + S (PROCESSOR_COUNT - S i))%nat at 1
        by lia.
      rewrite seq_app. reflexivity. }
    unfold bind at 1. rewrite Hseq, for_app, Hpre. simpl for_.
    unfold bind at 1, start_processor at 1.
    destruct Hp as [Hp|[Hp Hcr]].
    + step_with Hp. cbn. eauto.
    + step_with Hp. cbn [negb]. step_with pthread_create_eq.
      destruct (Z.eqb_spec 0 (create_ret e (S i))) as [E|_]; [congruence|].
      cbn. eauto.
Qed.

(** When nothing fails, [main] reaches its feeding loop with the five
    threads created. *)
Lemma startup_success e t argc m q m1 m2 m3 :
  2 ≤ argc → malloc_q m = Done q m1 → q ≠ NULL →
  q_init e t q m1 = Done true m2 → create_ret e 0 = 0 →
  for_ (seq 0 PROCESSOR_COUNT) (start_processor p_init e)
    (emit (EvCreate 0) m2) = Done None m3 →
  main_with q_init p_init e t argc m = Done (Started q) m3.
Proof.
  intros Hargc Hm Hq Hi Hc Hfor. unfold main_with.
  destruct (Z.ltb_spec argc 2) as [|_]; [lia|].
  step_with Hm. destruct (Z.eqb_spec q NULL) as [|_]; [done|].
  unfold bind at 1. step_with Hi. unfold ret at 1. cbn [negb].
  step_with pthread_create_eq. rewrite Hc. cbn [Z.eqb negb].
  step_with Hfor. reflexivity.
Qed.

End Startup.

(** C9: if the queue cannot be allocated or initialised, a thread cannot be
    created or a processor cannot be initialised, [main] returns
    [EXIT_FAILURE]; this holds for whatever queue and processor
    implementation [main] is linked with. *)
Theorem startup_failure_exits_with_failure q_init p_init e t argc m :
  2 ≤ argc → startup_failure q_init p_init e t m →
  ∃ m', main_with q_init p_init e t argc m = Done (Exit EXIT_FAILURE) m'.
Proof. apply startup_failure_exits. Qed.

Lemma startup_failure_exits_with_failure_witness :
  ∃ m', main_with (fun _ _ _ => ret true) processor_init env_third_fails
          0%nat 2 fresh_mem = Done (Exit EXIT_FAILURE) m'.
Proof.
  apply (startup_failure_exits_with_failure (fun _ _ _ => ret true)
           processor_init env_third_fails 0%nat 2 fresh_mem).
  - lia.
  - eapply processor_fails with (q := 2) (i := 2%nat).
    + vm_compute. reflexivity.
    + discriminate.
    + reflexivity.
    + reflexivity.
    + unfold PROCESSOR_COUNT. lia.
    + vm_compute. reflexivity.
    + right. split; [vm_compute; reflexivity | discriminate].
Defined.

Lemma blocking_q_init_fresh e t q m v :
  q ≠ NULL → qs m !! q = Some v → lock v = MUninit →
  ∃ m' evs,
    (blocking_q_init e t q m = Done false m' ∨
     (mutex_init_ret e ≠ 0 ∧ blocking_q_init e t q m = Fault BadMutex m')) ∧
    nodes m' = nodes m ∧ log m' = log m ++ evs ∧ threads_created evs = 0%nat.
Proof.
  intros Hq Hv Hl.
  rewrite (blocking_q_init_outcome e t q m v Hq Hv). cbv zeta. rewrite Hl.
  destruct (Z.eqb_spec (mutex_init_ret e) 0) as [Em|Em];
    eexists; eexists;
    (split; [first [left; reflexivity|right; split; [exact Em|reflexivity]]|]);
    (split; [reflexivity|]); (split; [reflexivity|]);
    by destruct (cond_init_ret e =? 0).
Qed.

Arguments blocking_q_init : simpl never.

(** C10: [blocking_q_init] never returns [true], and it returns [false]
    when the mutex and the condition variable are created.  So for every
    command line [main] creates no thread and enqueues nothing, and returns
    [EXIT_FAILURE]; the one other outcome is the undefined behaviour of
    locking a mutex whose creation failed. *)
Theorem main_always_exits_with_failure e t argc m :
  (∀ q m0 m1, blocking_q_init e t q m0 ≠ Done true m1) ∧
  (∀ q m0 v, q ≠ NULL → qs m0 !! q = Some v →
     mutex_init_ret e = 0 → cond_init_ret e = 0 →
     returned (blocking_q_init e t q m0) = Some false) ∧
  ∃ m' evs,
    (main e t argc m = Done (Exit EXIT_FAILURE) m' ∨
     (mutex_init_ret e ≠ 0 ∧ main e t argc m = Fault BadMutex m')) ∧
    nodes m' = nodes m ∧ log m' = log m ++ evs ∧ threads_created evs = 0%nat.
Proof.
  split; [intros q m0 m1; apply blocking_q_init_never_true|].
  split.
  { intros q m0 v Hq Hv Hm Hc.
    by rewrite (blocking_q_init_created e t q m0 v Hq Hv Hm Hc). }
  remember (main e t argc m) as o eqn:Ho.
  unfold main, main_with in Ho.
  destruct (Z.ltb_spec argc 2) as [Hargc|Hargc].
  { subst o. eexists; eexists. split; [left; reflexivity|].
    repeat split; reflexivity. }
  unfold bind at 1, malloc_q, bind at 1, malloc in Ho.
  destruct ((0 <? avail m)%nat && (brk m <? ADDR_MAX))%bool.
  2:{ cbn in Ho. subst o. exists m, []. rewrite app_nil_r. auto. }
  destruct (Z.eqb_spec (brk m) NULL) as [E|Hb].
  { cbn in Ho. rewrite E in Ho. cbn in Ho. subst o. eexists; exists [].
    split; [left; reflexivity|]. cbn. rewrite app_nil_r. auto. }
  cbn in Ho.
  destruct (Z.eqb_spec (brk m) NULL) as [|_]; [done|].
  unfold bind at 1, bind at 1 in Ho.
  match type of Ho with
  | context [blocking_q_init e t (brk m) ?m1] =>
      destruct (blocking_q_init_fresh e t (brk m) m1 (fresh_q m (brk m)))
        as (m' & evs & Hres & Hn & Hlog & Hth);
        [ exact Hb | cbn; apply lookup_insert_eq | reflexivity | ]
  end.
  exists m', evs. split; [|auto].
  destruct Hres as [Hres|[Hm Hres]]; rewrite Hres in Ho; cbn in Ho; subst o;
    auto.
Qed.

(** ** One queue among others *)

Lemma same_but_trans q m1 m2 m3 :
  same_but q m1 m2 → same_but q m2 m3 → same_but q m1 m3.
Proof.
  intros (N1 & R1 & B1 & A1 & Q1) (N2 & R2 & B2 & A2 & Q2).
  repeat split; try congruence.
  intros q' Hq. rewrite Q2, Q1 by done. done.
Qed.

Lemma is_queue_frame m m' q cs :
  is_queue m q cs → qs m' !! q = qs m !! q →
  (∀ l, l ∈ cs.*1 → nodes m' !! l = nodes m !! l) →
  is_queue m' q cs.
Proof.
  intros (Hq & v & Hv & Hc & Hs) Hqs Hn. split; [done|].
  exists v. rewrite Hqs. repeat split; try done.
  by apply (chain_frame (nodes m)).
Qed.

Lemma heap_ok_same_but q m m' : heap_ok m → same_but q m m' → heap_ok m'.
Proof.
  intros [Hb Hn] (N & _ & B & _). split; rewrite ?B, ?N; done.
Qed.

Arguments __blocking_q_take : simpl never.

(** [blocking_q_get] on a queue that is not empty returns the oldest
    handle, provided the lock is free when the queue becomes empty. *)
Lemma get_cons f t q m c cs :
  heap_ok m → is_queue m q (c :: cs) →
  (cs ≠ [] ∨ ∃ v, qs m !! q = Some v ∧ lock v = MFree) →
  ∃ m', blocking_q_get (S f) t q m = Done c.2 m' ∧
        same_but q m m' ∧ is_queue m' q cs ∧
        (cs ≠ [] → ∀ v v', qs m !! q = Some v → qs m' !! q = Some v' →
                   lock v' = lock v).
Proof.
  intros Hh Hq Hl. pose proof Hq as (Hqn & v & Hv & Hc & Hs).
  pose proof Hc as (Hf & Hn & nx & Hnode & Hrest).
  destruct (take_mem_is_queue t q m v c cs nx) as [Hh1 Hq1]; try done.
  pose proof Hq1 as (_ & v1 & Hv1 & Hc1 & Hs1).
  assert (Hv1' : v1 = Queue (wrap (sz v - 1)) nx (lock v) (cond v)).
  { cbn in Hv1. rewrite lookup_insert_eq in Hv1. by injection Hv1. }
  subst v1. clear Hv1. cbn in Hc1, Hs1.
  assert (Hsz : sz v ≠ 0) by (rewrite Hs; simpl; lia).
  unfold blocking_q_get. simpl while_. run_open. run_load.
  destruct (Z.eqb_spec (sz v) 0) as [|_]; [done|].
  match goal with
  | |- context [__blocking_q_take t q ?m0] =>
      rewrite (take_step t q m0 v c.1 c.2 nx) by done
  end.
  unfold take_mem. cbn. run_load.
  destruct (Z.eqb_spec (wrap (sz v - 1)) 0) as [E0|E0]; cbn.
  - assert (cs = []) as ->.
    { rewrite E0 in Hs1. destruct cs; [done|simpl in Hs1; lia]. }
    destruct Hl as [|(v' & Hv' & Hfree)]; [done|].
    rewrite Hv in Hv'. injection Hv' as <-.
    run_load. rewrite Hfree. cbn. run_load. mem_norm.
    rewrite !insert_insert_eq. eexists. split; [reflexivity|].
    split; [|split; [|done]].
    + repeat split; cbn; try done.
      intros q' Hq'. by rewrite lookup_insert_ne.
    + split; [done|]. eexists. split; [cbn; apply lookup_insert_eq|].
      cbn. split; [|done]. exact Hc1.
  - mem_norm. eexists. split; [reflexivity|].
    split; [|split].
    + repeat split; cbn; try done.
      intros q' Hq'. by rewrite lookup_insert_ne.
    + split; [done|]. eexists. split; [cbn; apply lookup_insert_eq|].
      cbn. split; [exact Hc1|exact Hs1].
    + intros _ v0 v0' Hv0 Hv0'. cbn in Hv0'.
      rewrite lookup_insert_eq in Hv0'. injection Hv0' as <-.
      rewrite Hv in Hv0. by injection Hv0 as <-.
Qed.

(** ** The scheduler's loop *)

Lemma live_task_same_but q m m' K c :
  same_but q m m' → live_task m K c → live_task m' K c.
Proof. intros (_ & R & _) (Hn & r & Hr & HK). split; [done|]. rewrite R. eauto. Qed.

Arguments blocking_q_get : simpl never.
Arguments POISON_PILL : simpl never.

Lemma scheduler_turn_cons f t q m c cs r run :
  heap_ok m → is_queue m q (c :: cs) →
  (cs ≠ [] ∨ ∃ v, qs m !! q = Some v ∧ lock v = MFree) →
  c.2 ≠ NULL → recs m !! c.2 = Some r →
  ∃ m', scheduler_turn (S f) t q run m =
          Done (if POISON_PILL =? type r then false else run) m' ∧
        same_but q m m' ∧ is_queue m' q cs ∧
        (cs ≠ [] → ∀ v v', qs m !! q = Some v → qs m' !! q = Some v' →
                   lock v' = lock v).
Proof.
  intros Hh Hq Hl Hn Hr.
  destruct (get_cons f t q m c cs Hh Hq Hl) as (m1 & Hget & Hsame & Hq1 & Hl1).
  pose proof Hsame as (N & R & B & A & Q).
  assert (Hr1 : recs m1 !! c.2 = Some r) by (by rewrite R).
  unfold scheduler_turn. step_with Hget.
  run_open. repeat run_load.
  exists (emit (EvPrintf "Received t %c\n") m1).
  split; [by destruct (POISON_PILL =? type r)|].
  split; [exact Hsame|]. split; [|exact Hl1].
  apply (is_queue_frame m1); [exact Hq1|done|done].
Qed.

Lemma scheduler_loop f t q k post pre :
  ∀ n m,
    heap_ok m → is_queue m q (pre ++ k :: post) →
    Forall (live_task m (λ ty, ty ≠ POISON_PILL)) pre →
    live_task m (λ ty, ty = POISON_PILL) k →
    (post ≠ [] ∨ ∃ v, qs m !! q = Some v ∧ lock v = MFree) →
    (length pre + 2 ≤ n)%nat →
    ∃ m', while_ n (fun run => ret run) (scheduler_turn (S f) t q) true m
            = Done false m' ∧
          same_but q m m' ∧ is_queue m' q post.
Proof.
  induction pre as [|c pre IH]; intros n m Hh Hq Hpre Hk Hl Hn.
  - destruct n as [|[|n]]; simpl in Hn; try lia.
    destruct Hk as (Hkn & r & Hr & Hty). simpl in Hq.
    destruct (scheduler_turn_cons f t q m k post r true Hh Hq Hl Hkn Hr)
      as (m1 & Hturn & Hsame & Hq1 & _).
    rewrite Hty, Z.eqb_refl in Hturn.
    exists m1. split; [|done].
    simpl. unfold bind at 1. unfold ret at 1. cbv beta iota.
    step_with Hturn. reflexivity.
  - destruct n as [|n]; simpl in Hn; try lia.
    apply Forall_cons in Hpre as [(Hcn & r & Hr & Hty) Hpre].
    simpl in Hq.
    assert (Hl0 : pre ++ k :: post ≠ [] ∨
                  ∃ v, qs m !! q = Some v ∧ lock v = MFree).
    { left. by destruct pre. }
    destruct (scheduler_turn_cons f t q m c _ r true Hh Hq Hl0 Hcn Hr)
      as (m1 & Hturn & Hsame & Hq1 & Hlock).
    destruct (Z.eqb_spec POISON_PILL (type r)) as [E|_]; [by rewrite <- E in Hty|].
    destruct (IH n m1) as (m2 & Hloop & Hsame2 & Hq2).
    + by apply (heap_ok_same_but q m).
    + exact Hq1.
    + eapply Forall_impl; [exact Hpre|].
      intros x. by apply (live_task_same_but q m).
    + by apply (live_task_same_but q m).
    + destruct Hl as [Hl|(v & Hv & Hfree)]; [by left|]. right.
      destruct Hq1 as (_ & v1 & Hv1 & _). exists v1. split; [done|].
      rewrite (Hlock ltac:(by destruct pre) v v1 Hv Hv1). exact Hfree.
    + lia.
    + exists m2. split; [|split; [|done]].
      * simpl. unfold bind at 1. unfold ret at 1. cbv beta iota.
        step_with Hturn. exact Hloop.
      * by apply (same_but_trans q m m1 m2).
Qed.

(** ** Several queues side by side *)

Lemma footprint_app Q1 Q2 : footprint (Q1 ++ Q2) = footprint Q1 ++ footprint Q2.
Proof. exact (bind_app (λ x : loc * list (loc * loc), x.2.*1) Q1 Q2). Qed.

Lemma footprint_cons x Q : footprint (x :: Q) = x.2.*1 ++ footprint Q.
Proof. exact (bind_cons (λ x : loc * list (loc * loc), x.2.*1) x Q). Qed.

Lemma footprint_allocated m Q l :
  queues_ok m Q → l ∈ footprint Q → is_Some (nodes m !! l).
Proof.
  intros (Hall & _ & _) Hin. apply list_elem_of_bind in Hin as (x & Hl & Hx).
  rewrite Forall_forall in Hall. destruct (Hall x Hx) as (_ & v & _ & Hc & _).
  by apply (chain_lookup _ _ _ _ Hc).
Qed.

Lemma queues_ok_frame m m' Q :
  queues_ok m Q →
  (∀ x, x ∈ Q → qs m' !! x.1 = qs m !! x.1) →
  (∀ l, l ∈ footprint Q → nodes m' !! l = nodes m !! l) →
  queues_ok m' Q.
Proof.
  intros (Hall & Hk & Hf) Hqs Hn. split; [|done].
  rewrite Forall_forall in *. intros x Hx.
  apply (is_queue_frame m); [by apply Hall|by apply Hqs|].
  intros l Hl. apply Hn. apply list_elem_of_bind. eauto.
Qed.

Lemma queues_ok_middle m Q1 q cs Q2 :
  queues_ok m (Q1 ++ (q, cs) :: Q2) →
  is_queue m q cs ∧
  (∀ x, x ∈ Q1 ++ Q2 → x.1 ≠ q) ∧
  (∀ l, l ∈ footprint (Q1 ++ Q2) → l ∉ cs.*1).
Proof.
  intros (Hall & Hk & Hf). split; [|split].
  - apply Forall_app in Hall as [_ Hall].
    by apply Forall_cons in Hall as [Hall _].
  - rewrite fmap_app, fmap_cons in Hk. simpl in Hk.
    apply NoDup_app in Hk as (_ & Hk1 & Hk2).
    apply NoDup_cons in Hk2 as [Hk2 _].
    intros x Hx Heq. apply elem_of_app in Hx as [Hx|Hx].
    + apply (Hk1 x.1); [by apply list_elem_of_fmap_2|].
      rewrite Heq. apply elem_of_cons. by left.
    + apply Hk2. rewrite <- Heq. by apply list_elem_of_fmap_2.
  - rewrite footprint_app, footprint_cons in Hf. simpl in Hf.
    apply NoDup_app in Hf as (_ & Hf1 & Hf2).
    apply NoDup_app in Hf2 as (_ & Hf2 & _).
    rewrite footprint_app. intros l Hl Hin.
    apply elem_of_app in Hl as [Hl|Hl].
    + apply (Hf1 l Hl). apply elem_of_app. by left.
    + by apply (Hf2 l Hin).
Qed.

(** [blocking_q_put] on one queue of a family that is not empty: the handle
    is appended to that queue, the other queues are as before. *)
Lemma put_queues_ok fuel t q data m Q1 cs Q2 :
  heap_ok m → can_alloc m →
  queues_ok m (Q1 ++ (q, cs) :: Q2) →
  cs ≠ [] → (length cs ≤ fuel)%nat →
  ∃ m', blocking_q_put fuel t q data m = Done true m' ∧
        queues_ok m' (Q1 ++ (q, cs ++ [(brk m, data)]) :: Q2) ∧
        heap_ok m' ∧ recs m' = recs m ∧ brk m' = brk m + 1 ∧
        avail m' = Nat.pred (avail m).
Proof.
  intros Hh Ha HQ Hne Hfuel.
  destruct (queues_ok_middle m Q1 q cs Q2 HQ) as (Hq & Hkeys & Hfp).
  pose proof Hq as (Hqn & v & Hv & Hc & Hs).
  destruct cs as [|c cs _] using rev_ind; [done|]. clear Hne.
  rewrite length_app in Hfuel. simpl in Hfuel.
  destruct (put_mem_is_queue t q data m v cs c) as (Hh' & Hq' & Hw); try done.
  exists (put_mem t q data v c m).
  split; [|split; [|split; [exact Hh'|by repeat split]]].
  { apply (put_step fuel t q data m v cs c); try done.
    - by apply heap_ok_fresh.
    - lia.
    - rewrite Hw, Hs, length_app. simpl. lia. }
  pose proof HQ as (Hall & Hk & Hf).
  assert (Hbelow : ∀ l, l ∈ footprint (Q1 ++ (q, cs ++ [c]) :: Q2) → l ≠ brk m).
  { intros l Hl ->. destruct (footprint_allocated m _ _ HQ Hl) as [n Hn].
    rewrite (heap_ok_fresh m Hh) in Hn. discriminate. }
  assert (Hlast : c.1 ∈ (cs ++ [c]).*1).
  { rewrite fmap_app. apply elem_of_app. right. simpl.
    by apply list_elem_of_singleton. }
  assert (Hothers : ∀ x, x ∈ Q1 ++ Q2 →
            is_queue (put_mem t q data v c m) x.1 x.2).
  { intros x Hx. apply (is_queue_frame m).
    - rewrite Forall_forall in Hall. apply Hall.
      apply elem_of_app in Hx as [Hx|Hx]; apply elem_of_app; [by left|].
      right. apply elem_of_cons. by right.
    - cbn. apply lookup_insert_ne. intros E. by apply (Hkeys x Hx).
    - intros l Hl. cbn.
      assert (Hlf : l ∈ footprint (Q1 ++ Q2)).
      { apply list_elem_of_bind. eauto. }
      rewrite !lookup_insert_ne; [done| |].
      + apply not_eq_sym, Hbelow. rewrite footprint_app in *.
        rewrite footprint_cons.
        apply elem_of_app in Hlf as [Hlf|Hlf]; apply elem_of_app; [by left|].
        right. apply elem_of_app. by right.
      + intros E. apply (Hfp l Hlf). by rewrite <- E. }
  split; [|split].
  - apply Forall_app. split; [|apply Forall_cons; split].
    + apply Forall_forall. intros x Hx. apply Hothers, elem_of_app. by left.
    + simpl. rewrite <- app_assoc. exact Hq'.
    + apply Forall_forall. intros x Hx. apply Hothers, elem_of_app. by right.
  - by rewrite fmap_app, fmap_cons in *.
  - rewrite footprint_app, footprint_cons in *. simpl in *.
    rewrite fmap_app. simpl.
    assert (Hp : footprint Q1 ++ ((cs ++ [c]).*1 ++ [brk m]) ++ footprint Q2
                 ≡ₚ brk m :: footprint Q1 ++ (cs ++ [c]).*1 ++ footprint Q2).
    { rewrite (Permutation_app_comm ((cs ++ [c]).*1) [brk m]). simpl.
      by rewrite <- Permutation_middle. }
    rewrite Hp. apply NoDup_cons. split; [|done].
    intros Hin. by apply (Hbelow _ Hin).
Qed.

(** ** The broadcast of the sentinel *)

Arguments blocking_q_put : simpl never.
Arguments for_ : simpl never.

Lemma store_task_ok p f m r :
  p ≠ NULL → recs m !! p = Some r →
  store_task p f m = Done tt (set_recs <[p := f r]> m).
Proof. intros Hp Hr. unfold store_task. run_open. run_load. reflexivity. Qed.

Lemma free_task_ok p m r :
  p ≠ NULL → recs m !! p = Some r →
  free_task p m = Done tt (set_recs (delete p) m).
Proof.
  intros Hp Hr. unfold free_task.
  destruct (Z.eqb_spec p NULL) as [|_]; [done|].
  unfold bind, gets. rewrite Hr. reflexivity.
Qed.

Lemma broadcast_loop fuel t d poison todo :
  ∀ i F m,
    tasks <$> drop i (processors d) = todo.*1 →
    heap_ok m → (length todo ≤ avail m)%nat →
    brk m + Z.of_nat (length todo) ≤ ADDR_MAX →
    queues_ok m (F ++ todo) →
    Forall (λ x, x.2 ≠ [] ∧ (length x.2 ≤ fuel)%nat) todo →
    ∃ m', for_ (seq i (length todo)) (kill_processor fuel t d poison) m
            = Done None m' ∧
          queues_ok m' (F ++ sent (brk m) poison todo) ∧
          heap_ok m' ∧ recs m' = recs m ∧
          brk m' = brk m + Z.of_nat (length todo).
Proof.
  induction todo as [|[q cs] todo IH]; intros i F m Hdrop Hh Ha Hb HQ Hne.
  - exists m. simpl. rewrite app_nil_r in *.
    split; [reflexivity|]. split; [exact HQ|]. split; [exact Hh|].
    split; [reflexivity|lia].
  - apply Forall_cons in Hne as [[Hcs Hlen] Hne]. simpl in Hcs, Hlen.
    simpl in Ha, Hb, Hdrop.
    destruct (drop i (processors d)) as [|p rest] eqn:Ed; [done|].
    simpl in Hdrop. injection Hdrop as Hp Hrest.
    assert (Hi : processors d !! i = Some p).
    { pose proof (lookup_drop (processors d) i 0) as Hl.
      rewrite Ed, Nat.add_0_r in Hl. by rewrite <- Hl. }
    rewrite (drop_S _ _ _ Hi) in Ed. injection Ed as Ed.
    assert (Hcan : can_alloc m).
    { destruct Hh as [Hb0 _]. split; lia. }
    destruct (put_queues_ok fuel t q poison m F cs todo Hh Hcan HQ Hcs Hlen)
      as (m1 & Hput & HQ1 & Hh1 & Hr1 & Hb1 & Ha1).
    destruct (IH (S i) (F ++ [(q, cs ++ [(brk m, poison)])]) m1)
      as (m2 & Hfor & HQ2 & Hh2 & Hr2 & Hb2).
    + by rewrite Ed.
    + exact Hh1.
    + lia.
    + lia.
    + by rewrite <- app_assoc.
    + exact Hne.
    + exists m2. split; [|split; [|split; [done|split]]].
      * simpl. unfold for_; fold (@for_ unit). unfold bind at 1.
        unfold kill_processor at 1. rewrite Hi, Hp.
        unfold bind at 1. rewrite Hput. exact Hfor.
      * simpl. rewrite <- app_assoc, Hb1 in HQ2. exact HQ2.
      * congruence.
      * simpl length. lia.
Qed.

Lemma scheduler_broadcast fuel t d m pre k post Q :
  sched_ready fuel m d pre k post Q →
  ∃ m1 r, scheduler_body fuel t d m = Done (brk m) m1 ∧
          scheduler fuel t d m = Done tt (set_recs (delete (brk m)) m1) ∧
          recs m1 !! brk m = Some r ∧ type r = POISON_PILL ∧
          queues_ok m1 ((sched_q d, post) :: sent (brk m + 1) (brk m) Q).
Proof.
  intros [Hh [Hav Hbrk] [Hprocs HlenQ] HQ Hpre Hk Hl Hne Hfuel].
  destruct fuel as [|f]; [lia|].
  set (sq := sched_q d) in *.
  assert (Hsq : is_queue m sq (pre ++ k :: post)).
  { destruct HQ as (Hall & _). by apply Forall_cons in Hall as [Hall _]. }
  destruct (scheduler_loop f t sq k post pre (S f) m Hh Hsq Hpre Hk Hl Hfuel)
    as (ma & Hloop & Hsame & Hsqa).
  pose proof Hsame as (N & R & B & A & Qs).
  assert (Hb0 : brk m ≠ NULL) by (destruct Hh as [? _]; unfold NULL; lia).
  (* the queues after the loop *)
  assert (HQa : queues_ok ma ((sq, post) :: Q)).
  { destruct HQ as (Hall & Hkeys & Hfp).
    apply Forall_cons in Hall as [_ Hall].
    split; [|split].
    - apply Forall_cons. split; [exact Hsqa|].
      rewrite Forall_forall in *. intros x Hx.
      apply (is_queue_frame m); [by apply Hall| |by rewrite N].
      apply Qs. intros E. simpl in Hkeys. apply NoDup_cons in Hkeys as [Hk1 _].
      apply Hk1. rewrite <- E. by apply list_elem_of_fmap_2.
    - exact Hkeys.
    - rewrite footprint_cons in *. simpl in *.
      apply (sublist_NoDup _ _ Hfp). apply sublist_app; [|done].
      rewrite fmap_app, fmap_cons.
      apply sublist_inserts_l, sublist_cons. done. }
  (* the sentinel record *)
  set (r := set_type POISON_PILL (fresh_task ma (brk m))).
  set (mb := set_recs <[brk m := r]> (bump ma)).
  assert (Hcan : can_alloc ma).
  { destruct Hh as [? _]. unfold can_alloc. rewrite A, B.
    unfold PROCESSOR_COUNT in *. lia. }
  assert (HQb : queues_ok mb ((sq, post) :: Q)).
  { apply (queues_ok_frame ma); [exact HQa|done|done]. }
  assert (Hhb : heap_ok mb).
  { destruct Hh as [Hh0 Hh1]. split; cbn; rewrite ?B, ?N.
    - unfold PROCESSOR_COUNT in *. lia.
    - intros l n Hn. specialize (Hh1 l n Hn). lia. }
  destruct (broadcast_loop (S f) t d (brk m) Q 0 [(sq, post)] mb)
    as (md & Hfor & HQd & Hhd & Hrd & Hbd).
  { exact Hprocs. }
  { exact Hhb. }
  { cbn. rewrite A, HlenQ. lia. }
  { cbn. rewrite B, HlenQ. lia. }
  { exact HQb. }
  { exact Hne. }
  assert (Hrec : recs md !! brk m = Some r).
  { rewrite Hrd. cbn. apply lookup_insert_eq. }
  assert (Hbody : scheduler_body (S f) t d m = Done (brk m) md).
  { unfold scheduler_body. fold sq. step_with Hloop.
    unfold bind at 1. rewrite (malloc_task_ok ma Hcan), B. cbv beta iota.
    unfold bind at 1.
    rewrite (store_task_ok (brk m) _ _ (fresh_task ma (brk m)));
      [|exact Hb0|cbn; apply lookup_insert_eq].
    cbv beta iota.
    replace (set_recs <[brk m:=set_type POISON_PILL (fresh_task ma (brk m))]>
               (set_recs <[brk m:=fresh_task ma (brk m)]> (bump ma)))
      with mb.
    2:{ unfold mb, r, set_recs. cbn. by rewrite insert_insert_eq. }
    rewrite HlenQ in Hfor. step_with Hfor. reflexivity. }
  exists md, r. split; [exact Hbody|].
  split; [|split; [exact Hrec|split; [reflexivity|]]].
  - unfold scheduler. step_with Hbody. unfold bind at 1.
    by rewrite (free_task_ok (brk m) md r).
  - simpl in HQd. cbn in HQd. rewrite B in HQd. exact HQd.
Qed.

(** ** What a queue holds *)

Lemma handles_chain h p cs : chain h p cs → handles (length cs) h p = cs.*2.
Proof.
  revert p. induction cs as [|c cs IH]; intros p; simpl; [done|].
  intros (-> & Hn & nx & Hl & Hc).
  destruct (Z.eqb_spec c.1 NULL) as [|_]; [done|].
  rewrite Hl. simpl. f_equal. by apply IH.
Qed.

Lemma is_queue_contents m q cs : is_queue m q cs → contents m q = cs.*2.
Proof.
  intros (_ & v & Hv & Hc & Hs). unfold contents. rewrite Hv, Hs, Nat2Z.id.
  by apply handles_chain.
Qed.

Lemma sent_contents m m' b p Q :
  Forall (λ x, is_queue m x.1 x.2) Q →
  Forall (λ x, is_queue m' x.1 x.2) (sent b p Q) →
  Forall (λ x, contents m' x.1 = contents m x.1 ++ [p]) Q.
Proof.
  revert b. induction Q as [|x Q IH]; intros b H1 H2; [constructor|].
  simpl in H2. apply Forall_cons in H1 as [H1 H1'].
  apply Forall_cons in H2 as [H2 H2']. simpl in H2.
  constructor; [|by apply (IH (b + 1))].
  rewrite (is_queue_contents m _ _ H1), (is_queue_contents m' _ _ H2).
  by rewrite fmap_app.
Qed.

(** ** The broadcast, checked *)

Ltac decide_by_computation :=
  match goal with
  | |- ?P => apply (@bool_decide_unpack P _); vm_compute; exact I
  end.

Ltac solve_chain :=
  simpl;
  repeat first
    [ reflexivity
    | discriminate
    | split
    | eexists ].

Lemma sched_mem_ready :
  sched_ready 8 sched_mem sched_dat [(10, 30)] (11, 31) []
    [(2, [(12, 32)]); (3, [(13, 33)]); (4, [(14, 34)]); (5, [(15, 35)])].
Proof.
  constructor.
  - change (0 < brk sched_mem ≤ ADDR_MAX ∧
            map_Forall (λ l (_ : blocking_q_node), 0 < l < brk sched_mem)
              (nodes sched_mem)).
    decide_by_computation.
  - split; [vm_compute; lia | vm_compute; reflexivity].
  - split; reflexivity.
  - split; [|split; decide_by_computation].
    repeat (apply Forall_cons_2 || apply Forall_nil_2).
    all: split; [discriminate|]; eexists; split; [reflexivity|].
    all: split; [|reflexivity]; solve_chain.
  - repeat constructor; try discriminate.
    eexists. split; [reflexivity|]. discriminate.
  - split; [discriminate|]. eexists. split; reflexivity.
  - right. eexists. split; reflexivity.
  - repeat constructor; simpl; (discriminate || lia).
  - simpl. lia.
Qed.

(** X28: the best case of the broadcast.  When every processor queue
    already holds an element and the scheduler can take the sentinel from
    its own queue, the scheduler stops its loop, constructs one record of
    the sentinel kind, appends the handle of that one record to the queue
    of every processor, frees the record and returns: each queue ends with
    a handle to a record that no longer exists. *)
Theorem scheduler_puts_one_shared_sentinel fuel t d m pre k post Q :
  sched_ready fuel m d pre k post Q →
  ∃ m1 r,
    scheduler_body fuel t d m = Done (brk m) m1 ∧
    recs m1 !! brk m = Some r ∧ type r = POISON_PILL ∧
    queues_ok m1 ((sched_q d, post) :: sent (brk m + 1) (brk m) Q) ∧
    Forall (λ x, contents m1 x.1 = contents m x.1 ++ [brk m]) Q ∧
    scheduler fuel t d m = Done tt (set_recs (delete (brk m)) m1).
Proof.
  intros Hready.
  destruct (scheduler_broadcast fuel t d m pre k post Q Hready)
    as (m1 & r & Hbody & Hsched & Hrec & Hty & HQ).
  exists m1, r. repeat split; try done; try apply HQ.
  apply (sent_contents m m1 (brk m + 1)).
  - destruct Hready as [_ _ _ (Hall & _) _ _ _ _ _].
    by apply Forall_cons in Hall as [_ Hall].
  - destruct HQ as (Hall & _). by apply Forall_cons in Hall as [_ Hall].
Qed.

Lemma scheduler_puts_one_shared_sentinel_witness :
  ∃ m1 r,
    scheduler_body 8 0%nat sched_dat sched_mem = Done (brk sched_mem) m1 ∧
    recs m1 !! brk sched_mem = Some r ∧ type r = POISON_PILL ∧
    queues_ok m1
      ((sched_q sched_dat, []) ::
       sent (brk sched_mem + 1) (brk sched_mem)
         [(2, [(12, 32)]); (3, [(13, 33)]); (4, [(14, 34)]); (5, [(15, 35)])]) ∧
    Forall (λ x, contents m1 x.1 = contents sched_mem x.1 ++ [brk sched_mem])
      [(2, [(12, 32)]); (3, [(13, 33)]); (4, [(14, 34)]); (5, [(15, 35)])] ∧
    scheduler 8 0%nat sched_dat sched_mem =
      Done tt (set_recs (delete (brk sched_mem)) m1).
Proof.
  apply (scheduler_puts_one_shared_sentinel 8 0%nat sched_dat sched_mem
           [(10, 30)] (11, 31) []).
  exact sched_mem_ready.
Defined.

(** * More of the code *)

(** ** Properties kept wherever a run stops *)

Section Keeps.

Context (I : mem → Prop).

Lemma keeps_ret {A} (a : A) : keeps I (ret a).
Proof. intros m H. exact H. Qed.

Lemma keeps_crash {A} f : keeps I (@crash A f).
Proof. intros m H. exact H. Qed.

Lemma keeps_suspend {A} w : keeps I (@suspend A w).
Proof. intros m H. exact H. Qed.

Lemma keeps_gets {A} (f : mem → A) : keeps I (gets f).
Proof. intros m H. exact H. Qed.

Lemma keeps_modify (f : mem → mem) : (∀ m, I m → I (f m)) → keeps I (modify f).
Proof. intros Hf m Hm. simpl. auto. Qed.

Lemma keeps_bind {A B} (c : M A) (k : A → M B) :
  keeps I c → (∀ a, keeps I (k a)) → keeps I (bind c k).
Proof.
  intros Hc Hk m Hm. specialize (Hc m Hm). unfold bind.
  destruct (c m) as [a m1|f m1|w m1|]; simpl in *; auto.
  apply Hk, Hc.
Qed.

(** The continuation may use what the first part returned and where. *)
Lemma keeps_bind_with {A B} (c : M A) (k : A → M B) :
  keeps I c →
  (∀ m a m1, I m → c m = Done a m1 → I m1 → wherever (k a m1) I) →
  keeps I (bind c k).
Proof.
  intros Hc Hk m Hm. pose proof (Hc m Hm) as H1. unfold bind.
  destruct (c m) as [a m1|f m1|w m1|] eqn:E; simpl in *; auto.
  by apply (Hk m).
Qed.

Lemma keeps_while {A} fuel (c : A → M bool) (body : A → M A) a :
  (∀ a, keeps I (c a)) → (∀ a, keeps I (body a)) →
  keeps I (while_ fuel c body a).
Proof.
  intros Hc Hb. revert a. induction fuel as [|fuel IH]; intros a; simpl.
  - intros m _. exact Logic.I.
  - apply keeps_bind; [apply Hc|]. intros [|]; [|apply keeps_ret].
    apply keeps_bind; [apply Hb|]. exact IH.
Qed.

Lemma keeps_load {A} (h : mem → gmap Z A) p : keeps I (load h p).
Proof.
  unfold load. destruct (p =? NULL); [apply keeps_crash|].
  apply keeps_bind; [apply keeps_gets|].
  intros [a|]; [apply keeps_ret|apply keeps_crash].
Qed.

Lemma keeps_printf msg : on_emit I → keeps I (printf msg).
Proof. intros He. apply keeps_modify. intros m. apply He. Qed.

Lemma keeps_malloc : on_bump I → keeps I malloc.
Proof.
  intros Hb m Hm. unfold malloc.
  destruct (_ && _); simpl; [|exact Hm]. by apply Hb.
Qed.

Lemma keeps_incr_int c : keeps I (incr_int c).
Proof.
  unfold incr_int. destruct (c <? INT_MAX); [apply keeps_ret|apply keeps_crash].
Qed.

Lemma keeps_store_q R q f :
  on_queue_write R I → (∀ v, R v (f v)) → keeps I (store_q q f).
Proof.
  intros Hw Hf. unfold store_q. apply keeps_bind_with; [apply keeps_load|].
  intros m v m1 _ E Hm1. apply load_Done_inv in E as (-> & _ & Hv).
  simpl. by apply (Hw q v).
Qed.

Lemma keeps_store_node p f : on_node_write I → keeps I (store_node p f).
Proof.
  intros Hw. unfold store_node. apply keeps_bind; [apply keeps_load|].
  intros n. apply keeps_modify. intros m. apply Hw.
Qed.

Lemma keeps_store_buf p i x :
  (p ≠ NULL → on_buf_write p I) → keeps I (store_buf p i x).
Proof.
  intros Hw. unfold store_buf. apply keeps_bind_with; [apply keeps_load|].
  intros m b m1 _ E Hm1. apply load_Done_inv in E as (-> & Hp & Hb).
  destruct (_ && _); simpl; [|exact Hm1]. by apply Hw.
Qed.

Lemma keeps_read_sz t q : on_emit I → keeps I (read_sz t q).
Proof.
  intros He. unfold read_sz. apply keeps_bind; [apply keeps_load|]. intros v.
  apply keeps_bind; [|intros; apply keeps_ret].
  apply keeps_modify. intros m. apply He.
Qed.

Lemma keeps_read_first q : keeps I (read_first q).
Proof.
  unfold read_first. apply keeps_bind; [apply keeps_load|].
  intros; apply keeps_ret.
Qed.

Lemma keeps_mutex_lock t q :
  on_queue_write any_change I → keeps I (pthread_mutex_lock t q).
Proof.
  intros Hw. unfold pthread_mutex_lock.
  apply keeps_bind; [apply keeps_load|]. intros v.
  destruct (lock v); [apply keeps_crash| |apply keeps_suspend].
  apply keeps_bind; [|intros; apply keeps_ret].
  by apply (keeps_store_q any_change).
Qed.

Lemma keeps_cond_wait t q :
  on_queue_write any_change I → keeps I (pthread_cond_wait t q).
Proof.
  intros Hw. unfold pthread_cond_wait.
  apply keeps_bind; [apply keeps_load|]. intros v.
  destruct (cond v); [apply keeps_crash|].
  destruct (holds t (lock v)); [|apply keeps_crash].
  apply keeps_bind; [|intros; apply keeps_suspend].
  by apply (keeps_store_q any_change).
Qed.

Lemma keeps_cond_signal q : on_emit I → keeps I (pthread_cond_signal q).
Proof.
  intros He. unfold pthread_cond_signal.
  apply keeps_bind; [apply keeps_load|]. intros v.
  destruct (cond v); [apply keeps_crash|].
  apply keeps_bind; [|intros; apply keeps_ret].
  apply keeps_modify. intros m. apply He.
Qed.

(** *** The operations that only move the count and the head pointer *)

Section DataOnly.

Hypothesis Hemit : on_emit I.
Hypothesis Hdata : on_queue_write same_primitives I.

Lemma keeps_write_sz t q z : keeps I (write_sz t q z).
Proof.
  unfold write_sz. apply keeps_bind; [apply keeps_load|]. intros v.
  apply keeps_bind; [apply keeps_modify; intros m; apply Hemit|]. intros _.
  by apply (keeps_store_q same_primitives).
Qed.

Lemma keeps_write_first t q p : keeps I (write_first t q p).
Proof.
  unfold write_first. apply keeps_bind; [apply keeps_load|]. intros v.
  apply keeps_bind; [apply keeps_modify; intros m; apply Hemit|]. intros _.
  by apply (keeps_store_q same_primitives).
Qed.

Lemma keeps_take t q : keeps I (__blocking_q_take t q).
Proof.
  unfold __blocking_q_take.
  apply keeps_bind; [apply keeps_read_first|]. intros p.
  apply keeps_bind; [apply keeps_load|]. intros n.
  apply keeps_bind; [apply keeps_write_first|]. intros _.
  apply keeps_bind; [by apply keeps_read_sz|]. intros s.
  apply keeps_bind; [apply keeps_write_sz|]. intros _. apply keeps_ret.
Qed.

Lemma keeps_take_all fuel t q data counter :
  (data ≠ NULL → on_buf_write data I) →
  keeps I (take_all fuel t q data counter).
Proof.
  intros Hbuf. unfold take_all. apply keeps_while.
  - intros _. apply keeps_bind; [by apply keeps_read_sz|].
    intros; apply keeps_ret.
  - intros c. apply keeps_bind; [apply keeps_take|]. intros x.
    apply keeps_bind; [by apply keeps_store_buf|]. intros _.
    apply keeps_incr_int.
Qed.

Lemma keeps_last_node fuel p : keeps I (last_node fuel p).
Proof.
  unfold last_node. apply keeps_while; intros c;
    (apply keeps_bind; [apply keeps_load|]); intros; apply keeps_ret.
Qed.

Lemma keeps_put fuel t q data :
  on_bump I → on_node_write I → keeps I (blocking_q_put fuel t q data).
Proof.
  intros Hb Hn. unfold blocking_q_put.
  apply keeps_bind.
  { unfold malloc_node. apply keeps_bind; [by apply keeps_malloc|].
    intros p. destruct (p =? NULL); [apply keeps_ret|].
    apply keeps_bind; [|intros; apply keeps_ret].
    apply keeps_modify. intros m. apply Hn. }
  intros p. destruct (p =? NULL); [apply keeps_ret|].
  apply keeps_bind; [by apply keeps_store_node|]. intros _.
  apply keeps_bind; [by apply keeps_store_node|]. intros _.
  apply keeps_bind; [apply keeps_read_first|]. intros c0.
  apply keeps_bind; [apply keeps_last_node|]. intros c1.
  apply keeps_bind.
  { unfold write_next. apply keeps_bind; [apply keeps_load|]. intros v.
    apply keeps_bind; [by apply keeps_store_node|]. intros _.
    apply keeps_modify. intros m. apply Hemit. }
  intros _. apply keeps_bind; [by apply keeps_read_sz|]. intros s.
  apply keeps_bind; [apply keeps_write_sz|]. intros _.
  apply keeps_bind; [by apply keeps_read_sz|]. intros s1.
  apply keeps_bind; [|intros; apply keeps_ret].
  destruct (s1 =? 1); [|apply keeps_ret].
  apply keeps_bind; [by apply keeps_cond_signal|]. intros; apply keeps_ret.
Qed.

End DataOnly.

End Keeps.

Lemma on_queue_write_weaken (R R' : blocking_q → blocking_q → Prop) I :
  (∀ v v', R' v v' → R v v') → on_queue_write R I → on_queue_write R' I.
Proof. intros HR Hw q v v' m Hv Hr. apply (Hw q v v' m Hv). by apply HR. Qed.

Section KeepsLocking.

Context (I : mem → Prop).
Hypothesis Hemit : on_emit I.
Hypothesis Hany : on_queue_write any_change I.

Lemma any_change_data : on_queue_write same_primitives I.
Proof. by apply (on_queue_write_weaken any_change). Qed.

Lemma keeps_wait_while fuel t q (c : unit → M bool) :
  (∀ a, keeps I (c a)) →
  keeps I (while_ fuel c (fun _ => pthread_cond_wait t q ;; ret tt) tt).
Proof.
  intros Hc. apply keeps_while; [exact Hc|]. intros _.
  apply keeps_bind; [by apply keeps_cond_wait|]. intros; apply keeps_ret.
Qed.

Lemma keeps_get fuel t q : keeps I (blocking_q_get fuel t q).
Proof.
  unfold blocking_q_get. apply keeps_bind.
  { apply keeps_wait_while. intros _.
    apply keeps_bind; [by apply keeps_read_sz|]. intros; apply keeps_ret. }
  intros _. apply keeps_bind.
  { apply keeps_take; [exact Hemit|exact any_change_data]. }
  intros x. apply keeps_bind; [by apply keeps_read_sz|]. intros s.
  apply keeps_bind; [|intros; apply keeps_ret].
  destruct (s =? 0); [|apply keeps_ret].
  apply keeps_bind; [by apply keeps_mutex_lock|]. intros; apply keeps_ret.
Qed.

Lemma keeps_drain_rounds rounds fuel t q data min counter :
  (data ≠ NULL → on_buf_write data I) →
  keeps I (drain_rounds rounds fuel t q data min counter).
Proof.
  intros Hbuf. revert counter.
  induction rounds as [|rounds IH]; intros counter; simpl.
  - intros m _. exact Logic.I.
  - apply keeps_bind.
    { apply keeps_take_all; [exact Hemit|exact any_change_data|exact Hbuf]. }
    intros c. apply keeps_bind; [by apply keeps_mutex_lock|]. intros _.
    destruct (wrap c <? min); [|apply keeps_ret].
    apply keeps_bind; [|intros; apply IH].
    apply keeps_wait_while. intros _.
    apply keeps_bind; [by apply keeps_read_sz|]. intros; apply keeps_ret.
Qed.

Lemma keeps_drain_at_least fuel t q data n min :
  (data ≠ NULL → on_buf_write data I) →
  keeps I (blocking_q_drain_at_least fuel t q data n min).
Proof. apply keeps_drain_rounds. Qed.

(** What [malloc_buf] may do: nothing, an allocation, or an allocation
    with a new buffer at the address it returns. *)
Hypothesis Hbump : on_bump I.
Hypothesis Hnew : ∀ b m, I m → I (set_bufs <[brk m := b]> (bump m)).

Lemma keeps_malloc_buf n : keeps I (malloc_buf n).
Proof.
  intros m Hm. unfold malloc_buf, bind, malloc.
  destruct (_ && _); simpl.
  - destruct (brk m =? NULL); simpl; [by apply Hbump|]. by apply Hnew.
  - exact Hm.
Qed.

Lemma keeps_peek t q c : keeps I (blocking_q_peek t q c).
Proof.
  unfold blocking_q_peek.
  apply keeps_bind; [by apply keeps_read_sz|]. intros s.
  destruct (s =? 0); [apply keeps_ret|].
  apply keeps_bind; [apply keeps_malloc_buf|]. intros _.
  apply keeps_bind; [apply keeps_read_first|]. intros; apply keeps_ret.
Qed.

Lemma keeps_drain fuel t q data n :
  (∀ p, on_buf_write p I) → keeps I (blocking_q_drain fuel t q data n).
Proof.
  intros Hbuf. unfold blocking_q_drain.
  apply keeps_bind; [by apply keeps_read_sz|]. intros s.
  destruct (s =? 0); [apply keeps_ret|].
  apply keeps_bind; [apply keeps_malloc_buf|]. intros b.
  apply keeps_bind.
  { apply keeps_take_all; [exact Hemit|exact any_change_data|]. intros _.
    apply Hbuf. }
  intros _. apply keeps_bind; [by apply keeps_mutex_lock|].
  intros; apply keeps_ret.
Qed.

Lemma keeps_init e t q : keeps I (blocking_q_init e t q).
Proof.
  assert (Hp : ∀ err : Z,
             keeps I (if negb (err =? 0) then printf "ERROR" else ret tt)).
  { intros err. destruct (negb _); [by apply keeps_printf|apply keeps_ret]. }
  unfold blocking_q_init.
  apply keeps_bind.
  { apply keeps_write_sz; [exact Hemit|exact any_change_data]. }
  intros _. apply keeps_bind.
  { apply keeps_write_first; [exact Hemit|exact any_change_data]. }
  intros _. apply keeps_bind.
  { unfold pthread_mutex_init. destruct (_ =? 0).
    - apply keeps_bind; [by apply (keeps_store_q I any_change)|].
      intros; apply keeps_ret.
    - apply keeps_bind; [apply keeps_load|]. intros; apply keeps_ret. }
  intros err. apply keeps_bind; [apply Hp|]. intros _.
  apply keeps_bind.
  { unfold pthread_cond_init. destruct (_ =? 0).
    - apply keeps_bind; [by apply (keeps_store_q I any_change)|].
      intros; apply keeps_ret.
    - apply keeps_bind; [apply keeps_load|]. intros; apply keeps_ret. }
  intros err2. apply keeps_bind; [apply Hp|]. intros _.
  apply keeps_bind; [by apply keeps_mutex_lock|]. intros; apply keeps_ret.
Qed.

End KeepsLocking.

(** ** What the queue operations never touch *)

(** X1: no queue operation reads, writes or frees a task record: wherever
    [blocking_q_init], [blocking_q_put], [blocking_q_get],
    [blocking_q_drain], [blocking_q_drain_at_least] or [blocking_q_peek]
    stops, the task records are what they were. *)
Theorem queue_operations_leave_task_records e fuel t q data n min c m :
  wherever (blocking_q_init e t q m) (λ m', recs m' = recs m) ∧
  wherever (blocking_q_put fuel t q data m) (λ m', recs m' = recs m) ∧
  wherever (blocking_q_get fuel t q m) (λ m', recs m' = recs m) ∧
  wherever (blocking_q_drain fuel t q data n m) (λ m', recs m' = recs m) ∧
  wherever (blocking_q_drain_at_least fuel t q data n min m)
    (λ m', recs m' = recs m) ∧
  wherever (blocking_q_peek t q c m) (λ m', recs m' = recs m).
Proof.
  set (I := λ m' : mem, recs m' = recs m).
  assert (He : on_emit I) by (by intros ev m1 H).
  assert (Hb : on_bump I) by (by intros m1 H).
  assert (Hn : on_node_write I) by (by intros p x m1 H).
  assert (Hw : ∀ p, on_buf_write p I) by (by intros p b m1 H).
  assert (Hq : on_queue_write any_change I) by (by intros q0 v v' m1 _ _ H).
  assert (Hnew : ∀ b m1, I m1 → I (set_bufs <[brk m1 := b]> (bump m1)))
    by (by intros b m1 H).
  assert (H0 : I m) by reflexivity.
  repeat split.
  - by apply (keeps_init I).
  - apply (keeps_put I); try done. by apply any_change_data.
  - by apply (keeps_get I).
  - by apply (keeps_drain I).
  - apply (keeps_drain_at_least I); try done; intros _; apply Hw.
  - by apply (keeps_peek I).
Qed.

(** X2: the operations that remove elements never free or change a node:
    wherever [blocking_q_get], [blocking_q_drain],
    [blocking_q_drain_at_least] or [blocking_q_peek] stops, the node heap
    is what it was, so the node of every removed element stays allocated. *)
Theorem removing_operations_leave_nodes fuel t q data n min c m :
  wherever (blocking_q_get fuel t q m) (λ m', nodes m' = nodes m) ∧
  wherever (blocking_q_drain fuel t q data n m) (λ m', nodes m' = nodes m) ∧
  wherever (blocking_q_drain_at_least fuel t q data n min m)
    (λ m', nodes m' = nodes m) ∧
  wherever (blocking_q_peek t q c m) (λ m', nodes m' = nodes m).
Proof.
  set (I := λ m' : mem, nodes m' = nodes m).
  assert (He : on_emit I) by (by intros ev m1 H).
  assert (Hb : on_bump I) by (by intros m1 H).
  assert (Hw : ∀ p, on_buf_write p I) by (by intros p b m1 H).
  assert (Hq : on_queue_write any_change I) by (by intros q0 v v' m1 _ _ H).
  assert (Hnew : ∀ b m1, I m1 → I (set_bufs <[brk m1 := b]> (bump m1)))
    by (by intros b m1 H).
  assert (H0 : I m) by reflexivity.
  repeat split.
  - by apply (keeps_get I).
  - by apply (keeps_drain I).
  - apply (keeps_drain_at_least I); try done; intros _; apply Hw.
  - by apply (keeps_peek I).
Qed.

(** X3: [blocking_q_drain] never writes to a buffer that existed before the
    call, the one its caller passed included: wherever it stops, every
    buffer at an address the allocator had handed out is unchanged. *)
Theorem blocking_q_drain_leaves_buffers fuel t q data n m :
  0 < brk m →
  wherever (blocking_q_drain fuel t q data n m)
    (λ m', ∀ b, b < brk m → bufs m' !! b = bufs m !! b).
Proof.
  intros Hbrk.
  set (I := λ m' : mem,
         brk m ≤ brk m' ∧ ∀ b, b < brk m → bufs m' !! b = bufs m !! b).
  assert (He : on_emit I) by (by intros ev m1 H).
  assert (Hb : on_bump I).
  { intros m1 [H1 H2]. split; [cbn; lia|exact H2]. }
  assert (Hq : on_queue_write any_change I) by (by intros q0 v v' m1 _ _ H).
  assert (Hw : ∀ p, brk m ≤ p → on_buf_write p I).
  { intros p Hp b m1 [H1 H2]. split; [exact H1|]. intros b0 Hb0. cbn.
    rewrite lookup_insert_ne by lia. by apply H2. }
  assert (Hnew : ∀ b m1, I m1 → I (set_bufs <[brk m1 := b]> (bump m1))).
  { intros b m1 [H1 H2]. split; [cbn; lia|]. intros b0 Hb0. cbn.
    rewrite lookup_insert_ne by lia. by apply H2. }
  assert (H0 : I m) by (split; [lia|done]).
  assert (Hk : keeps I (blocking_q_drain fuel t q data n)).
  { unfold blocking_q_drain.
    apply keeps_bind; [by apply keeps_read_sz|]. intros s.
    destruct (s =? 0); [apply keeps_ret|].
    apply keeps_bind_with; [by apply keeps_malloc_buf|].
    intros m1 p m2 [Hm1 _] E Hm2.
    assert (Hp : p = NULL ∨ brk m ≤ p).
    { unfold malloc_buf, bind, malloc in E.
      destruct (_ && _); simpl in E.
      - destruct (brk m1 =? NULL) eqn:E0; simpl in E; injection E as <- _;
          first [by left|by right].
      - injection E as <- _. by left. }
    apply (keeps_bind I); [| |exact Hm2].
    - apply keeps_take_all; [exact He|by apply any_change_data|].
      intros Hnn. apply Hw. by destruct Hp.
    - intros _. apply keeps_bind; [by apply keeps_mutex_lock|].
      intros; apply keeps_ret. }
  specialize (Hk m H0).
  destruct (blocking_q_drain fuel t q data n m); simpl in *; try done;
    apply Hk.
Qed.

Lemma blocking_q_drain_leaves_buffers_witness :
  0 < brk (three_mem MFree 3) ∧
  wherever (blocking_q_drain 8 0%nat 1 5 3 (three_mem MFree 3))
    (λ m', ∀ b, b < brk (three_mem MFree 3) →
                bufs m' !! b = bufs (three_mem MFree 3) !! b).
Proof.
  split; [vm_compute; reflexivity|].
  apply (blocking_q_drain_leaves_buffers 8 0%nat 1 5 3 (three_mem MFree 3)).
  vm_compute. reflexivity.
Defined.

(** ** [blocking_q_init], whatever the system answers *)

(** X4: whenever [blocking_q_init] returns, whatever the system answered
    and whatever the queue object held, it returns [false] and leaves the
    queue empty, with count zero, and its lock held by the caller. *)
Theorem blocking_q_init_postcondition e t q m b m' :
  blocking_q_init e t q m = Done b m' →
  b = false ∧
  ∃ v', qs m' !! q = Some v' ∧ sz v' = 0 ∧ first v' = NULL ∧
        lock v' = MHeld t ∧ is_queue m' q [].
Proof.
  intros H.
  destruct (decide (q = NULL)) as [->|Hq]; [discriminate H|].
  destruct (qs m !! q) as [v|] eqn:Hv.
  - rewrite (blocking_q_init_outcome e t q m v Hq Hv) in H. cbv zeta in H.
    destruct (if mutex_init_ret e =? 0 then MFree else lock v);
      try discriminate H.
    injection H as <- <-. split; [done|].
    eexists. split; [cbn; apply lookup_insert_eq|]. cbn.
    repeat split; try done.
    eexists. split; [cbn; apply lookup_insert_eq|]. by cbn.
  - unfold blocking_q_init, write_sz, load_q, load in H.
    destruct (Z.eqb_spec q NULL) as [|_]; [done|].
    unfold bind, gets in H. rewrite Hv in H. discriminate H.
Qed.

Lemma blocking_q_init_postcondition_witness :
  false = false ∧
  ∃ v', qs initialised_mem !! 1 = Some v' ∧ sz v' = 0 ∧ first v' = NULL ∧
        lock v' = MHeld 0%nat ∧ is_queue initialised_mem 1 [].
Proof.
  apply (blocking_q_init_postcondition env_ok 0%nat 1 fresh_mem).
  vm_compute. reflexivity.
Defined.

(** X5: a condition variable that cannot be created does not stop
    [blocking_q_init]: when the mutex is created, the function prints
    ERROR, takes the lock and returns the same [false], leaving the
    condition variable as it was. *)
Theorem blocking_q_init_goes_on_without_cond e t q m v :
  q ≠ NULL → qs m !! q = Some v →
  mutex_init_ret e = 0 → cond_init_ret e ≠ 0 →
  ∃ m', blocking_q_init e t q m = Done false m' ∧
        qs m' !! q = Some (Queue 0 NULL (MHeld t) (cond v)) ∧
        log m' = log m ++ [EvSz t q (holds t (lock v));
                           EvLink t q (holds t (lock v)); EvPrintf "ERROR"].
Proof.
  intros Hq Hv Hm Hc.
  rewrite (blocking_q_init_outcome e t q m v Hq Hv). cbv zeta.
  rewrite Hm. destruct (Z.eqb_spec (cond_init_ret e) 0) as [|_]; [done|].
  simpl. eexists. split; [reflexivity|].
  split; [cbn; apply lookup_insert_eq|reflexivity].
Qed.

Lemma blocking_q_init_goes_on_without_cond_witness :
  ∃ m', blocking_q_init (Env 0 12 (fun _ => 0)) 0%nat 1 fresh_mem
          = Done false m' ∧
        qs m' !! 1 = Some (Queue 0 NULL (MHeld 0%nat) CUninit) ∧
        log m' = log fresh_mem ++ [EvSz 0%nat 1 false; EvLink 0%nat 1 false;
                                   EvPrintf "ERROR"].
Proof.
  apply (blocking_q_init_goes_on_without_cond (Env 0 12 (fun _ => 0)) 0%nat 1
           fresh_mem (Queue 0 NULL MUninit CUninit)).
  - discriminate.
  - vm_compute. reflexivity.
  - reflexivity.
  - discriminate.
Defined.

(** ** A lock that is held *)

(** The lock of the queue at [q] is held by thread [o]. *)
Lemma lock_held_kept q o :
  let I := λ m : mem, ∃ v, qs m !! q = Some v ∧ lock v = MHeld o in
  on_emit I ∧ on_bump I ∧ on_queue_write same_primitives I ∧
  ∀ p, on_buf_write p I.
Proof.
  cbv zeta. repeat split.
  - by intros ev m H.
  - by intros m H.
  - intros q0 v v' m Hv [Hl _] (v0 & Hv0 & Hl0).
    destruct (decide (q0 = q)) as [->|Hne].
    + exists v'. split; [cbn; apply lookup_insert_eq|].
      rewrite Hv in Hv0. injection Hv0 as <-. congruence.
    + exists v0. split; [cbn; by rewrite lookup_insert_ne|done].
  - by intros p b m H.
Qed.

(** X6: while the lock of a queue is held by any thread, the caller
    included, [blocking_q_drain_at_least] never returns, and
    [blocking_q_drain] returns only when the count is zero. *)
Theorem held_lock_stops_the_drains fuel t q data n min m v o :
  qs m !! q = Some v → lock v = MHeld o →
  returned (blocking_q_drain_at_least fuel t q data n min m) = None ∧
  (sz v ≠ 0 → returned (blocking_q_drain fuel t q data n m) = None).
Proof.
  intros Hv Hl.
  destruct (lock_held_kept q o) as (He & Hb & Hd & Hw).
  set (I := λ m : mem, ∃ v, qs m !! q = Some v ∧ lock v = MHeld o) in *.
  assert (H0 : I m) by (by exists v).
  assert (Hlock : ∀ m1, I m1 → returned (pthread_mutex_lock t q m1) = None).
  { intros m1 (v1 & Hv1 & Hl1). unfold pthread_mutex_lock, bind at 1.
    unfold load_q, load. destruct (q =? NULL); [done|].
    unfold bind, gets. rewrite Hv1. cbn. by rewrite Hl1. }
  assert (Htake : ∀ p c m1, I m1 →
            returned ((take_all fuel t q p c ;; pthread_mutex_lock t q) m1)
              = None).
  { intros p c m1 Hm1.
    pose proof (keeps_take_all I He Hd fuel t q p c (λ _, Hw p) m1 Hm1) as Hk.
    unfold bind. destruct (take_all fuel t q p c m1); simpl in *; try done.
    by apply Hlock. }
  split.
  - unfold blocking_q_drain_at_least. destruct fuel as [|r]; [done|].
    assert (Hr : ∀ rounds,
              returned (drain_rounds (S rounds) (S r) t q data min 0 m) = None).
    { intros rounds. simpl drain_rounds.
      specialize (Htake data 0 m H0). unfold bind in *.
      destruct (take_all (S r) t q data 0 m); simpl in *; try done.
      destruct (pthread_mutex_lock t q m0); simpl in *; done. }
    apply Hr.
  - intros Hsz. unfold blocking_q_drain, bind at 1, read_sz, bind at 1.
    unfold load_q, load. destruct (q =? NULL); [done|].
    unfold bind at 1, gets. rewrite Hv. cbn.
    destruct (Z.eqb_spec (sz v) 0) as [|_]; [done|].
    unfold bind at 1.
    match goal with
    | |- context [malloc_buf n ?m1] =>
        assert (H1 : I m1) by (by exists v);
        pose proof (keeps_malloc_buf I Hb (λ b m2 H, H) n m1 H1) as Hk
    end.
    destruct (malloc_buf n _) as [p m2| | |]; simpl in *; try done.
    specialize (Htake p 0 m2 Hk). unfold bind in *.
    destruct (take_all fuel t q p 0 m2); simpl in *; try done.
    destruct (pthread_mutex_lock t q m0); simpl in *; done.
Qed.

Lemma held_lock_stops_the_drains_witness :
  returned (blocking_q_drain_at_least 8 1%nat 1 5 3 1
              (three_mem (MHeld 0%nat) 3)) = None ∧
  (sz (Queue 3 2 (MHeld 0%nat) CReady) ≠ 0 →
   returned (blocking_q_drain 8 1%nat 1 5 3 (three_mem (MHeld 0%nat) 3))
     = None).
Proof.
  apply (held_lock_stops_the_drains 8 1%nat 1 5 3 1
           (three_mem (MHeld 0%nat) 3) (Queue 3 2 (MHeld 0%nat) CReady)
           0%nat).
  - vm_compute. reflexivity.
  - reflexivity.
Defined.

(** ** [__blocking_q_take] *)

Lemma take_mem_same_but t q v nx m : same_but q m (take_mem t q v nx m).
Proof.
  repeat split; cbn; try done. intros q' Hq'. by rewrite lookup_insert_ne.
Qed.

(** X7: on a well-formed queue that is not empty, [__blocking_q_take]
    returns the handle of the first cell and leaves the other cells queued,
    in their order; the node it unlinked is not freed, and nothing but the
    queue object changes. *)
Theorem take_returns_the_first_cell t q m c cs :
  heap_ok m → is_queue m q (c :: cs) →
  ∃ m', __blocking_q_take t q m = Done c.2 m' ∧
        is_queue m' q cs ∧ heap_ok m' ∧ same_but q m m' ∧
        ∃ nx, nodes m' !! c.1 = Some (Node c.2 nx).
Proof.
  intros Hh (Hqn & v & Hv & Hc & Hs).
  pose proof Hc as (Hf & Hn & nx & Hnode & Hrest).
  destruct (take_mem_is_queue t q m v c cs nx) as [Hh1 Hq1]; try done.
  exists (take_mem t q v nx m). split.
  - by apply (take_step t q m v c.1 c.2 nx).
  - split; [exact Hq1|]. split; [exact Hh1|].
    split; [apply take_mem_same_but|]. by exists nx.
Qed.

Lemma take_returns_the_first_cell_witness :
  ∃ m', __blocking_q_take 0%nat 1 (three_mem MFree 3) = Done 50 m' ∧
        is_queue m' 1 [(3, 60); (4, 70)] ∧ heap_ok m' ∧
        same_but 1 (three_mem MFree 3) m' ∧
        ∃ nx, nodes m' !! 2 = Some (Node 50 nx).
Proof.
  apply (take_returns_the_first_cell 0%nat 1 (three_mem MFree 3) (2, 50)
           [(3, 60); (4, 70)]).
  - split; [unfold ADDR_MAX; cbn; lia|].
    apply (@bool_decide_unpack
             (map_Forall (λ l _, 0 < l < brk (three_mem MFree 3))
                (nodes (three_mem MFree 3))) _).
    vm_compute. exact I.
  - apply three_mem_is_queue.
Defined.

(** X8: on a queue whose head pointer is [NULL], [__blocking_q_take]
    reads [first->data] through the null pointer, before it has changed
    anything. *)
Theorem take_on_empty_queue_faults t q m v :
  q ≠ NULL → qs m !! q = Some v → first v = NULL →
  __blocking_q_take t q m = Fault NullDeref m.
Proof.
  intros Hq Hv Hf. unfold __blocking_q_take. run_open. run_load.
  rewrite Hf. reflexivity.
Qed.

Lemma take_on_empty_queue_faults_witness :
  __blocking_q_take 0%nat 1 initialised_mem = Fault NullDeref initialised_mem.
Proof.
  apply (take_on_empty_queue_faults 0%nat 1 initialised_mem
           (Queue 0 NULL (MHeld 0%nat) CReady)).
  - discriminate.
  - vm_compute. reflexivity.
  - reflexivity.
Defined.

(** ** [blocking_q_put] *)

Lemma put_fuel_short fuel t q data m v cs c :
  q ≠ NULL → qs m !! q = Some v → chain (nodes m) (first v) (cs ++ [c]) →
  can_alloc m → nodes m !! brk m = None → (fuel ≤ length cs)%nat →
  blocking_q_put fuel t q data m = Diverge.
Proof.
  intros Hq Hv Hc Ha Hfresh Hfuel.
  assert (Hb : brk m ≠ NULL) by (destruct Ha as [_ [? _]]; unfold NULL; lia).
  unfold blocking_q_put. unfold bind at 1. rewrite (malloc_node_ok m Ha).
  destruct (Z.eqb_spec (brk m) NULL) as [|_]; [done|].
  run_open. repeat run_load. mem_norm. rewrite !insert_insert_eq.
  match goal with
  | |- context [last_node fuel (first v) ?m1] =>
      assert (Hwalk : last_node fuel (first v) m1 = Diverge)
  end.
  { apply last_node_chain with (cs := cs) (c := c); [|exact Hfuel]. cbn.
    apply (chain_frame (nodes m)); [exact Hc|].
    intros l Hin. apply lookup_insert_ne. intros <-.
    destruct (chain_lookup _ _ _ _ Hc Hin) as [n Hn]. congruence. }
  rewrite Hwalk. reflexivity.
Qed.

Lemma put_no_memory fuel t q data m :
  ¬ can_alloc m → 0 < brk m → blocking_q_put fuel t q data m = Done false m.
Proof.
  intros Ha Hb. unfold blocking_q_put. unfold bind at 1.
  rewrite (malloc_node_fail m Ha Hb). reflexivity.
Qed.

(** X9: when no memory is left, [blocking_q_put] returns [false] and has
    changed nothing: not the queue, not the log. *)
Theorem blocking_q_put_out_of_memory fuel t q data m :
  avail m = 0%nat → 0 < brk m →
  blocking_q_put fuel t q data m = Done false m.
Proof.
  intros Ha Hb. apply put_no_memory; [|done].
  unfold can_alloc. lia.
Qed.

Lemma blocking_q_put_out_of_memory_witness :
  blocking_q_put 8 0%nat 1 80
    (MemOf (qs (three_mem MFree 3)) (nodes (three_mem MFree 3)) ∅ ∅ 6 0%nat []
       zeros)
  = Done false
    (MemOf (qs (three_mem MFree 3)) (nodes (three_mem MFree 3)) ∅ ∅ 6 0%nat []
       zeros).
Proof.
  apply (blocking_q_put_out_of_memory 8 0%nat 1 80).
  - reflexivity.
  - reflexivity.
Defined.

(** X10: in a family of well-formed queues that share no node,
    [blocking_q_put] on a queue that is not empty returns [true], appends
    the handle behind the handles already queued, and leaves the contents
    of every other queue and all task records as they were. *)
Theorem blocking_q_put_appends fuel t q data m Q1 cs Q2 :
  heap_ok m → can_alloc m →
  queues_ok m (Q1 ++ (q, cs) :: Q2) →
  cs ≠ [] → (length cs ≤ fuel)%nat →
  ∃ m', blocking_q_put fuel t q data m = Done true m' ∧
        contents m' q = contents m q ++ [data] ∧
        (∀ x, x ∈ Q1 ++ Q2 → contents m' x.1 = contents m x.1) ∧
        recs m' = recs m.
Proof.
  intros Hh Ha HQ Hne Hfuel.
  destruct (put_queues_ok fuel t q data m Q1 cs Q2)
    as (m' & Hrun & HQ' & _ & Hrecs & _); try done.
  exists m'. split; [done|].
  destruct HQ as (HF & _ & _). destruct HQ' as (HF' & _ & _).
  rewrite Forall_app, Forall_cons in HF, HF'.
  destruct HF as (H1 & Hq & H2). destruct HF' as (H1' & Hq' & H2').
  simpl in Hq, Hq'. split; [|split; [|done]].
  - rewrite (is_queue_contents _ _ _ Hq), (is_queue_contents _ _ _ Hq').
    by rewrite fmap_app.
  - intros x Hx. rewrite elem_of_app in Hx.
    rewrite Forall_forall in H1, H2, H1', H2'.
    destruct Hx as [Hx|Hx].
    + by rewrite (is_queue_contents _ _ _ (H1 x Hx)),
                 (is_queue_contents _ _ _ (H1' x Hx)).
    + by rewrite (is_queue_contents _ _ _ (H2 x Hx)),
                 (is_queue_contents _ _ _ (H2' x Hx)).
Qed.

Lemma blocking_q_put_appends_witness :
  ∃ m', blocking_q_put 8 0%nat 2 80 sched_mem = Done true m' ∧
        contents m' 2 = contents sched_mem 2 ++ [80] ∧
        (∀ x, x ∈ [(1, [(10, 30); (11, 31)])] ++
                  [(3, [(13, 33)]); (4, [(14, 34)]); (5, [(15, 35)])] →
              contents m' x.1 = contents sched_mem x.1) ∧
        recs m' = recs sched_mem.
Proof.
  apply (blocking_q_put_appends 8 0%nat 2 80 sched_mem
           [(1, [(10, 30); (11, 31)])] [(12, 32)]
           [(3, [(13, 33)]); (4, [(14, 34)]); (5, [(15, 35)])]).
  - split; [unfold ADDR_MAX; cbn; lia|].
    apply (@bool_decide_unpack
             (map_Forall (λ l _, 0 < l < brk sched_mem) (nodes sched_mem)) _).
    vm_compute. exact I.
  - unfold can_alloc, ADDR_MAX. cbn. lia.
  - split; [|split].
    + repeat (apply Forall_cons_2 || apply Forall_nil_2); solve_chain.
    + apply (@bool_decide_unpack _ _). vm_compute. exact I.
    + apply (@bool_decide_unpack _ _). vm_compute. exact I.
  - discriminate.
  - simpl. lia.
Defined.

(** X11: the signal in [blocking_q_put] is never sent on a well-formed
    queue.  The count is 1 after the increment only when the queue was
    empty, and then the walk to the last node has already gone through the
    null head pointer: wherever the call stops, the log holds no signal
    that was not there before, so a thread that waits in
    [blocking_q_get] is not woken by a put. *)
Theorem blocking_q_put_never_signals fuel t q data m cs :
  heap_ok m → is_queue m q cs →
  wherever (blocking_q_put fuel t q data m)
    (λ m', ∀ q', EvSignal q' ∈ log m' → EvSignal q' ∈ log m).
Proof.
  intros Hh Hq. pose proof Hq as (Hqn & v & Hv & Hc & Hs).
  destruct (decide ((0 < avail m)%nat ∧ 0 < brk m < ADDR_MAX)) as [Ha|Ha].
  - destruct cs as [|c cs _] using rev_ind.
    + simpl in Hc. destruct fuel as [|fuel].
      * assert (Hb : brk m ≠ NULL)
          by (destruct Ha as [_ [? _]]; unfold NULL; lia).
        unfold blocking_q_put. unfold bind at 1.
        rewrite (malloc_node_ok m Ha).
        destruct (Z.eqb_spec (brk m) NULL) as [|_]; [done|].
        run_open. repeat run_load. reflexivity.
      * rewrite (put_empty_faults fuel t q data m v); try done.
        cbn. by intros q' Hin.
    + destruct (le_lt_dec fuel (length cs)) as [Hf|Hf].
      * rewrite (put_fuel_short fuel t q data m v cs c); try done.
        by apply heap_ok_fresh.
      * destruct (put_mem_is_queue t q data m v cs c) as (_ & _ & Hw);
          try done.
        rewrite (put_step fuel t q data m v cs c); try done.
        -- simpl. intros q' Hin. rewrite elem_of_app in Hin.
           destruct Hin as [|Hin]; [done|].
           rewrite !elem_of_cons, elem_of_nil in Hin.
           by destruct Hin as [|[|[|[|]]]].
        -- by apply heap_ok_fresh.
        -- rewrite Hw, Hs, length_app. simpl. lia.
  - rewrite put_no_memory; [simpl; by intros q' Hin|exact Ha|]. destruct Hh as [? _]. lia.
Qed.

Lemma blocking_q_put_never_signals_witness :
  wherever (blocking_q_put 8 0%nat 1 80 (three_mem MFree 3))
    (λ m', ∀ q', EvSignal q' ∈ log m' → EvSignal q' ∈ log (three_mem MFree 3)).
Proof.
  apply (blocking_q_put_never_signals 8 0%nat 1 80 (three_mem MFree 3)
           [(2, 50); (3, 60); (4, 70)]).
  - split; [unfold ADDR_MAX; cbn; lia|].
    apply (@bool_decide_unpack
             (map_Forall (λ l _, 0 < l < brk (three_mem MFree 3))
                (nodes (three_mem MFree 3))) _).
    vm_compute. exact I.
  - apply three_mem_is_queue.
Defined.

(** ** [blocking_q_get] *)

Lemma get_run f t q m c cs v :
  heap_ok m → is_queue m q (c :: cs) → qs m !! q = Some v →
  ∃ m' nx,
    blocking_q_get (S f) t q m =
      match cs, lock v with
      | [], MHeld _ => Blocked (OnMutex q) m'
      | [], MUninit => Fault BadMutex m'
      | _, _ => Done c.2 m'
      end ∧
    nodes m !! c.1 = Some (Node c.2 nx) ∧ same_but q m m' ∧
    qs m' !! q =
      Some (Queue (Z.of_nat (length cs)) nx
              (match cs, lock v with [], MFree => MHeld t | _, l => l end)
              (cond v)).
Proof.
  intros Hh Hq Hv0. pose proof Hq as (Hqn & v' & Hv & Hc & Hs).
  rewrite Hv0 in Hv. injection Hv as <-.
  pose proof Hc as (Hf & Hn & nx & Hnode & Hrest).
  destruct (take_mem_is_queue t q m v c cs nx) as [Hh1 Hq1]; try done.
  pose proof Hq1 as (_ & v1 & Hv1 & Hc1 & Hs1).
  assert (Hv1' : v1 = Queue (wrap (sz v - 1)) nx (lock v) (cond v)).
  { cbn in Hv1. rewrite lookup_insert_eq in Hv1. by injection Hv1. }
  subst v1. clear Hv1. cbn in Hc1, Hs1.
  assert (Hsz : sz v ≠ 0) by (rewrite Hs; simpl; lia).
  unfold blocking_q_get. simpl while_. run_open. run_load.
  destruct (Z.eqb_spec (sz v) 0) as [|_]; [done|].
  match goal with
  | |- context [__blocking_q_take t q ?m0] =>
      rewrite (take_step t q m0 v c.1 c.2 nx) by done
  end.
  unfold take_mem. cbn. run_load. rewrite Hs1.
  destruct cs as [|c' cs].
  - change (Z.of_nat (length [])) with 0. cbn.
    run_load. destruct (lock v) eqn:El; cbn; try run_load; mem_norm;
      rewrite ?insert_insert_eq; eexists; exists nx;
      (split; [reflexivity|]); (split; [done|]);
      (split; [|cbn; apply lookup_insert_eq]);
      repeat split; cbn; try done;
      intros q' Hq'; by rewrite lookup_insert_ne.
  - destruct (Z.eqb_spec (Z.of_nat (length (c' :: cs))) 0) as [E|_];
      [simpl in E; lia|].
    mem_norm. eexists. exists nx. split; [reflexivity|]. split; [done|].
    split; [|cbn; rewrite lookup_insert_eq; by destruct (lock v)].
    repeat split; cbn; try done.
    intros q' Hq'. by rewrite lookup_insert_ne.
Qed.

(** X12: on a well-formed queue that is not empty, [blocking_q_get]
    returns the oldest handle and leaves the others queued; nodes, task
    records and every other queue are untouched.  It leaves the lock alone
    as long as an element remains, and takes it, without ever giving it
    back, when it removed the last one. *)
Theorem blocking_q_get_returns_the_oldest f t q m c cs v :
  heap_ok m → is_queue m q (c :: cs) → qs m !! q = Some v →
  (cs = [] → lock v = MFree) →
  ∃ m' v', blocking_q_get (S f) t q m = Done c.2 m' ∧
           is_queue m' q cs ∧ same_but q m m' ∧
           qs m' !! q = Some v' ∧ cond v' = cond v ∧
           lock v' = match cs with [] => MHeld t | _ => lock v end.
Proof.
  intros Hh Hq Hv Hl.
  destruct (get_run f t q m c cs v Hh Hq Hv)
    as (m' & nx & Hrun & Hnode & Hsame & Hv').
  destruct Hq as (Hqn & v0 & Hv0 & Hc & Hs).
  rewrite Hv in Hv0. injection Hv0 as <-.
  destruct Hc as (_ & _ & nx' & Hnode' & Hrest).
  rewrite Hnode in Hnode'. injection Hnode' as <-.
  exists m'. eexists. split; [|split; [|split; [done|split; [exact Hv'|]]]].
  - rewrite Hrun. destruct cs; [by rewrite Hl|by destruct (lock v)].
  - split; [done|]. eexists. split; [exact Hv'|]. cbn.
    destruct Hsame as [-> _]. done.
  - cbn. split; [done|]. destruct cs; [by rewrite Hl|by destruct (lock v)].
Qed.

Lemma blocking_q_get_returns_the_oldest_witness :
  ∃ m' v', blocking_q_get 1 0%nat 1 (three_mem MFree 3) = Done 50 m' ∧
           is_queue m' 1 [(3, 60); (4, 70)] ∧
           same_but 1 (three_mem MFree 3) m' ∧
           qs m' !! 1 = Some v' ∧ cond v' = CReady ∧ lock v' = MFree.
Proof.
  apply (blocking_q_get_returns_the_oldest 0%nat 0%nat 1 (three_mem MFree 3)
           (2, 50) [(3, 60); (4, 70)] (Queue 3 2 MFree CReady)).
  - split; [unfold ADDR_MAX; cbn; lia|].
    apply (@bool_decide_unpack
             (map_Forall (λ l _, 0 < l < brk (three_mem MFree 3))
                (nodes (three_mem MFree 3))) _).
    vm_compute. exact I.
  - apply three_mem_is_queue.
  - vm_compute. reflexivity.
  - discriminate.
Defined.

(** X13: when [blocking_q_get] removes the last element while the lock is
    held, by the caller or by another thread, it suspends on the lock
    after the element has left the queue: the queue is empty and the
    handle has not been returned. *)
Theorem blocking_q_get_last_element_under_lock f t q m c v o :
  heap_ok m → is_queue m q [c] → qs m !! q = Some v → lock v = MHeld o →
  ∃ m', blocking_q_get (S f) t q m = Blocked (OnMutex q) m' ∧
        is_queue m' q [] ∧ same_but q m m' ∧
        qs m' !! q = Some (Queue 0 NULL (MHeld o) (cond v)).
Proof.
  intros Hh Hq Hv Hl.
  destruct (get_run f t q m c [] v Hh Hq Hv)
    as (m' & nx & Hrun & Hnode & Hsame & Hv').
  rewrite Hl in Hrun, Hv'. simpl in Hv'.
  destruct Hq as (Hqn & v0 & Hv0 & Hc & Hs).
  destruct Hc as (_ & _ & nx' & Hnode' & Hrest).
  rewrite Hnode in Hnode'. injection Hnode' as <-. simpl in Hrest. subst nx.
  exists m'. split; [done|]. split; [|done].
  split; [done|]. eexists. split; [exact Hv'|]. by cbn.
Qed.

Lemma blocking_q_get_last_element_under_lock_witness :
  ∃ m', blocking_q_get 1 0%nat 2
          (set_qs <[2 := Queue 1 12 (MHeld 0%nat) CReady]> sched_mem)
          = Blocked (OnMutex 2) m' ∧
        is_queue m' 2 [] ∧
        same_but 2 (set_qs <[2 := Queue 1 12 (MHeld 0%nat) CReady]> sched_mem)
          m' ∧
        qs m' !! 2 = Some (Queue 0 NULL (MHeld 0%nat) CReady).
Proof.
  apply (blocking_q_get_last_element_under_lock 0%nat 0%nat 2
           (set_qs <[2 := Queue 1 12 (MHeld 0%nat) CReady]> sched_mem)
           (12, 32) (Queue 1 12 (MHeld 0%nat) CReady) 0%nat).
  - split; [unfold ADDR_MAX; cbn; lia|].
    apply (@bool_decide_unpack
             (map_Forall (λ l _, 0 < l < brk sched_mem) (nodes sched_mem)) _).
    vm_compute. exact I.
  - solve_chain.
  - vm_compute. reflexivity.
  - reflexivity.
Defined.

(** X14: on an empty queue [blocking_q_get] waits.  The wait is defined
    only when the condition variable exists and the caller holds the
    lock; it then releases the lock and suspends the caller.  Without the
    lock, or without the condition variable, the call is undefined. *)
Theorem blocking_q_get_on_empty_queue f t q m v :
  q ≠ NULL → qs m !! q = Some v → sz v = 0 →
  let m1 := emit (EvSz t q (holds t (lock v))) m in
  blocking_q_get (S f) t q m =
    match cond v with
    | CUninit => Fault BadCond m1
    | CReady =>
        if holds t (lock v)
        then Blocked (OnCond q) (set_qs <[q := set_lock MFree v]> m1)
        else Fault BadMutex m1
    end.
Proof.
  intros Hq Hv Hs. unfold blocking_q_get. simpl while_. run_open. run_load.
  rewrite Hs. cbn. run_load.
  destruct (cond v); cbn; [reflexivity|].
  destruct (holds t (lock v)); cbn; [|reflexivity].
  run_load. reflexivity.
Qed.

Lemma blocking_q_get_on_empty_queue_witness :
  blocking_q_get 1 0%nat 1 initialised_mem =
    Blocked (OnCond 1)
      (set_qs <[1 := set_lock MFree (Queue 0 NULL (MHeld 0%nat) CReady)]>
         (emit (EvSz 0%nat 1 true) initialised_mem)).
Proof.
  apply (blocking_q_get_on_empty_queue 0%nat 0%nat 1 initialised_mem
           (Queue 0 NULL (MHeld 0%nat) CReady)).
  - discriminate.
  - vm_compute. reflexivity.
  - reflexivity.
Defined.

(** ** The draining loop *)

Lemma same_but_buf_trans q data m1 m2 m3 :
  same_but_buf q data m1 m2 → same_but_buf q data m2 m3 →
  same_but_buf q data m1 m3.
Proof.
  intros (S1 & B1 & P1) (S2 & B2 & P2). split; [|split].
  - by apply (same_but_trans q m1 m2 m3).
  - intros b Hb. by rewrite B2, B1.
  - intros v Hv. destruct (P1 v Hv) as (v2 & Hv2 & L2 & C2).
    destruct (P2 v2 Hv2) as (v3 & Hv3 & L3 & C3).
    exists v3. split; [done|]. split; congruence.
Qed.

Lemma take_all_step f t q data (k : nat) m c cs v b :
  data ≠ NULL →
  heap_ok m → is_queue m q (c :: cs) → qs m !! q = Some v →
  bufs m !! data = Some b → (k < length b)%nat → Z.of_nat k < INT_MAX →
  ∃ m2,
    take_all (S f) t q data (Z.of_nat k) m
      = take_all f t q data (Z.of_nat (S k)) m2 ∧
    heap_ok m2 ∧ is_queue m2 q cs ∧ same_but_buf q data m m2 ∧
    bufs m2 !! data = Some (<[k := c.2]> b).
Proof.
  intros Hd Hh Hq Hv0 Hb Hk Hmax.
  pose proof Hq as (Hqn & v' & Hv & Hc & Hs).
  rewrite Hv0 in Hv. injection Hv as <-.
  pose proof Hc as (Hf & Hn & nx & Hnode & Hrest).
  destruct (take_mem_is_queue t q m v c cs nx) as [Hh1 Hq1]; try done.
  replace (Z.of_nat (S k)) with (Z.of_nat k + 1) by lia.
  unfold take_all. simpl while_. run_open. run_load.
  destruct (Z.ltb_spec 0 (sz v)) as [_|E]; [|simpl in Hs; lia].
  match goal with
  | |- context [__blocking_q_take t q ?m0] =>
      rewrite (take_step t q m0 v c.1 c.2 nx) by done
  end.
  unfold take_mem. cbn. run_load.
  destruct (Z.leb_spec 0 (Z.of_nat k)) as [_|E]; [|lia].
  destruct (Z.ltb_spec (Z.of_nat k) (Z.of_nat (length b))) as [_|E]; [|lia].
  cbn. unfold incr_int.
  destruct (Z.ltb_spec (Z.of_nat k) INT_MAX) as [_|E]; [|lia].
  cbn. mem_norm. rewrite Nat2Z.id.
  eexists. split; [reflexivity|].
  split; [exact Hh1|]. split; [exact Hq1|]. split.
  - split; [|split].
    + repeat split; cbn; try done.
      intros q' Hq'. by rewrite lookup_insert_ne.
    + intros b' Hb'. cbn. by rewrite lookup_insert_ne.
    + intros v' Hv'. rewrite Hv0 in Hv'. injection Hv' as <-.
      eexists. split; [cbn; apply lookup_insert_eq|]. by split.
  - cbn. apply lookup_insert_eq.
Qed.

Lemma take_all_run t q data :
  data ≠ NULL →
  ∀ cs fuel (k : nat) m b,
    heap_ok m → is_queue m q cs → bufs m !! data = Some b →
    (k + length cs ≤ length b)%nat → Z.of_nat (k + length cs) ≤ INT_MAX →
    (length cs < fuel)%nat →
    ∃ m', take_all fuel t q data (Z.of_nat k) m
            = Done (Z.of_nat (k + length cs)) m' ∧
          heap_ok m' ∧ is_queue m' q [] ∧ same_but_buf q data m m' ∧
          bufs m' !! data
            = Some (take k b ++ cs.*2 ++ drop (k + length cs) b).
Proof.
  intros Hd. induction cs as [|c cs IH];
    intros fuel k m b Hh Hq Hb Hroom Hmax Hfuel;
    (destruct fuel as [|f]; [simpl in Hfuel; lia|]).
  - pose proof Hq as (Hqn & v & Hv & Hc & Hs).
    unfold take_all. simpl while_. run_open. run_load.
    rewrite Hs. cbn. rewrite Nat.add_0_r.
    eexists. split; [reflexivity|]. split; [exact Hh|].
    split; [exact Hq|]. split.
    + split; [done|]. split; [done|]. intros v' Hv'. by exists v'.
    + cbn. by rewrite take_drop.
  - pose proof Hq as (Hqn & v & Hv & _).
    simpl in Hroom, Hmax, Hfuel.
    destruct (take_all_step f t q data k m c cs v b)
      as (m2 & Hstep & Hh2 & Hq2 & Hsame2 & Hb2); try done; try lia.
    destruct (IH f (S k) m2 (<[k := c.2]> b))
      as (m' & Hrun & Hh' & Hq' & Hsame' & Hb'); try done.
    + rewrite length_insert. lia.
    + lia.
    + lia.
    + exists m'. rewrite Hstep, Hrun. simpl length.
      replace (S k + length cs)%nat with (k + S (length cs))%nat in * by lia.
      split; [done|]. split; [done|]. split; [done|].
      split; [by apply (same_but_buf_trans q data m m2 m')|].
      rewrite Hb'. f_equal.
      rewrite (take_S_r _ k c.2) by (apply list_lookup_insert_eq; lia).
      rewrite take_insert_ge by lia. rewrite drop_insert_lt by lia.
      rewrite <- app_assoc. reflexivity.
Qed.

Lemma int_fits z : 0 ≤ z ≤ INT_MAX → wrap z = z.
Proof.
  intros H. apply wrap_small. unfold INT_MAX, SIZE_MOD in *. lia.
Qed.

Lemma take_all_then_lock fuel t q data m cs v b :
  data ≠ NULL → heap_ok m → is_queue m q cs → qs m !! q = Some v →
  lock v = MFree → bufs m !! data = Some b →
  (length cs ≤ length b)%nat → Z.of_nat (length cs) ≤ INT_MAX →
  (length cs < fuel)%nat →
  ∃ m',
    (counter <- take_all fuel t q data 0 ;;
     pthread_mutex_lock t q ;; ret counter) m
      = Done (Z.of_nat (length cs)) m' ∧
    heap_ok m' ∧ is_queue m' q [] ∧ same_but q m m' ∧
    (∀ p, p ≠ data → bufs m' !! p = bufs m !! p) ∧
    bufs m' !! data = Some (cs.*2 ++ drop (length cs) b) ∧
    qs m' !! q = Some (Queue 0 NULL (MHeld t) (cond v)).
Proof.
  intros Hd Hh Hq Hv Hl Hb Hroom Hmax Hfuel.
  destruct (take_all_run t q data Hd cs fuel 0%nat m b)
    as (m1 & Hrun & Hh1 & Hq1 & (Hsame & Hbufs & Hprim) & Hb1); try done.
  simpl in Hrun, Hb1.
  destruct (Hprim v Hv) as (v1 & Hv1 & Hl1 & Hc1).
  pose proof Hq1 as (Hqn & v1' & Hv1' & Hch1 & Hs1).
  rewrite Hv1 in Hv1'. injection Hv1' as <-. simpl in Hch1, Hs1.
  unfold bind at 1. change (Z.of_nat 0) with 0 in Hrun. rewrite Hrun.
  run_open. run_load. rewrite Hl1, Hl. cbn. run_load. mem_norm.
  eexists. split; [reflexivity|].
  split; [exact Hh1|]. split; [|split; [|split; [|split]]].
  - split; [done|]. eexists. split; [cbn; apply lookup_insert_eq|]. by cbn.
  - destruct Hsame as (? & ? & ? & ? & Hq'). repeat split; cbn; try done.
    intros q' Hne. rewrite lookup_insert_ne by done. by apply Hq'.
  - intros p Hp. cbn. by apply Hbufs.
  - cbn. exact Hb1.
  - cbn. rewrite lookup_insert_eq. f_equal.
    destruct v1; simpl in *. by rewrite Hs1, Hch1, Hc1.
Qed.

(** ** [blocking_q_drain_at_least] *)

(** X15: with the lock free, a buffer that has room for every queued
    element and a minimum that the queue reaches,
    [blocking_q_drain_at_least] removes all the elements, not just the
    minimum and whatever the capacity argument says, writes their handles
    to the buffer oldest first, returns their number and leaves the lock
    held by the caller. *)
Theorem blocking_q_drain_at_least_takes_everything
    fuel t q data n min m cs v b :
  data ≠ NULL → heap_ok m → is_queue m q cs → qs m !! q = Some v →
  lock v = MFree → bufs m !! data = Some b →
  (length cs ≤ length b)%nat → Z.of_nat (length cs) ≤ INT_MAX →
  min ≤ Z.of_nat (length cs) → (length cs < fuel)%nat →
  ∃ m', blocking_q_drain_at_least fuel t q data n min m
          = Done (Z.of_nat (length cs)) m' ∧
        bufs m' !! data = Some (cs.*2 ++ drop (length cs) b) ∧
        is_queue m' q [] ∧ same_but q m m' ∧
        qs m' !! q = Some (Queue 0 NULL (MHeld t) (cond v)).
Proof.
  intros Hd Hh Hq Hv Hl Hb Hroom Hmax Hmin Hfuel.
  destruct (take_all_then_lock fuel t q data m cs v b)
    as (m' & Hrun & Hh' & Hq' & Hsame & _ & Hb' & Hv'); try done.
  exists m'. split; [|done].
  unfold blocking_q_drain_at_least.
  destruct fuel as [|f]; [lia|]. simpl drain_rounds.
  unfold bind in Hrun |- *.
  destruct (take_all (S f) t q data 0 m) as [k m1| | |]; try done.
  destruct (pthread_mutex_lock t q m1) as [z m2| | |]; try done.
  unfold ret in Hrun. injection Hrun as -> ->.
  rewrite int_fits by lia.
  destruct (Z.ltb_spec (Z.of_nat (length cs)) min) as [|_]; [lia|].
  reflexivity.
Qed.

Lemma blocking_q_drain_at_least_takes_everything_witness :
  ∃ m', blocking_q_drain_at_least 8 0%nat 1 5 2 1 (three_mem MFree 3)
          = Done (Z.of_nat (length [(2, 50); (3, 60); (4, 70)])) m' ∧
        bufs m' !! 5 = Some ([(2, 50); (3, 60); (4, 70)].*2 ++
                             drop (length [(2, 50); (3, 60); (4, 70)])
                               (replicate 3 NULL)) ∧
        is_queue m' 1 [] ∧ same_but 1 (three_mem MFree 3) m' ∧
        qs m' !! 1 = Some (Queue 0 NULL (MHeld 0%nat) CReady).
Proof.
  apply (blocking_q_drain_at_least_takes_everything 8 0%nat 1 5 2 1
           (three_mem MFree 3) [(2, 50); (3, 60); (4, 70)]
           (Queue 3 2 MFree CReady) (replicate 3 NULL)).
  - discriminate.
  - split; [unfold ADDR_MAX; cbn; lia|].
    apply (@bool_decide_unpack
             (map_Forall (λ l _, 0 < l < brk (three_mem MFree 3))
                (nodes (three_mem MFree 3))) _).
    vm_compute. exact I.
  - apply three_mem_is_queue.
  - vm_compute. reflexivity.
  - reflexivity.
  - vm_compute. reflexivity.
  - simpl. lia.
  - unfold INT_MAX. simpl. lia.
  - simpl. lia.
  - simpl. lia.
Defined.

(** X16: when the queue holds fewer elements than the minimum,
    [blocking_q_drain_at_least] still removes them all into the buffer,
    then waits: it releases the lock and suspends the caller on the
    condition variable, with the queue empty. *)
Theorem blocking_q_drain_at_least_waits_for_more
    fuel t q data n min m cs v b :
  data ≠ NULL → heap_ok m → is_queue m q cs → qs m !! q = Some v →
  lock v = MFree → cond v = CReady → bufs m !! data = Some b →
  (length cs ≤ length b)%nat → Z.of_nat (length cs) ≤ INT_MAX →
  Z.of_nat (length cs) < min < SIZE_MOD → (length cs < fuel)%nat →
  ∃ m', blocking_q_drain_at_least fuel t q data n min m
          = Blocked (OnCond q) m' ∧
        bufs m' !! data = Some (cs.*2 ++ drop (length cs) b) ∧
        is_queue m' q [] ∧ same_but q m m' ∧
        qs m' !! q = Some (Queue 0 NULL MFree CReady).
Proof.
  intros Hd Hh Hq Hv Hl Hcv Hb Hroom Hmax Hmin Hfuel.
  destruct (take_all_then_lock fuel t q data m cs v b)
    as (m' & Hrun & Hh' & Hq' & Hsame & _ & Hb' & Hv'); try done.
  rewrite Hcv in Hv'. pose proof Hq' as (Hqn & _).
  unfold blocking_q_drain_at_least.
  destruct fuel as [|f]; [lia|]. simpl drain_rounds.
  unfold bind in Hrun. unfold bind at 1 2.
  destruct (take_all (S f) t q data 0 m) as [k m1| | |]; try done.
  destruct (pthread_mutex_lock t q m1) as [z m2| | |]; try done.
  unfold ret in Hrun. injection Hrun as -> ->.
  rewrite int_fits by lia.
  destruct (Z.ltb_spec (Z.of_nat (length cs)) min) as [_|]; [|lia].
  simpl while_. run_open. run_load.
  rewrite (wrap_small (min - _)) by (unfold SIZE_MOD in *; lia).
  destruct (Z.ltb_spec 0 (min - Z.of_nat (length cs))) as [_|]; [|lia].
  run_load. rewrite Nat.eqb_refl. cbn. run_load. mem_norm.
  eexists. split; [reflexivity|]. split; [exact Hb'|].
  split; [|split].
  - split; [done|]. eexists. split; [cbn; apply lookup_insert_eq|]. by cbn.
  - destruct Hsame as (? & ? & ? & ? & Hq''). repeat split; cbn; try done.
    intros q' Hne. rewrite lookup_insert_ne by done. by apply Hq''.
  - cbn. by rewrite lookup_insert_eq.
Qed.

Lemma blocking_q_drain_at_least_waits_for_more_witness :
  ∃ m', blocking_q_drain_at_least 8 0%nat 1 5 4 4 (three_mem MFree 3)
          = Blocked (OnCond 1) m' ∧
        bufs m' !! 5 = Some ([(2, 50); (3, 60); (4, 70)].*2 ++
                             drop (length [(2, 50); (3, 60); (4, 70)])
                               (replicate 3 NULL)) ∧
        is_queue m' 1 [] ∧ same_but 1 (three_mem MFree 3) m' ∧
        qs m' !! 1 = Some (Queue 0 NULL MFree CReady).
Proof.
  apply (blocking_q_drain_at_least_waits_for_more 8 0%nat 1 5 4 4
           (three_mem MFree 3) [(2, 50); (3, 60); (4, 70)]
           (Queue 3 2 MFree CReady) (replicate 3 NULL)).
  - discriminate.
  - split; [unfold ADDR_MAX; cbn; lia|].
    apply (@bool_decide_unpack
             (map_Forall (λ l _, 0 < l < brk (three_mem MFree 3))
                (nodes (three_mem MFree 3))) _).
    vm_compute. exact I.
  - apply three_mem_is_queue.
  - vm_compute. reflexivity.
  - reflexivity.
  - reflexivity.
  - vm_compute. reflexivity.
  - simpl. lia.
  - unfold INT_MAX. simpl. lia.
  - unfold SIZE_MOD. simpl. lia.
  - simpl. lia.
Defined.

(** ** [blocking_q_drain] *)

Lemma malloc_buf_ok n m :
  can_alloc m →
  malloc_buf n m =
    Done (brk m)
      (set_bufs
         <[brk m := fresh_buf m (brk m) (Z.to_nat (wrap (8 * n) / 8))]>
         (bump m)).
Proof.
  intros Ha. unfold malloc_buf, bind at 1. rewrite (malloc_ok m Ha).
  destruct (Z.eqb_spec (brk m) NULL) as [E|_]; [|reflexivity].
  destruct Ha as [_ [? _]]. unfold NULL in E. lia.
Qed.

Lemma read_sz_eq t q m v :
  q ≠ NULL → qs m !! q = Some v →
  read_sz t q m = Done (sz v) (emit (EvSz t q (holds t (lock v))) m).
Proof. intros Hq Hv. unfold read_sz. run_open. run_load. reflexivity. Qed.

(** X17: on a queue that is not empty, with the lock free,
    [blocking_q_drain] allocates a buffer of its own for [sz] handles,
    moves every queued handle into it, oldest first, takes the lock and
    reaches its end without returning a count.  The entries of the new
    buffer beyond the queued handles are never written: they keep what
    [malloc] gave.  No other buffer is written, the caller's included,
    and the new buffer is neither freed nor handed to anyone. *)
Theorem blocking_q_drain_fills_its_own_buffer fuel t q data n m cs v :
  heap_ok m → can_alloc m → is_queue m q cs → cs ≠ [] →
  qs m !! q = Some v → lock v = MFree →
  (length cs ≤ Z.to_nat (wrap (8 * n) / 8))%nat →
  Z.of_nat (length cs) ≤ INT_MAX → (length cs < fuel)%nat →
  ∃ m', blocking_q_drain fuel t q data n m = Done None m' ∧
        bufs m' !! brk m =
          Some (cs.*2 ++
                drop (length cs)
                  (fresh_buf m (brk m) (Z.to_nat (wrap (8 * n) / 8)))) ∧
        (∀ p, p ≠ brk m → bufs m' !! p = bufs m !! p) ∧
        is_queue m' q [] ∧
        qs m' !! q = Some (Queue 0 NULL (MHeld t) (cond v)) ∧
        brk m' = brk m + 1.
Proof.
  intros Hh Ha Hq Hne Hv Hl Hroom Hmax Hfuel.
  pose proof Hq as (Hqn & v' & Hv' & Hc & Hs).
  rewrite Hv in Hv'. injection Hv' as <-.
  set (e := EvSz t q (holds t (lock v))).
  set (b := fresh_buf m (brk m) (Z.to_nat (wrap (8 * n) / 8))).
  set (m1 := set_bufs <[brk m := b]> (bump (emit e m))).
  assert (Hb0 : brk m ≠ NULL) by (destruct Ha as [_ [? _]]; unfold NULL; lia).
  destruct (take_all_then_lock fuel t q (brk m) m1 cs v b)
    as (m' & Hrun & Hh' & Hq' & Hsame & Hothers & Hb' & Hv'); try done.
  { destruct Hh as [Hb Hn]. destruct Ha as [_ [_ Hlt]].
    split; [cbn; lia|]. intros l nd Hl'. cbn in Hl'.
    specialize (Hn _ _ Hl'). cbn. lia. }
  { cbn. apply lookup_insert_eq. }
  { unfold b, fresh_buf. by rewrite length_map, length_seq. }
  exists m'. split; [|split; [|split; [|split; [done|split; [done|]]]]].
  - unfold blocking_q_drain. unfold bind at 1.
    rewrite (read_sz_eq t q m v Hqn Hv). fold e.
    destruct (Z.eqb_spec (sz v) 0) as [E|_].
    { rewrite Hs in E. destruct cs; [done|simpl in E; lia]. }
    unfold bind at 1.
    rewrite (malloc_buf_ok n (emit e m)) by exact Ha.
    change (set_bufs _ (bump (emit e m))) with m1.
    change (brk (emit e m)) with (brk m).
    unfold bind in Hrun |- *.
    destruct (take_all fuel t q (brk m) 0 m1) as [k m2| | |]; try done.
    destruct (pthread_mutex_lock t q m2) as [z m3| | |]; try done.
    unfold ret in Hrun |- *. by injection Hrun as _ ->.
  - exact Hb'.
  - intros p Hp. rewrite (Hothers p Hp). cbn. by rewrite lookup_insert_ne.
  - destruct Hsame as (_ & _ & -> & _). reflexivity.
Qed.

Lemma blocking_q_drain_fills_its_own_buffer_witness :
  ∃ m', blocking_q_drain 8 0%nat 1 5 3 (three_mem MFree 3) = Done None m' ∧
        bufs m' !! brk (three_mem MFree 3) =
          Some ([(2, 50); (3, 60); (4, 70)].*2 ++
                drop (length [(2, 50); (3, 60); (4, 70)])
                  (fresh_buf (three_mem MFree 3) (brk (three_mem MFree 3))
                     (Z.to_nat (wrap (8 * 3) / 8)))) ∧
        (∀ p, p ≠ brk (three_mem MFree 3) →
              bufs m' !! p = bufs (three_mem MFree 3) !! p) ∧
        is_queue m' 1 [] ∧
        qs m' !! 1 = Some (Queue 0 NULL (MHeld 0%nat) CReady) ∧
        brk m' = brk (three_mem MFree 3) + 1.
Proof.
  apply (blocking_q_drain_fills_its_own_buffer 8 0%nat 1 5 3
           (three_mem MFree 3) [(2, 50); (3, 60); (4, 70)]
           (Queue 3 2 MFree CReady)).
  - split; [unfold ADDR_MAX; cbn; lia|].
    apply (@bool_decide_unpack
             (map_Forall (λ l _, 0 < l < brk (three_mem MFree 3))
                (nodes (three_mem MFree 3))) _).
    vm_compute. exact I.
  - unfold can_alloc, ADDR_MAX. cbn. lia.
  - apply three_mem_is_queue.
  - discriminate.
  - vm_compute. reflexivity.
  - reflexivity.
  - vm_compute. lia.
  - unfold INT_MAX. simpl. lia.
  - simpl. lia.
Defined.

(** ** [blocking_q_peek] *)

(** X18: [blocking_q_peek] always returns, and never with [true]: on an
    empty queue it returns [false]; otherwise it reaches its end without
    a result, having stored nothing through [c] and changed neither the
    queue nor its nodes.  The cell it allocates when the queue is not
    empty is never freed. *)
Theorem blocking_q_peek_never_reports_an_element t q c m v :
  q ≠ NULL → qs m !! q = Some v →
  ∃ m', blocking_q_peek t q c m
          = Done (if sz v =? 0 then Some false else None) m' ∧
        qs m' = qs m ∧ nodes m' = nodes m ∧
        (sz v = 0 → bufs m' = bufs m ∧ brk m' = brk m) ∧
        (sz v ≠ 0 → can_alloc m → brk m' = brk m + 1).
Proof.
  intros Hq Hv. unfold blocking_q_peek. unfold bind at 1.
  rewrite (read_sz_eq t q m v Hq Hv).
  destruct (Z.eqb_spec (sz v) 0) as [E|E].
  - eexists. split; [reflexivity|]. by repeat split.
  - unfold bind at 1, malloc_buf, bind at 1, malloc.
    destruct ((0 <? avail _)%nat && (brk _ <? ADDR_MAX)) eqn:Hc.
    + destruct (Z.eqb_spec (brk (emit (EvSz t q (holds t (lock v))) m))
                  NULL) as [Hb|Hb];
        run_open; run_load; (eexists; split; [reflexivity|]); mem_norm;
        (split; [done|]); (split; [done|]); (split; [by intros ?|]);
        intros _ [_ [Hpos _]]; cbn in *;
        [unfold NULL in Hb; lia|reflexivity].
    + cbn. run_open. run_load. eexists. split; [reflexivity|].
      cbn. split; [done|]. split; [done|]. split; [by intros ?|].
      intros _ [Ha [_ Hlt]]. unfold emit in Hc. cbn in Hc.
      apply andb_false_iff in Hc.
      destruct Hc as [Hc|Hc]; [|apply Z.ltb_ge in Hc; lia].
      destruct (avail m); [lia|discriminate Hc].
Qed.

Lemma blocking_q_peek_never_reports_an_element_witness :
  ∃ m', blocking_q_peek 0%nat 1 0 (three_mem MFree 3)
          = Done (if sz (Queue 3 2 MFree CReady) =? 0 then Some false
                  else None) m' ∧
        qs m' = qs (three_mem MFree 3) ∧
        nodes m' = nodes (three_mem MFree 3) ∧
        (sz (Queue 3 2 MFree CReady) = 0 →
         bufs m' = bufs (three_mem MFree 3) ∧
         brk m' = brk (three_mem MFree 3)) ∧
        (sz (Queue 3 2 MFree CReady) ≠ 0 → can_alloc (three_mem MFree 3) →
         brk m' = brk (three_mem MFree 3) + 1).
Proof.
  apply (blocking_q_peek_never_reports_an_element 0%nat 1 0
           (three_mem MFree 3) (Queue 3 2 MFree CReady)).
  - discriminate.
  - vm_compute. reflexivity.
Defined.

(** ** Puts followed by gets *)

Lemma put_list_run t q :
  ∀ xs fuel m cs,
    heap_ok m → is_queue m q cs → cs ≠ [] →
    (length xs ≤ avail m)%nat → brk m + Z.of_nat (length xs) ≤ ADDR_MAX →
    (length cs + length xs ≤ fuel)%nat →
    ∃ m' cs', put_list fuel t q xs m = Done true m' ∧
              heap_ok m' ∧ is_queue m' q (cs ++ cs') ∧ cs'.*2 = xs.
Proof.
  induction xs as [|x xs IH]; intros fuel m cs Hh Hq Hne Hav Hbrk Hfuel.
  - exists m, []. rewrite app_nil_r. by split; [|split; [|split]].
  - simpl in Hav, Hbrk, Hfuel.
    destruct cs as [|c cs0 _] using rev_ind; [done|].
    pose proof Hq as (Hqn & v & Hv & Hc & Hs).
    assert (Ha : can_alloc m).
    { destruct Hh as [[? ?] _]. unfold can_alloc. lia. }
    rewrite length_app in Hfuel. simpl in Hfuel.
    destruct (put_mem_is_queue t q x m v cs0 c) as (Hh1 & Hq1 & Hw);
      try done.
    assert (Hstep : blocking_q_put fuel t q x m
                      = Done true (put_mem t q x v c m)).
    { apply (put_step fuel t q x m v cs0 c); try done.
      - by apply heap_ok_fresh.
      - lia.
      - rewrite Hw, Hs, length_app. simpl. lia. }
    destruct (IH fuel (put_mem t q x v c m) (cs0 ++ [c; (brk m, x)]))
      as (m' & cs' & Hrun & Hh' & Hq' & Hcs'); try done.
    + by destruct cs0.
    + cbn. lia.
    + cbn. lia.
    + rewrite length_app. simpl. lia.
    + exists m', ((brk m, x) :: cs'). split; [|split; [done|split]].
      * simpl put_list. unfold bind at 1. rewrite Hstep.
        unfold bind at 1. rewrite Hrun. reflexivity.
      * rewrite <- app_assoc in Hq' |- *. exact Hq'.
      * rewrite fmap_cons. simpl. by f_equal.
Qed.

Lemma get_n_run f t q :
  ∀ n m cs,
    heap_ok m → is_queue m q cs → (n < length cs)%nat →
    ∃ m', get_n (S f) t q n m = Done (take n cs.*2) m' ∧
          heap_ok m' ∧ is_queue m' q (drop n cs) ∧ same_but q m m'.
Proof.
  induction n as [|n IH]; intros m cs Hh Hq Hn.
  - exists m. rewrite drop_0. by split; [|split; [|split]].
  - destruct cs as [|c cs]; [simpl in Hn; lia|]. simpl in Hn.
    destruct (get_cons f t q m c cs Hh Hq) as (m1 & Hget & Hsame & Hq1 & _).
    { left. destruct cs; [simpl in Hn; lia|done]. }
    pose proof (heap_ok_same_but q m m1 Hh Hsame) as Hh1.
    destruct (IH m1 cs Hh1 Hq1) as (m' & Hrun & Hh' & Hq' & Hsame');
      [lia|].
    exists m'. split; [|split; [done|split; [done|]]].
    + simpl get_n. unfold bind at 1. rewrite Hget.
      unfold bind at 1. rewrite Hrun. reflexivity.
    + by apply (same_but_trans q m m1 m').
Qed.

(** X19: first in, first out.  On a well-formed queue that is not empty,
    with memory for the new nodes, putting the handles [xs] one after the
    other and then getting [n] handles, fewer than are queued, returns
    the first [n] of the old contents followed by [xs], and leaves the
    rest queued in the same order. *)
Theorem puts_then_gets_are_first_in_first_out f t q xs n m cs :
  heap_ok m → is_queue m q cs → cs ≠ [] →
  (length xs ≤ avail m)%nat → brk m + Z.of_nat (length xs) ≤ ADDR_MAX →
  (length cs + length xs ≤ S f)%nat → (n < length cs + length xs)%nat →
  ∃ m', (put_list (S f) t q xs ;; get_n (S f) t q n) m
          = Done (take n (contents m q ++ xs)) m' ∧
        contents m' q = drop n (contents m q ++ xs).
Proof.
  intros Hh Hq Hne Hav Hbrk Hfuel Hn.
  destruct (put_list_run t q xs (S f) m cs)
    as (m1 & cs' & Hput & Hh1 & Hq1 & Hcs'); try done.
  destruct (get_n_run f t q n m1 (cs ++ cs') Hh1 Hq1)
    as (m' & Hget & Hh' & Hq' & _).
  { rewrite length_app, <- (length_fmap snd cs'), Hcs'. lia. }
  exists m'. rewrite (is_queue_contents m q cs Hq).
  rewrite (is_queue_contents m' q _ Hq'), fmap_drop, fmap_app, Hcs'.
  split; [|done].
  unfold bind at 1. rewrite Hput, Hget. by rewrite fmap_app, Hcs'.
Qed.

Lemma puts_then_gets_are_first_in_first_out_witness :
  ∃ m', (put_list 8 0%nat 1 [80; 90] ;; get_n 8 0%nat 1 4)
          (three_mem MFree 3)
          = Done (take 4 (contents (three_mem MFree 3) 1 ++ [80; 90])) m' ∧
        contents m' 1 = drop 4 (contents (three_mem MFree 3) 1 ++ [80; 90]).
Proof.
  apply (puts_then_gets_are_first_in_first_out 7 0%nat 1 [80; 90] 4
           (three_mem MFree 3) [(2, 50); (3, 60); (4, 70)]).
  - split; [unfold ADDR_MAX; cbn; lia|].
    apply (@bool_decide_unpack
             (map_Forall (λ l _, 0 < l < brk (three_mem MFree 3))
                (nodes (three_mem MFree 3))) _).
    vm_compute. exact I.
  - apply three_mem_is_queue.
  - discriminate.
  - simpl. lia.
  - unfold ADDR_MAX. simpl. lia.
  - simpl. lia.
  - simpl. lia.
Defined.

(** ** [blocking_q_destroy] *)

(** The loop frees the nodes of the cells it walks through, and changes
    nothing else. *)
Lemma free_nodes_run :
  ∀ cs fuel p m,
    chain (nodes m) p cs → (length cs < fuel)%nat →
    ∃ m1, free_nodes fuel p m = Done NULL m1 ∧
          qs m1 = qs m ∧ recs m1 = recs m ∧ bufs m1 = bufs m ∧
          log m1 = log m ∧
          (∀ l, l ∈ cs.*1 → nodes m1 !! l = None) ∧
          (∀ l, l ∉ cs.*1 → nodes m1 !! l = nodes m !! l).
Proof.
  induction cs as [|c cs IH]; intros fuel p m Hc Hfuel;
    (destruct fuel as [|f]; [simpl in Hfuel; lia|]).
  - simpl in Hc. subst p. exists m. split; [reflexivity|].
    repeat split; try done. intros l Hl. by apply elem_of_nil in Hl.
  - pose proof (chain_NoDup _ _ _ Hc) as Hnd.
    destruct Hc as (-> & Hn & nx & Hnode & Hrest).
    rewrite fmap_cons in Hnd. apply NoDup_cons in Hnd as [Hnotin _].
    set (m0 := set_nodes (delete c.1) m).
    assert (Hstep : free_nodes (S f) c.1 m = free_nodes f nx m0).
    { unfold free_nodes. simpl while_. unfold free_node. run_open.
      destruct (Z.eqb_spec c.1 NULL) as [|_]; [done|]. cbn.
      run_load. destruct (Z.eqb_spec c.1 NULL) as [|_]; [done|]. cbn.
      rewrite Hnode. reflexivity. }
    destruct (IH f nx m0) as (m1 & Hrun & Hqs & Hrecs & Hbufs & Hlog & Hin & Hout).
    { cbn. apply (chain_frame (nodes m)); [exact Hrest|].
      intros l Hl. apply lookup_delete_ne. by intros <-. }
    { simpl in Hfuel. lia. }
    exists m1. rewrite Hstep. split; [exact Hrun|].
    split; [done|]. split; [done|]. split; [done|]. split; [done|].
    split.
    + intros l Hl. rewrite fmap_cons, elem_of_cons in Hl.
      destruct (decide (l ∈ cs.*1)) as [Hl'|Hl']; [by apply Hin|].
      destruct Hl as [->|]; [|done].
      rewrite (Hout _ Hl'). cbn. apply lookup_delete_eq.
    + intros l Hl. rewrite fmap_cons, not_elem_of_cons in Hl.
      destruct Hl as [Hne Hl]. rewrite (Hout _ Hl). cbn.
      by apply lookup_delete_ne.
Qed.

Lemma destroy_run fuel q m cs v :
  is_queue m q cs → qs m !! q = Some v → (length cs < fuel)%nat →
  ∃ m1,
    blocking_q_destroy fuel q m =
      match lock v, cond v with
      | MFree, CReady =>
          Done tt
            (set_qs <[q := Queue (sz v) (first v) MUninit CUninit]> m1)
      | MFree, CUninit =>
          Fault BadCond
            (set_qs <[q := Queue (sz v) (first v) MUninit CUninit]> m1)
      | MHeld o, CReady =>
          Done tt
            (set_qs <[q := Queue (sz v) (first v) (MHeld o) CUninit]> m1)
      | MHeld _, CUninit => Fault BadCond m1
      | MUninit, _ => Fault BadMutex m1
      end ∧
    qs m1 = qs m ∧ recs m1 = recs m ∧ bufs m1 = bufs m ∧ log m1 = log m ∧
    (∀ l, l ∈ cs.*1 → nodes m1 !! l = None) ∧
    (∀ l, l ∉ cs.*1 → nodes m1 !! l = nodes m !! l).
Proof.
  intros (Hqn & v' & Hv' & Hc & Hs) Hv Hfuel.
  rewrite Hv in Hv'. injection Hv' as <-.
  destruct (free_nodes_run cs fuel (first v) m Hc Hfuel)
    as (m1 & Hrun & Hqs & Hrest).
  exists m1. split; [|by split].
  assert (Hv1 : qs m1 !! q = Some v) by (by rewrite Hqs).
  unfold blocking_q_destroy, read_first. run_open. run_load.
  rewrite Hrun. cbn. unfold pthread_mutex_destroy, pthread_cond_destroy.
  run_open. run_load.
  destruct v as [s f l c]. cbn in *.
  destruct l, c; cbn; repeat run_load; mem_norm;
    rewrite ?insert_insert_eq; reflexivity.
Qed.

(** X20: with its lock free and its condition variable initialised,
    [blocking_q_destroy] frees every node of the queue and no other node,
    frees none of the task records the nodes point to, and destroys both
    primitives.  The head pointer and the count are left as they were:
    the head now points to freed memory. *)
Theorem blocking_q_destroy_frees_the_nodes fuel q m cs v :
  is_queue m q cs → qs m !! q = Some v →
  lock v = MFree → cond v = CReady → (length cs < fuel)%nat →
  ∃ m', blocking_q_destroy fuel q m = Done tt m' ∧
        (∀ l, l ∈ cs.*1 → nodes m' !! l = None) ∧
        (∀ l, l ∉ cs.*1 → nodes m' !! l = nodes m !! l) ∧
        recs m' = recs m ∧
        qs m' !! q = Some (Queue (sz v) (first v) MUninit CUninit).
Proof.
  intros Hq Hv Hl Hcv Hfuel.
  destruct (destroy_run fuel q m cs v Hq Hv Hfuel)
    as (m1 & Hrun & Hqs & Hrecs & _ & _ & Hin & Hout).
  rewrite Hl, Hcv in Hrun. eexists. split; [exact Hrun|].
  cbn. split; [done|]. split; [done|]. split; [done|].
  apply lookup_insert_eq.
Qed.

Lemma blocking_q_destroy_frees_the_nodes_witness :
  ∃ m', blocking_q_destroy 8 1 (three_mem MFree 3) = Done tt m' ∧
        (∀ l, l ∈ [(2, 50); (3, 60); (4, 70)].*1 → nodes m' !! l = None) ∧
        (∀ l, l ∉ [(2, 50); (3, 60); (4, 70)].*1 →
              nodes m' !! l = nodes (three_mem MFree 3) !! l) ∧
        recs m' = recs (three_mem MFree 3) ∧
        qs m' !! 1 =
          Some (Queue (sz (Queue 3 2 MFree CReady))
                  (first (Queue 3 2 MFree CReady)) MUninit CUninit).
Proof.
  apply (blocking_q_destroy_frees_the_nodes 8 1 (three_mem MFree 3)
           [(2, 50); (3, 60); (4, 70)] (Queue 3 2 MFree CReady)).
  - apply three_mem_is_queue.
  - vm_compute. reflexivity.
  - reflexivity.
  - reflexivity.
  - simpl. lia.
Defined.

(** X21: a queue destroyed in the state [blocking_q_init] leaves it in
    keeps its mutex.  [pthread_mutex_destroy] is called while the lock
    that the initialisation took is still held; the library refuses, and
    [blocking_q_destroy] does not look at its answer: it destroys the
    condition variable and returns, leaving the mutex locked and never
    destroyed. *)
Theorem destroy_after_init_keeps_the_lock e fuel t q m v :
  q ≠ NULL → qs m !! q = Some v →
  mutex_init_ret e = 0 → cond_init_ret e = 0 →
  ∃ m', (blocking_q_init e t q ;; blocking_q_destroy (S fuel) q) m
          = Done tt m' ∧
        qs m' !! q = Some (Queue 0 NULL (MHeld t) CUninit) ∧
        nodes m' = nodes m ∧ recs m' = recs m.
Proof.
  intros Hq Hv Hm Hc. unfold bind at 1.
  rewrite (blocking_q_init_outcome e t q m v Hq Hv). cbv zeta.
  rewrite Hm, Hc. cbn [Z.eqb].
  match goal with
  | |- context [blocking_q_destroy _ q ?m1] =>
      destruct (destroy_run (S fuel) q m1 [] (Queue 0 NULL (MHeld t) CReady))
        as (m2 & Hrun & Hqs & Hrecs & _ & _ & _ & Hout)
  end.
  - split; [done|]. eexists. split; [cbn; apply lookup_insert_eq|]. by cbn.
  - cbn. apply lookup_insert_eq.
  - simpl. lia.
  - rewrite Hrun. cbn [lock cond sz first].
    eexists. split; [reflexivity|]. cbn.
    split; [apply lookup_insert_eq|]. split; [|done].
    apply map_eq. intros l. rewrite Hout; [done|]. apply not_elem_of_nil.
Qed.

Lemma destroy_after_init_keeps_the_lock_witness :
  ∃ m', (blocking_q_init env_ok 0%nat 1 ;; blocking_q_destroy 1 1) fresh_mem
          = Done tt m' ∧
        qs m' !! 1 = Some (Queue 0 NULL (MHeld 0%nat) CUninit) ∧
        nodes m' = nodes fresh_mem ∧ recs m' = recs fresh_mem.
Proof.
  apply (destroy_after_init_keeps_the_lock env_ok 0%nat 0%nat 1 fresh_mem
           (Queue 0 NULL MUninit CUninit)).
  - discriminate.
  - vm_compute. reflexivity.
  - reflexivity.
  - reflexivity.
Defined.

(** ** The scheduler without a sentinel *)










(** ** Starting the threads *)

Lemma for_cons {R} i idx (body : nat → M (option R)) m :
  for_ (i :: idx) body m =
    match body i m with
    | Done (Some v) m' => Done (Some v) m'
    | Done None m' => for_ idx body m'
    | Fault f m' => Fault f m'
    | Blocked w m' => Blocked w m'
    | Diverge => Diverge
    end.
Proof.
  change (for_ (i :: idx) body m)
    with (bind (body i)
            (fun r => match r with
                      | Some v => ret (Some v)
                      | None => for_ idx body
                      end) m).
  unfold bind. by destruct (body i m) as [[v|] m'| | |].
Qed.

Lemma for_None_inv {R} idx (body : nat → M (option R)) :
  ∀ m m', for_ idx body m = Done None m' →
          ∀ i, i ∈ idx → ∃ ma mb, body i ma = Done None mb.
Proof.
  induction idx as [|j idx IH]; intros m m' Hrun i Hi.
  - by apply elem_of_nil in Hi.
  - rewrite for_cons in Hrun.
    destruct (body j m) as [[v|] m1| | |] eqn:Hj; try discriminate Hrun.
    apply elem_of_cons in Hi as [->|Hi]; [by exists m, m1|].
    by apply (IH m1 m').
Qed.

Lemma start_processor_inv p_init e i ma mb :
  start_processor p_init e i ma = Done None mb →
  (∃ mc, p_init i ma = Done true mc) ∧ create_ret e (S i) = 0.
Proof.
  unfold start_processor, bind at 1. intros H.
  destruct (p_init i ma) as [[|] mc| | |]; try discriminate H.
  cbn [negb] in H. unfold bind at 1 in H. rewrite pthread_create_eq in H.
  destruct (Z.eqb_spec 0 (create_ret e (S i))) as [E|_];
    [|discriminate H].
  split; [by exists mc|done].
Qed.

Lemma log_emit ev m : log (emit ev m) = log m ++ [ev].
Proof. reflexivity. Qed.

Lemma start_processor_ok e i m :
  create_ret e (S i) = 0 →
  start_processor processor_init e i m =
    Done None (emit (EvCreate (S i)) (emit (EvPrintf "TODO") m)).
Proof.
  intros Hc. unfold start_processor, processor_init. run_open.
  by rewrite Hc.
Qed.

(** X23: [main] gets as far as its feeding loop only when nothing failed:
    it was given an argument, the scheduler queue was allocated and its
    initialisation returned [true], every processor was initialised, and
    each of the [PROCESSOR_COUNT + 1] threads was created.  This holds
    for whatever queue and processor implementation [main] is linked
    with. *)
Theorem main_starts_only_when_nothing_failed
    q_init p_init e t argc m q m' :
  main_with q_init p_init e t argc m = Done (Started q) m' →
  2 ≤ argc ∧ q ≠ NULL ∧
  (∃ m1 m2, malloc_q m = Done q m1 ∧ q_init e t q m1 = Done true m2) ∧
  (∀ k, (k ≤ PROCESSOR_COUNT)%nat → create_ret e k = 0) ∧
  (∀ i, (i < PROCESSOR_COUNT)%nat →
        ∃ ma mb, p_init i ma = Done true mb).
Proof.
  unfold main_with. intros H.
  destruct (Z.ltb_spec argc 2) as [|Hargc]; [discriminate H|].
  unfold bind at 1 in H.
  destruct (malloc_q m) as [p m1| | |] eqn:Hm; try discriminate H.
  unfold bind at 1 in H.
  destruct (Z.eqb_spec p NULL) as [|Hp]; [discriminate H|].
  unfold bind at 1 in H.
  destruct (q_init e t p m1) as [[|] m2| | |] eqn:Hi; try discriminate H.
  unfold ret at 1 in H. cbn [negb] in H.
  unfold bind at 1 in H. rewrite pthread_create_eq in H.
  destruct (Z.eqb_spec 0 (create_ret e 0)) as [Hc|_]; [|discriminate H].
  cbn [negb] in H. unfold bind at 1 in H.
  destruct (for_ _ _ _) as [[code|] m3| | |] eqn:Hfor; try discriminate H.
  injection H as -> ->.
  pose proof (for_None_inv _ _ _ _ Hfor) as Hall.
  split; [lia|]. split; [done|]. split; [by exists m1, m2|]. split.
  - intros [|k] Hk; [done|].
    destruct (Hall k) as (ma & mb & Hk'); [apply elem_of_seq; lia|].
    by apply start_processor_inv in Hk' as [_ ?].
  - intros i Hlt.
    destruct (Hall i) as (ma & mb & Hk'); [apply elem_of_seq; lia|].
    apply start_processor_inv in Hk' as [[mc ?] _]. by exists ma, mc.
Qed.

Lemma main_starts_only_when_nothing_failed_witness :
  2 ≤ 2 ∧ 2 ≠ NULL ∧
  (∃ m1 m2, malloc_q fresh_mem = Done 2 m1 ∧
            (fun _ _ _ => ret true) env_ok 0%nat 2 m1 = Done true m2) ∧
  (∀ k, (k ≤ PROCESSOR_COUNT)%nat → create_ret env_ok k = 0) ∧
  (∀ i, (i < PROCESSOR_COUNT)%nat →
        ∃ ma mb, processor_init i ma = Done true mb).
Proof.
  eapply (main_starts_only_when_nothing_failed (fun _ _ _ => ret true)
            processor_init env_ok 0%nat 2 fresh_mem 2).
  vm_compute. reflexivity.
Defined.

(** X24: when nothing fails, [main] creates the scheduler thread, then
    for each processor runs [processor_init] and creates the processor's
    thread, in this order, and arrives at its feeding loop.  Since
    [processor_init] only prints, nothing has been allocated by then: no
    queue exists for any processor when the threads start. *)
Theorem main_starts_five_threads q_init e t argc m q m1 m2 :
  2 ≤ argc → malloc_q m = Done q m1 → q ≠ NULL →
  q_init e t q m1 = Done true m2 →
  (∀ k, (k ≤ PROCESSOR_COUNT)%nat → create_ret e k = 0) →
  ∃ m3, main_with q_init processor_init e t argc m = Done (Started q) m3 ∧
        log m3 = log m2 ++ startup_log ∧
        qs m3 = qs m2 ∧ nodes m3 = nodes m2 ∧ recs m3 = recs m2 ∧
        brk m3 = brk m2.
Proof.
  intros Hargc Hm Hq Hi Hc.
  assert (H0 := Hc 0%nat). assert (H1 := Hc 1%nat).
  assert (H2 := Hc 2%nat). assert (H3 := Hc 3%nat).
  assert (H4 := Hc 4%nat). unfold PROCESSOR_COUNT in *.
  eexists. split.
  - apply (startup_success q_init processor_init e t argc m q m1 m2);
      [exact Hargc|exact Hm|exact Hq|exact Hi|apply H0; lia|].
    change (seq 0 PROCESSOR_COUNT) with [0; 1; 2; 3]%nat.
    rewrite for_cons, start_processor_ok by (apply H1; lia).
    rewrite for_cons, start_processor_ok by (apply H2; lia).
    rewrite for_cons, start_processor_ok by (apply H3; lia).
    rewrite for_cons, start_processor_ok by (apply H4; lia).
    reflexivity.
  - split; [|by repeat split].
    rewrite !log_emit, <- !app_assoc. reflexivity.
Qed.

Lemma main_starts_five_threads_witness :
  ∃ m3, main_with (fun _ _ _ => ret true) processor_init env_ok 0%nat 2
          fresh_mem = Done (Started 2) m3 ∧
        log m3 =
          log (set_qs <[2 := Queue 0 NULL MUninit CUninit]> (bump fresh_mem))
            ++ startup_log ∧
        qs m3 = qs (set_qs <[2 := Queue 0 NULL MUninit CUninit]>
                      (bump fresh_mem)) ∧
        nodes m3 = nodes (set_qs <[2 := Queue 0 NULL MUninit CUninit]>
                            (bump fresh_mem)) ∧
        recs m3 = recs (set_qs <[2 := Queue 0 NULL MUninit CUninit]>
                          (bump fresh_mem)) ∧
        brk m3 = brk (set_qs <[2 := Queue 0 NULL MUninit CUninit]>
                        (bump fresh_mem)).
Proof.
  apply (main_starts_five_threads (fun _ _ _ => ret true) env_ok 0%nat 2
           fresh_mem 2
           (set_qs <[2 := Queue 0 NULL MUninit CUninit]> (bump fresh_mem))
           (set_qs <[2 := Queue 0 NULL MUninit CUninit]> (bump fresh_mem))).
  - lia.
  - vm_compute. reflexivity.
  - discriminate.
  - reflexivity.
  - reflexivity.
Defined.

(** ** A buffer that is too short *)

Lemma take_all_full f t q data (k : nat) m c cs v b :
  data ≠ NULL →
  heap_ok m → is_queue m q (c :: cs) → qs m !! q = Some v →
  bufs m !! data = Some b → k = length b →
  ∃ m2,
    take_all (S f) t q data (Z.of_nat k) m = Fault OutOfBounds m2 ∧
    is_queue m2 q cs ∧ same_but_buf q data m m2 ∧
    bufs m2 !! data = Some b.
Proof.
  intros Hd Hh Hq Hv0 Hb Hk.
  pose proof Hq as (Hqn & v' & Hv & Hc & Hs).
  rewrite Hv0 in Hv. injection Hv as <-.
  pose proof Hc as (Hf & Hn & nx & Hnode & Hrest).
  destruct (take_mem_is_queue t q m v c cs nx) as [Hh1 Hq1]; try done.
  unfold take_all. simpl while_. run_open. run_load.
  destruct (Z.ltb_spec 0 (sz v)) as [_|E]; [|simpl in Hs; lia].
  match goal with
  | |- context [__blocking_q_take t q ?m0] =>
      rewrite (take_step t q m0 v c.1 c.2 nx) by done
  end.
  unfold take_mem. cbn. run_load.
  destruct (Z.leb_spec 0 (Z.of_nat k)) as [_|E]; [|lia].
  destruct (Z.ltb_spec (Z.of_nat k) (Z.of_nat (length b))) as [E|_]; [lia|].
  cbn. eexists. split; [reflexivity|]. split; [exact Hq1|]. split; [|done].
  split; [|split].
  - repeat split; cbn; try done.
    intros q' Hq'. by rewrite lookup_insert_ne.
  - done.
  - intros v' Hv'. rewrite Hv0 in Hv'. injection Hv' as <-.
    eexists. split; [cbn; apply lookup_insert_eq|]. by split.
Qed.

Lemma take_all_overflow t q data :
  data ≠ NULL →
  ∀ cs fuel (k : nat) m b,
    heap_ok m → is_queue m q cs → bufs m !! data = Some b →
    (k ≤ length b)%nat → (length b < k + length cs)%nat →
    Z.of_nat (length b) ≤ INT_MAX → (length b - k < fuel)%nat →
    ∃ m', take_all fuel t q data (Z.of_nat k) m = Fault OutOfBounds m' ∧
          is_queue m' q (drop (S (length b - k)) cs) ∧
          same_but_buf q data m m' ∧
          bufs m' !! data = Some (take k b ++ take (length b - k) cs.*2).
Proof.
  intros Hd. induction cs as [|c cs IH];
    intros fuel k m b Hh Hq Hb Hk Hover Hmax Hfuel;
    [simpl in Hover; lia|].
  destruct fuel as [|f]; [lia|].
  pose proof Hq as (Hqn & v & Hv & _). simpl in Hover.
  destruct (decide (k = length b)) as [Hfull|Hroom].
  - destruct (take_all_full f t q data k m c cs v b)
      as (m2 & Hrun & Hq2 & Hsame & Hb2); try done.
    exists m2. replace (length b - k)%nat with 0%nat by lia.
    rewrite take_0, app_nil_r, Hfull, firstn_all.
    change (drop 1 (c :: cs)) with cs.
    rewrite Hfull in Hrun. done.
  - destruct (take_all_step f t q data k m c cs v b)
      as (m2 & Hstep & Hh2 & Hq2 & Hsame2 & Hb2); try done; try lia.
    destruct (IH f (S k) m2 (<[k := c.2]> b))
      as (m' & Hrun & Hq' & Hsame' & Hb'); try done;
      rewrite ?length_insert; try lia.
    rewrite length_insert in Hq', Hb'.
    exists m'. rewrite Hstep.
    replace (length b - k)%nat with (S (length b - S k)) by lia.
    split; [done|]. split; [done|].
    split; [by apply (same_but_buf_trans q data m m2 m')|].
    rewrite Hb'. f_equal.
    rewrite (take_S_r _ k c.2) by (apply list_lookup_insert_eq; lia).
    rewrite take_insert_ge by lia. rewrite fmap_cons. simpl.
    by rewrite <- app_assoc.
Qed.

(** X25: [blocking_q_drain_at_least] drains the whole queue whatever
    capacity it was given.  When more elements are queued than the buffer
    has entries, it fills the buffer and then writes past its end; the
    element it had taken for that write is lost, no longer in the queue
    and not in the buffer. *)
Theorem blocking_q_drain_at_least_overruns_the_buffer
    fuel t q data n min m cs b :
  data ≠ NULL → heap_ok m → is_queue m q cs → bufs m !! data = Some b →
  (length b < length cs)%nat → Z.of_nat (length b) ≤ INT_MAX →
  (length b < fuel)%nat →
  ∃ m', blocking_q_drain_at_least fuel t q data n min m
          = Fault OutOfBounds m' ∧
        bufs m' !! data = Some (take (length b) cs.*2) ∧
        is_queue m' q (drop (S (length b)) cs).
Proof.
  intros Hd Hh Hq Hb Hover Hmax Hfuel.
  destruct (take_all_overflow t q data Hd cs fuel 0%nat m b)
    as (m' & Hrun & Hq' & _ & Hb'); try done; try lia.
  rewrite Nat.sub_0_r in Hq', Hb'. simpl in Hb'.
  exists m'. split; [|done].
  unfold blocking_q_drain_at_least.
  destruct fuel as [|f]; [lia|]. simpl drain_rounds.
  unfold bind at 1. change (Z.of_nat 0) with 0 in Hrun. by rewrite Hrun.
Qed.

Lemma blocking_q_drain_at_least_overruns_the_buffer_witness :
  ∃ m', blocking_q_drain_at_least 8 0%nat 1 5 2 1 (three_mem MFree 2)
          = Fault OutOfBounds m' ∧
        bufs m' !! 5 = Some (take (length (replicate 2 NULL))
                               [(2, 50); (3, 60); (4, 70)].*2) ∧
        is_queue m' 1 (drop (S (length (replicate 2 NULL)))
                         [(2, 50); (3, 60); (4, 70)]).
Proof.
  apply (blocking_q_drain_at_least_overruns_the_buffer 8 0%nat 1 5 2 1
           (three_mem MFree 2) [(2, 50); (3, 60); (4, 70)]
           (replicate 2 NULL)).
  - discriminate.
  - split; [unfold ADDR_MAX; cbn; lia|].
    apply (@bool_decide_unpack
             (map_Forall (λ l _, 0 < l < brk (three_mem MFree 2))
                (nodes (three_mem MFree 2))) _).
    vm_compute. exact I.
  - apply three_mem_is_queue.
  - vm_compute. reflexivity.
  - simpl. lia.
  - unfold INT_MAX. simpl. lia.
  - simpl. lia.
Defined.

(** ** Feeding the scheduler queue *)

Lemma new_task_eq ty m :
  can_alloc m →
  (tk <- malloc_task ;;
   store_task tk (set_type ty) ;;
   store_task tk (set_end 0) ;;
   store_task tk (set_start 0) ;;
   ret tk) m
  = Done (brk m) (set_recs <[brk m := Task ty 0 0]> (bump m)).
Proof.
  intros Ha.
  assert (Hb : brk m ≠ NULL) by (destruct Ha as [_ [? _]]; unfold NULL; lia).
  step_with (malloc_task_ok m Ha).
  unfold bind at 1. erewrite store_task_ok by first [done|find_lookup].
  unfold bind at 1. erewrite store_task_ok by first [done|find_lookup].
  unfold bind at 1. erewrite store_task_ok by first [done|find_lookup].
  unfold ret, set_recs. cbn. by rewrite !insert_insert_eq.
Qed.

Lemma feed_char_task fuel t q c m :
  is_task_letter c = true → can_alloc m →
  feed_char fuel t q c m =
    (blocking_q_put fuel t q (brk m) ;; ret tt)
      (set_recs <[brk m := Task c 0 0]> (bump m)).
Proof.
  intros Hc Ha. pose proof (new_task_eq c m Ha) as Hnew.
  unfold feed_char. rewrite Hc. unfold bind in Hnew |- *.
  destruct (malloc_task m) as [p m1| | |]; try done.
  destruct (store_task p (set_type c) m1) as [[] m2| | |]; try done.
  destruct (store_task p (set_end 0) m2) as [[] m3| | |]; try done.
  destruct (store_task p (set_start 0) m3) as [[] m4| | |]; try done.
  unfold ret in Hnew. by injection Hnew as -> ->.
Qed.

Lemma feed_char_other fuel t q c m :
  is_task_letter c = false → feed_char fuel t q c m = Done tt m.
Proof.
  intros Hc. unfold feed_char. rewrite Hc. by destruct (is_digit c).
Qed.

Lemma poison_task_eq fuel t q m :
  can_alloc m →
  (poison_pill_task <- malloc_task ;;
   store_task poison_pill_task (set_type POISON_PILL) ;;
   blocking_q_put fuel t q poison_pill_task ;;
   ret poison_pill_task) m
  = (blocking_q_put fuel t q (brk m) ;; ret (brk m))
      (set_recs <[brk m := set_type POISON_PILL (fresh_task m (brk m))]>
         (bump m)).
Proof.
  intros Ha.
  assert (Hb : brk m ≠ NULL) by (destruct Ha as [_ [? _]]; unfold NULL; lia).
  step_with (malloc_task_ok m Ha).
  unfold bind at 1. erewrite store_task_ok by first [done|find_lookup].
  unfold set_recs. cbn. by rewrite !insert_insert_eq.
Qed.

Lemma can_alloc_after_task m r :
  (2 ≤ avail m)%nat → 0 < brk m → brk m + 2 ≤ ADDR_MAX →
  can_alloc (set_recs <[brk m := r]> (bump m)).
Proof. intros ???. unfold can_alloc. cbn. lia. Qed.

Lemma feed_cons fuel t q c chars m :
  feed fuel t q (c :: chars) m =
    match feed_char fuel t q c m with
    | Done _ m' => feed fuel t q chars m'
    | Fault f m' => Fault f m'
    | Blocked w m' => Blocked w m'
    | Diverge => Diverge
    end.
Proof. reflexivity. Qed.

Lemma feed_on_empty_queue fuel t q v :
  ∀ chars m,
    q ≠ NULL → qs m !! q = Some v → first v = NULL →
    (2 ≤ avail m)%nat → 0 < brk m → brk m + 2 ≤ ADDR_MAX →
    match List.filter is_task_letter chars with
    | [] => feed (S fuel) t q chars m = Done tt m
    | c :: _ =>
        ∃ m', feed (S fuel) t q chars m = Fault NullDeref m' ∧
              qs m' = qs m ∧ recs m' = <[brk m := Task c 0 0]> (recs m)
    end.
Proof.
  induction chars as [|c chars IH]; intros m Hq Hv Hf Hav Hb0 Hb; [done|].
  simpl List.filter. rewrite feed_cons.
  destruct (is_task_letter c) eqn:Hc.
  - rewrite feed_char_task by (done || unfold can_alloc; lia).
    unfold bind at 1. erewrite put_empty_faults; try done.
    + eexists. split; [reflexivity|]. by split.
    + by apply can_alloc_after_task.
  - rewrite feed_char_other by done. by apply IH.
Qed.

(** X26: on an empty scheduler queue, which is how an initialisation
    leaves it, the feeding part of [main] enqueues nothing, whatever the
    argument string: the first task it constructs, or the sentinel when
    the string names no task, is handed to [blocking_q_put], which goes
    through the null head pointer.  The record constructed for it stays
    allocated, of the kind of that task, with both its times set to zero
    when it is a task of the string; of the sentinel the code writes the
    kind only.  The queue object is unchanged. *)
Theorem main_feed_cannot_enqueue fuel t q arg m v :
  q ≠ NULL → qs m !! q = Some v → first v = NULL →
  (2 ≤ avail m)%nat → 0 < brk m → brk m + 2 ≤ ADDR_MAX →
  ∃ m' r, main_feed (S fuel) t q arg m = Fault NullDeref m' ∧
          qs m' = qs m ∧
          recs m' = <[brk m := r]> (recs m) ∧
          type r = hd POISON_PILL (task_letters arg) ∧
          (task_letters arg ≠ [] → start r = 0 ∧ end_ r = 0).
Proof.
  intros Hq Hv Hf Hav Hb0 Hb. unfold main_feed, task_letters.
  pose proof (feed_on_empty_queue fuel t q v (c_chars arg) m
                Hq Hv Hf Hav Hb0 Hb) as Hfeed.
  destruct (List.filter is_task_letter (c_chars arg)) as [|c ?].
  - unfold bind at 1. rewrite Hfeed.
    rewrite poison_task_eq by (unfold can_alloc; lia).
    unfold bind at 1. erewrite put_empty_faults; try done.
    + eexists. exists (set_type POISON_PILL (fresh_task m (brk m))).
      split; [reflexivity|]. by repeat split.
    + by apply can_alloc_after_task.
  - destruct Hfeed as (m' & Hrun & Hqs & Hrecs). exists m', (Task c 0 0).
    split; [|by repeat split].
    unfold bind at 1. by rewrite Hrun.
Qed.

Lemma main_feed_cannot_enqueue_witness :
  ∃ m' r, main_feed 1 0%nat 1 "59" initialised_mem = Fault NullDeref m' ∧
          qs m' = qs initialised_mem ∧
          recs m' = <[brk initialised_mem := r]> (recs initialised_mem) ∧
          type r = hd POISON_PILL (task_letters "59") ∧
          (task_letters "59" ≠ [] → start r = 0 ∧ end_ r = 0).
Proof.
  apply (main_feed_cannot_enqueue 0%nat 0%nat 1 "59" initialised_mem
           (Queue 0 NULL (MHeld 0%nat) CReady)).
  - discriminate.
  - vm_compute. reflexivity.
  - reflexivity.
  - simpl. lia.
  - simpl. lia.
  - unfold ADDR_MAX. simpl. lia.
Defined.

Lemma put_new_task fuel t q m cs r :
  heap_ok m → is_queue m q cs → cs ≠ [] →
  (2 ≤ avail m)%nat → brk m + 2 ≤ ADDR_MAX → (length cs ≤ fuel)%nat →
  ∃ m2,
    blocking_q_put fuel t q (brk m) (set_recs <[brk m := r]> (bump m))
      = Done true m2 ∧
    heap_ok m2 ∧ is_queue m2 q (cs ++ [(brk m + 1, brk m)]) ∧
    recs m2 = <[brk m := r]> (recs m) ∧
    brk m2 = brk m + 2 ∧ avail m2 = (avail m - 2)%nat.
Proof.
  intros Hh Hq Hne Hav Hb Hfuel.
  set (m1 := set_recs <[brk m := r]> (bump m)).
  assert (Hh1 : heap_ok m1).
  { destruct Hh as [Hb0 Hn]. split; [cbn; lia|].
    intros l n Hl. cbn in Hl. specialize (Hn _ _ Hl). cbn. lia. }
  assert (Hq1 : is_queue m1 q cs) by exact Hq.
  assert (Ha1 : can_alloc m1).
  { destruct Hh as [Hb0 _]. unfold can_alloc. cbn. lia. }
  destruct cs as [|c cs0 _] using rev_ind; [done|].
  pose proof Hq1 as (Hqn & v & Hv & Hc & Hs).
  rewrite length_app in Hfuel. simpl in Hfuel.
  destruct (put_mem_is_queue t q (brk m) m1 v cs0 c) as (Hh2 & Hq2 & Hw);
    try done.
  exists (put_mem t q (brk m) v c m1). split.
  - apply (put_step fuel t q (brk m) m1 v cs0 c); try done.
    + by apply heap_ok_fresh.
    + lia.
    + rewrite Hw, Hs, length_app. simpl. lia.
  - split; [done|]. split; [by rewrite <- app_assoc|].
    split; [done|]. cbn. split; lia.
Qed.

Lemma feed_run fuel t q :
  ∀ chars m cs,
    heap_ok m → is_queue m q cs → cs ≠ [] →
    (2 * length (List.filter is_task_letter chars) ≤ avail m)%nat →
    brk m + 2 * Z.of_nat (length (List.filter is_task_letter chars))
      ≤ ADDR_MAX →
    (length cs + length (List.filter is_task_letter chars) ≤ fuel)%nat →
    ∃ m' new,
      feed fuel t q chars m = Done tt m' ∧
      heap_ok m' ∧ is_queue m' q (cs ++ new) ∧
      Forall2 (λ c ty, recs m' !! c.2 = Some (Task ty 0 0)) new
        (List.filter is_task_letter chars) ∧
      Forall (λ c, c.2 < brk m') new ∧
      brk m' =
        brk m + 2 * Z.of_nat (length (List.filter is_task_letter chars)) ∧
      avail m' =
        (avail m - 2 * length (List.filter is_task_letter chars))%nat ∧
      (∀ p, p < brk m → recs m' !! p = recs m !! p).
Proof.
  induction chars as [|c chars IH]; intros m cs Hh Hq Hne Hav Hb Hfuel.
  - exists m, []. rewrite app_nil_r. simpl.
    split; [done|]. split; [done|]. split; [done|]. split; [done|].
    split; [done|]. split; [lia|]. split; [lia|done].
  - rewrite feed_cons. simpl List.filter in *.
    destruct (is_task_letter c) eqn:Hc.
    + simpl length in *.
      rewrite feed_char_task
        by (done || destruct Hh as [? _]; unfold can_alloc; lia).
      destruct (put_new_task fuel t q m cs (Task c 0 0))
        as (m2 & Hput & Hh2 & Hq2 & Hr2 & Hb2 & Ha2); try done; try lia.
      unfold bind at 1. rewrite Hput. unfold ret at 1.
      destruct (IH m2 (cs ++ [(brk m + 1, brk m)]))
        as (m' & new & Hrun & Hh' & Hq' & Hrecs & Hlt & Hb' & Ha' & Hframe);
        try done; rewrite ?length_app; simpl; try lia.
      { by destruct cs. }
      exists m', ((brk m + 1, brk m) :: new).
      split; [done|]. split; [done|].
      split; [by rewrite <- app_assoc in Hq'|].
      split; [|split; [|split; [lia|split; [lia|]]]].
      * constructor; [|done]. simpl.
        rewrite Hframe by lia. rewrite Hr2. apply lookup_insert_eq.
      * constructor; [simpl; lia|done].
      * intros p Hp. rewrite Hframe by lia. rewrite Hr2.
        apply lookup_insert_ne. lia.
    + rewrite feed_char_other by done. by apply IH.
Qed.

(** X27: on a well-formed scheduler queue that is not empty, with memory
    for the records and nodes, the feeding part of [main] constructs one
    task record for each letter A to D of the argument string, skipping
    every other character, with its kind and both its times set to zero,
    appends their handles to the queue in the order of the string, and
    appends last the handle of a record of the sentinel kind, of which
    nothing but the kind is written. *)
Theorem main_feed_appends_tasks_then_sentinel fuel t q arg m cs :
  heap_ok m → is_queue m q cs → cs ≠ [] →
  (2 * (length (task_letters arg) + 1) ≤ avail m)%nat →
  brk m + 2 * Z.of_nat (length (task_letters arg) + 1) ≤ ADDR_MAX →
  (length cs + length (task_letters arg) + 1 ≤ fuel)%nat →
  ∃ m' ps p,
    main_feed fuel t q arg m = Done p m' ∧
    contents m' q = contents m q ++ ps ++ [p] ∧
    Forall2 (λ p ty, recs m' !! p = Some (Task ty 0 0)) ps
      (task_letters arg) ∧
    ∃ r, recs m' !! p = Some r ∧ type r = POISON_PILL.
Proof.
  unfold task_letters. intros Hh Hq Hne Hav Hb Hfuel.
  destruct (feed_run fuel t q (c_chars arg) m cs)
    as (m1 & new & Hrun & Hh1 & Hq1 & Hrecs & Hlt & Hb1 & Ha1 & Hframe);
    try done; try lia.
  destruct (put_new_task fuel t q m1 (cs ++ new)
              (set_type POISON_PILL (fresh_task m1 (brk m1))))
    as (m2 & Hput & Hh2 & Hq2 & Hr2 & Hb2 & Ha2); try done; try lia.
  { by destruct cs. }
  { rewrite length_app, (Forall2_length _ _ _ Hrecs). lia. }
  exists m2, new.*2, (brk m1).
  split; [|split; [|split]].
  - unfold main_feed. unfold bind at 1. rewrite Hrun.
    rewrite poison_task_eq
      by (destruct Hh1 as [? _]; unfold can_alloc; lia).
    unfold bind at 1. by rewrite Hput.
  - rewrite (is_queue_contents m q cs Hq), (is_queue_contents m2 q _ Hq2).
    rewrite !fmap_app, <- app_assoc. reflexivity.
  - apply Forall2_fmap_l.
    clear Hq1 Hq2 Hput Hrun Hav Hb Hfuel Hb1 Ha1.
    induction Hrecs as [|c ty new tys Hc Hrest IH]; [constructor|].
    apply Forall_cons in Hlt as [Hc' Hlt].
    constructor; [|by apply IH].
    simpl in Hc' |- *. rewrite Hr2, lookup_insert_ne by lia. exact Hc.
  - eexists. split; [rewrite Hr2; apply lookup_insert_eq|reflexivity].
Qed.

Lemma main_feed_appends_tasks_then_sentinel_witness :
  ∃ m' ps p,
    main_feed 8 0%nat 1 "A5B" (three_mem MFree 3) = Done p m' ∧
    contents m' 1 = contents (three_mem MFree 3) 1 ++ ps ++ [p] ∧
    Forall2 (λ p ty, recs m' !! p = Some (Task ty 0 0)) ps
      (task_letters "A5B") ∧
    ∃ r, recs m' !! p = Some r ∧ type r = POISON_PILL.
Proof.
  apply (main_feed_appends_tasks_then_sentinel 8 0%nat 1 "A5B"
           (three_mem MFree 3) [(2, 50); (3, 60); (4, 70)]).
  - split; [unfold ADDR_MAX; cbn; lia|].
    apply (@bool_decide_unpack
             (map_Forall (λ l _, 0 < l < brk (three_mem MFree 3))
                (nodes (three_mem MFree 3))) _).
    vm_compute. exact I.
  - apply three_mem_is_queue.
  - discriminate.
  - vm_compute. lia.
  - unfold ADDR_MAX. vm_compute. discriminate.
  - vm_compute. lia.
Defined.

(** ** The sentinel and the empty queue of a processor *)

(** C2, as the code has it: having dequeued the sentinel, the scheduler
    constructs one record of the sentinel kind and hands it to
    [blocking_q_put] for the first processor.  When the queue of that
    processor is empty, which is how [blocking_q_init] leaves a queue, the
    put goes through the null head pointer: the scheduler stops there, no
    processor queue has received a sentinel, every queue object other than
    the scheduler's own is as it was, no node is linked, and the record
    stays allocated. *)
Theorem scheduler_sentinel_misses_empty_queues f t d m pre k post proc v :
  heap_ok m → is_queue m (sched_q d) (pre ++ k :: post) →
  Forall (live_task m (λ ty, ty ≠ POISON_PILL)) pre →
  live_task m (λ ty, ty = POISON_PILL) k →
  (post ≠ [] ∨ ∃ v0, qs m !! sched_q d = Some v0 ∧ lock v0 = MFree) →
  (length pre + 2 ≤ S f)%nat →
  (2 ≤ avail m)%nat → brk m + 2 ≤ ADDR_MAX →
  processors d !! 0%nat = Some proc →
  tasks proc ≠ NULL → tasks proc ≠ sched_q d →
  qs m !! tasks proc = Some v → first v = NULL →
  ∃ m' r,
    scheduler (S f) t d m = Fault NullDeref m' ∧
    (∀ q, q ≠ sched_q d → qs m' !! q = qs m !! q) ∧
    (∀ l, l ≠ brk m + 1 → nodes m' !! l = nodes m !! l) ∧
    nodes m' !! (brk m + 1) = Some (Node (brk m) NULL) ∧
    recs m' !! brk m = Some r ∧ type r = POISON_PILL.
Proof.
  intros Hh Hsq Hpre Hk Hl Hfuel Hav Hbrk Hproc Hpn Hpne Hv Hfirst.
  destruct (scheduler_loop f t (sched_q d) k post pre (S f) m
              Hh Hsq Hpre Hk Hl Hfuel) as (ma & Hloop & Hsame & Hsqa).
  pose proof Hsame as (N & R & B & A & Qs).
  assert (Hb0 : brk m ≠ NULL) by (destruct Hh as [? _]; unfold NULL; lia).
  assert (Hcan : can_alloc ma).
  { destruct Hh as [? _]. unfold can_alloc. rewrite A, B. lia. }
  set (r := set_type POISON_PILL (fresh_task ma (brk m))).
  set (mb := set_recs <[brk m := r]> (bump ma)).
  assert (Hput : blocking_q_put (S f) t (tasks proc) (brk m) mb =
                 Fault NullDeref
                   (set_nodes <[brk mb := Node (brk m) NULL]> (bump mb))).
  { apply (put_empty_faults f t (tasks proc) (brk m) mb v); try done.
    - cbn. by rewrite Qs.
    - destruct Hh as [? _]. unfold can_alloc. cbn. rewrite A, B. lia. }
  assert (Hbody : scheduler_body (S f) t d m =
                  Fault NullDeref
                    (set_nodes <[brk mb := Node (brk m) NULL]> (bump mb))).
  { unfold scheduler_body. step_with Hloop.
    unfold bind at 1. rewrite (malloc_task_ok ma Hcan), B. cbv beta iota.
    unfold bind at 1.
    rewrite (store_task_ok (brk m) _ _ (fresh_task ma (brk m)));
      [|exact Hb0|cbn; apply lookup_insert_eq].
    cbv beta iota.
    replace (set_recs <[brk m:=set_type POISON_PILL (fresh_task ma (brk m))]>
               (set_recs <[brk m:=fresh_task ma (brk m)]> (bump ma)))
      with mb.
    2:{ unfold mb, r, set_recs. cbn. by rewrite insert_insert_eq. }
    unfold bind at 1.
    change (seq 0 PROCESSOR_COUNT) with (0%nat :: seq 1 3).
    rewrite for_cons. unfold kill_processor at 1. rewrite Hproc.
    unfold bind at 1. by rewrite Hput. }
  exists (set_nodes <[brk mb := Node (brk m) NULL]> (bump mb)), r.
  split; [unfold scheduler, bind at 1; by rewrite Hbody|].
  assert (Hbb : brk mb = brk m + 1) by (cbn; by rewrite B).
  rewrite Hbb. cbn. rewrite N.
  split; [exact Qs|]. split; [|split; [apply lookup_insert_eq|]].
  - intros l Hne. by apply lookup_insert_ne.
  - split; [apply lookup_insert_eq|reflexivity].
Qed.

Lemma scheduler_sentinel_misses_empty_queues_witness :
  ∃ m' r,
    scheduler 8 0%nat sched_dat idle_mem = Fault NullDeref m' ∧
    (∀ q, q ≠ sched_q sched_dat → qs m' !! q = qs idle_mem !! q) ∧
    (∀ l, l ≠ brk idle_mem + 1 → nodes m' !! l = nodes idle_mem !! l) ∧
    nodes m' !! (brk idle_mem + 1) = Some (Node (brk idle_mem) NULL) ∧
    recs m' !! brk idle_mem = Some r ∧ type r = POISON_PILL.
Proof.
  apply (scheduler_sentinel_misses_empty_queues 7 0%nat sched_dat idle_mem
           [(10, 30)] (11, 31) [] (Processor 2 0 0 0)
           (Queue 0 NULL (MHeld 0%nat) CReady)).
  - split; [unfold ADDR_MAX; cbn; lia|].
    apply (@bool_decide_unpack
             (map_Forall (λ l _, 0 < l < brk idle_mem) (nodes idle_mem)) _).
    vm_compute. exact I.
  - solve_chain.
  - apply Forall_cons_2; [|apply Forall_nil_2].
    split; [discriminate|]. eexists. split; [vm_compute; reflexivity|].
    discriminate.
  - split; [discriminate|]. eexists. split; vm_compute; reflexivity.
  - right. eexists. split; vm_compute; reflexivity.
  - simpl. lia.
  - simpl. lia.
  - unfold ADDR_MAX. simpl. lia.
  - reflexivity.
  - discriminate.
  - discriminate.
  - vm_compute. reflexivity.
  - reflexivity.
Defined.
